(** * Ursalink payload decoders: a shallow embedding and its properties

    The repository holds four JavaScript decoders for Ursalink LoRaWAN
    sensors, each a function [Decoder(bytes, port)] scanning a byte array of
    channel records [channel-id; channel-type; data...]:

    - [AM100.js]            ambience monitor (TTN console),
    - [AM100-node-red.js]   the same decoder embedded in a Node-RED function,
    - [EM500-SMT.js]        soil monitor (the Node-RED copy of it is identical),
    - the EM500-LGT light sensor decoder.

    The decoders are embedded as functions over an explicit state (the loop
    index [i], the object [decoded], and a ghost log of the indices of
    [bytes] that were read), written in a small monad with [break] and
    [throw].  JavaScript numbers are kept as integers where the program
    computes integers and as binary64 floats where it divides.

    The two Node-RED files also hold the function bodies around [Decoder]
    and the functions [dewpoint] and [CalculateHeatIndex]; these are
    embedded over binary64 floats, with [Math.log] and [Math.sqrt] as
    parameters. *)

From Stdlib Require Import ZArith Floats Lia.
From Stdlib.Strings Require Import Byte Ascii String HexString.
From stdpp Require Import gmap strings list.

Local Open Scope Z_scope.

(** ** JavaScript numbers *)

(** [Int z] is the number whose value is the integer [z]; every integer the
    decoders compute stays far below 2^53, where doubles are exact.  [Flt f]
    is a binary64 value; [NaN] is the float [nan]. *)
Inductive num : Type :=
  | Int (z : Z)
  | Flt (f : float).

Definition NaN : num := Flt PrimFloat.nan.

(** The double with integral value [z] (exact for |z| < 2^53). *)
Definition Z2F (z : Z) : float :=
  if z <? 0 then PrimFloat.opp (PrimFloat.of_uint63 (Uint63.of_Z (- z)))
  else PrimFloat.of_uint63 (Uint63.of_Z z).

Definition toF (n : num) : float :=
  match n with
  | Int z => Z2F z
  | Flt f => f
  end.

(** Reduction modulo 2^32 into the signed range, as ToInt32 does. *)
Definition wrap32 (z : Z) : Z :=
  let m := z mod 2 ^ 32 in
  if 2 ^ 31 <=? m then m - 2 ^ 32 else m.

(** Truncation toward zero of a finite float; 0 for NaN and infinities. *)
Definition truncF (f : float) : Z :=
  match Prim2SF f with
  | S754_finite s m e =>
      let a := if 0 <=? e then Z.pos m * 2 ^ e else Z.quot (Z.pos m) (2 ^ (- e)) in
      if s then - a else a
  | _ => 0
  end.

Definition ToInt32 (n : num) : Z :=
  match n with
  | Int z => wrap32 z
  | Flt f => wrap32 (truncF f)
  end.

(** [a << k], [a >> k], [a & b]: operands through ToInt32, shift count
    masked to five bits. *)
Definition js_shl (a : num) (k : Z) : num :=
  Int (wrap32 (Z.shiftl (ToInt32 a) (Z.land k 31))).

Definition js_sar (a : num) (k : Z) : num :=
  Int (Z.shiftr (ToInt32 a) (Z.land k 31)).

Definition js_and (a b : num) : num :=
  Int (Z.land (ToInt32 a) (ToInt32 b)).

(** [a + b], [a - b], [a * b] on numbers: exact on integers, binary64
    otherwise.  [a / b] is always the binary64 quotient. *)
Definition js_add (a b : num) : num :=
  match a, b with
  | Int x, Int y => Int (x + y)
  | _, _ => Flt (PrimFloat.add (toF a) (toF b))
  end.

Definition js_sub (a b : num) : num :=
  match a, b with
  | Int x, Int y => Int (x - y)
  | _, _ => Flt (PrimFloat.sub (toF a) (toF b))
  end.

Definition js_mul (a b : num) : num :=
  match a, b with
  | Int x, Int y => Int (x * y)
  | _, _ => Flt (PrimFloat.mul (toF a) (toF b))
  end.

Definition js_div (a b : num) : num :=
  Flt (PrimFloat.div (toF a) (toF b)).

(** [a > b], [a >= b], [a !== b] on numbers (false on NaN for the first
    two, true on NaN for the last). *)
Definition js_gt (a b : num) : bool :=
  match a, b with
  | Int x, Int y => y <? x
  | _, _ => PrimFloat.ltb (toF b) (toF a)
  end.

Definition js_ge (a b : num) : bool :=
  match a, b with
  | Int x, Int y => y <=? x
  | _, _ => PrimFloat.leb (toF b) (toF a)
  end.

Definition js_neq (a b : num) : bool :=
  match a, b with
  | Int x, Int y => negb (x =? y)
  | _, _ => negb (PrimFloat.eqb (toF a) (toF b))
  end.

(** ** Byte arrays *)

Definition byte_val (b : byte) : Z := Z.of_N (Byte.to_N b).

(** [bytes[k]]: the byte at index [k], or [None] for [undefined]. *)
Definition elem (bytes : list byte) (k : Z) : option Z :=
  if k <? 0 then None else byte_val <$> bytes !! Z.to_nat k.

Definition len (bytes : list byte) : Z := Z.of_nat (length bytes).

(** The index range [bytes.slice(a, b)] covers, for [0 <= a]. *)
Definition slice_lo (bytes : list byte) (a : Z) : Z := Z.min a (len bytes).
Definition slice_hi (bytes : list byte) (b : Z) : Z := Z.min b (len bytes).

Definition slice (bytes : list byte) (a b : Z) : list byte :=
  let lo := slice_lo bytes a in
  let hi := slice_hi bytes b in
  take (Z.to_nat (hi - lo)) (drop (Z.to_nat lo) bytes).

(** ToNumber of an array element: [undefined] becomes NaN. *)
Definition ToNumber (e : option Z) : num :=
  match e with
  | Some z => Int z
  | None => NaN
  end.

(** [e === c] for an array element and an integer literal. *)
Definition seq (e : option Z) (c : Z) : bool :=
  match e with
  | Some z => z =? c
  | None => false
  end.

(** ** Values stored in the decoded object *)

Record EnabledSensors : Type := mkEnabledSensors {
  es_temperature : bool;
  es_humidity : bool;
  es_activity : bool;
  es_illumination : bool;
  es_co2 : bool;
  es_tvoc : bool;
  es_pressure : bool
}.

Inductive value : Type :=
  | VUndef
  | VNum (n : num)
  | VBool (b : bool)
  | VStr (s : string)
  | VSensors (e : EnabledSensors).

Definition of_elem (e : option Z) : value :=
  match e with
  | Some z => VNum (Int z)
  | None => VUndef
  end.

(** ** bytes to number (the helper functions shared by the files) *)

Definition readUInt16LE (bytes : list byte) : num :=
  let value := js_add (js_shl (ToNumber (elem bytes 1)) 8) (ToNumber (elem bytes 0)) in
  js_and value (Int 0xffff).

Definition readInt16LE (bytes : list byte) : num :=
  let ref := readUInt16LE bytes in
  if js_gt ref (Int 0x7fff) then js_sub ref (Int 0x10000) else ref.

Definition readUInt16BE (bytes : list byte) : num :=
  let value := js_add (js_shl (ToNumber (elem bytes 0)) 8) (ToNumber (elem bytes 1)) in
  value.

Definition bcd2ToDecimal (value : num) : num :=
  let result := js_and value (Int 0xF) in
  if js_gt result (Int 9) || js_ge value (Int 0xA0) then Int 0
  else js_add result (js_mul (Int 10) (js_sar value 4)).

Definition bcd22ToVersion (value : num) : num :=
  let result :=
    js_add (bcd2ToDecimal (js_sar value 8))
           (js_div (bcd2ToDecimal (js_and value (Int 0xFF))) (Int 100)) in
  result.

Definition readVersion (bytes : list byte) : num :=
  bcd22ToVersion (readUInt16BE bytes).

(** [z.toString(16)] for an integer [z]. *)
Definition toString16 (z : Z) : string :=
  match z with
  | Z0 => "0"
  | Zpos p => HexString.Raw.of_pos p ""
  | Zneg p => "-" +:+ HexString.Raw.of_pos p ""
  end.

(** [s.substr(start)]: from [start] (counted from the end when negative) to
    the end of [s]. *)
Definition substr (s : string) (start : Z) : string :=
  let n := Z.of_nat (String.length s) in
  let from := if start <? 0 then Z.max (n + start) 0 else Z.min start n in
  String.substring (Z.to_nat from) (Z.to_nat (n - from)) s.

Definition encodeHex (b : byte) : string :=
  substr ("0" +:+ toString16 (byte_val b)) (-2).

Definition readHexBytes (bytes : list byte) : string :=
  let result := fold_left (fun result b => result +:+ "-" +:+ encodeHex b) bytes "" in
  substr result 1.

(** ** The decoding state and its monad *)

(** [cursor] is the loop variable [i], [decoded] the object under
    construction.  [reads] is ghost state: the indices at which [bytes] was
    accessed, most recent first. *)
Record state : Type := mkState {
  cursor : Z;
  decoded : gmap string value;
  reads : list Z
}.

Inductive exn : Type :=
  | ReferenceError (name : string).

(** A statement either completes, executes [break], or throws. *)
Inductive res (A : Type) : Type :=
  | Ok (a : A) (s : state)
  | Brk (s : state)
  | Err (e : exn).
Arguments Ok {A} a s.
Arguments Brk {A} s.
Arguments Err {A} e.

Definition M (A : Type) : Type := state -> res A.

#[global] Instance M_ret : MRet M := fun A a s => Ok a s.

#[global] Instance M_bind : MBind M := fun A B f m s =>
  match m s with
  | Ok a s' => f a s'
  | Brk s' => Brk s'
  | Err e => Err e
  end.

Definition skip : M unit := mret tt.

(** [i] *)
Definition get_i : M Z := fun s => Ok (cursor s) s.

(** [i += n] *)
Definition advance (n : Z) : M unit := fun s =>
  Ok tt (mkState (cursor s + n) (decoded s) (reads s)).

(** [bytes[k]] *)
Definition index (bytes : list byte) (k : Z) : M (option Z) := fun s =>
  Ok (elem bytes k) (mkState (cursor s) (decoded s) (k :: reads s)).

(** [bytes[i]] *)
Definition peek (bytes : list byte) : M (option Z) :=
  i ← get_i; index bytes i.

(** [bytes[i++]] *)
Definition next (bytes : list byte) : M (option Z) :=
  i ← get_i; advance 1;; index bytes i.

(** The indices [lo, lo+1, ..., hi-1], latest first. *)
Definition range_rev (lo hi : Z) : list Z :=
  reverse (seqZ lo (hi - lo)).

(** [bytes.slice(i + a, i + b)] *)
Definition slice_at (bytes : list byte) (a b : Z) : M (list byte) := fun s =>
  let i := cursor s in
  Ok (slice bytes (i + a) (i + b))
     (mkState i (decoded s)
        (range_rev (slice_lo bytes (i + a)) (slice_hi bytes (i + b)) ++ reads s)).

(** [decoded.key = v] *)
Definition assign (key : string) (v : value) : M unit := fun s =>
  Ok tt (mkState (cursor s) (<[key := v]> (decoded s)) (reads s)).

(** [break] *)
Definition break {A} : M A := fun s => Brk s.

(** A call of a function the file does not define. *)
Definition call_undefined {A} (name : string) : M A := fun _ =>
  Err (ReferenceError name).

(** ** The loop [for (var i = 0; i < bytes.length;) body] *)

Inductive outcome : Type :=
  | Done (s : state)
  | Raised (e : exn)
  | OutOfFuel.

Fixpoint loop (body : M unit) (n : Z) (fuel : nat) (s : state) : outcome :=
  if cursor s <? n then
    match fuel with
    | O => OutOfFuel
    | S fuel' =>
        match body s with
        | Ok _ s' => loop body n fuel' s'
        | Brk s' => Done s'
        | Err e => Raised e
        end
    end
  else Done s.

(** What a call of [Decoder] produces: the returned object, [null], or an
    exception.  [NoFuel] is the loop of the model running out of fuel; no
    decoder ever produces it ([Decoder_returns] below). *)
Inductive result : Type :=
  | Returned (d : gmap string value)
  | Null
  | Thrown (e : exn)
  | NoFuel.

Definition finish (o : outcome) : result :=
  match o with
  | Done s => Returned (decoded s)
  | Raised e => Thrown e
  | OutOfFuel => NoFuel
  end.

(** [port === undefined || port === 85], [None] being [undefined]. *)
Definition port_accepted (port : option Z) : bool :=
  match port with
  | None => true
  | Some p => p =? 85
  end.

(** Every body below advances [i] by at least two before it completes, so
    [length bytes] iterations are more than enough. *)
Definition run (body : list byte -> M unit) (bytes : list byte) (s : state) : outcome :=
  loop (body bytes) (len bytes) (length bytes) s.

Definition start (d : gmap string value) : state := mkState 0 d [].

(** ** AM100.js *)

Module AM100.

Definition system (bytes : list byte) (channel_type : option Z) : M unit :=
  (* RESTART *)
  if seq channel_type 0x0B then
    assign "restart" (VNum (Int 1));;
    advance 1
  (* FORMAT_VERSION *)
  else if seq channel_type 0x01 then
    b ← next bytes;
    assign "FormatVersion" (of_elem b)
  (* SERIAL_NUMBER *)
  else if seq channel_type 0x08 then
    sl ← slice_at bytes 0 6;
    assign "SerialNumber" (VStr (readHexBytes sl));;
    advance 6
  (* HARDWARE_VERSION *)
  else if seq channel_type 0x09 then
    sl ← slice_at bytes 0 2;
    assign "HardwareVersion" (VNum (readVersion sl));;
    advance 2
  (* SOFTWARE_VERSION *)
  else if seq channel_type 0x0A then
    sl ← slice_at bytes 0 2;
    assign "SoftwareVersion" (VNum (readVersion sl));;
    advance 2
  (* CLASS *)
  else if seq channel_type 0x0F then
    b ← next bytes;
    assign "Class" (of_elem b)
  (* Something else *)
  else if seq channel_type 0x18 then
    sl ← slice_at bytes 0 2;
    let enabledSensors := readUInt16BE sl in
    advance 2;;
    assign "EnabledSensors" (VSensors {|
      es_temperature := js_neq (js_and enabledSensors (Int 0x01)) (Int 0);
      es_humidity := js_neq (js_and enabledSensors (Int 0x02)) (Int 0);
      es_activity := js_neq (js_and enabledSensors (Int 0x04)) (Int 0);
      es_illumination := js_neq (js_and enabledSensors (Int 0x08)) (Int 0);
      es_co2 := js_neq (js_and enabledSensors (Int 0x10)) (Int 0);
      es_tvoc := js_neq (js_and enabledSensors (Int 0x20)) (Int 0);
      es_pressure := js_neq (js_and enabledSensors (Int 0x40)) (Int 0) |})
  else
    assign "Error" (VBool true);;
    break.

(** The body of the loop.  The four parameters are the readers applied to
    the data of activity, illumination, tvoc and pressure: [readInt16LE] in
    this file, [readUInt16LE] in the Node-RED copy, which is otherwise the
    same text.  In the BATTERY branch, [decoded.battery > 100] reads back the
    element just stored. *)
Definition body_with (activity illumination tvoc pressure : list byte -> num)
    (bytes : list byte) : M unit :=
  channel_id ← next bytes;
  channel_type ← next bytes;
  (* BATTERY *)
  if seq channel_id 0x01 && seq channel_type 0x75 then
    b ← peek bytes;
    assign "battery" (of_elem b);;
    (if js_gt (ToNumber b) (Int 100) then assign "battery" (VNum (Int 100)) else skip);;
    advance 1
  (* TEMPERATURE *)
  else if seq channel_id 0x03 && seq channel_type 0x67 then
    sl ← slice_at bytes 0 2;
    assign "temperature" (VNum (js_div (readInt16LE sl) (Int 10)));;
    advance 2
  (* HUMIDITY *)
  else if seq channel_id 0x04 && seq channel_type 0x68 then
    b ← peek bytes;
    assign "humidity" (VNum (js_div (ToNumber b) (Int 2)));;
    advance 1
  (* PIR *)
  else if seq channel_id 0x05 && seq channel_type 0x6A then
    sl ← slice_at bytes 0 2;
    assign "activity" (VNum (activity sl));;
    advance 2
  (* LIGHT *)
  else if seq channel_id 0x06 && seq channel_type 0x65 then
    sl ← slice_at bytes 0 2;
    assign "illumination" (VNum (illumination sl));;
    advance 6
  (* CO2 *)
  else if seq channel_id 0x07 && seq channel_type 0x7D then
    sl ← slice_at bytes 0 2;
    assign "co2" (VNum (readInt16LE sl));;
    advance 2
  (* TVOC *)
  else if seq channel_id 0x08 && seq channel_type 0x7D then
    sl ← slice_at bytes 0 2;
    assign "tvoc" (VNum (tvoc sl));;
    advance 2
  (* PRESSURE *)
  else if seq channel_id 0x09 && seq channel_type 0x73 then
    sl ← slice_at bytes 0 2;
    assign "pressure" (VNum (js_div (pressure sl) (Int 10)));;
    advance 2
  (* SYSTEM *)
  else if seq channel_id 0xFF then
    system bytes channel_type
  else
    assign "error" (VBool true);;
    break.

Definition body : list byte -> M unit :=
  body_with readInt16LE readInt16LE readInt16LE readInt16LE.

(** [var decoded = {}; decoded.Error = false; i = 0] *)
Definition init : state := start (<["Error" := VBool false]> ∅).

Definition exec (bytes : list byte) : outcome :=
  run body bytes init.

Definition Decoder (bytes : list byte) (port : option Z) : result :=
  if negb (port_accepted port) then Null
  else finish (exec bytes).

End AM100.


(** ** AM100-node-red.js

    The [Decoder] embedded in the Node-RED function is the one of AM100.js
    with [readUInt16LE] in place of [readInt16LE] for activity,
    illumination, tvoc and pressure; the SYSTEM block is the same text. *)

Module AM100_node_red.

Definition body : list byte -> M unit :=
  AM100.body_with readUInt16LE readUInt16LE readUInt16LE readUInt16LE.

(** [var decoded = {}; decoded.Error = false; i = 0] *)
Definition init : state := start (<["Error" := VBool false]> ∅).

Definition exec (bytes : list byte) : outcome :=
  run body bytes init.

Definition Decoder (bytes : list byte) (port : option Z) : result :=
  if negb (port_accepted port) then Null
  else finish (exec bytes).

End AM100_node_red.

(** ** EM500-SMT.js

    The file defines [readUInt16LE] and [readInt16LE] only: [readVersion]
    and [readHexBytes] are called but not defined, so evaluating either
    call throws a ReferenceError (before its argument is evaluated). *)

Module EM500_SMT.

Definition system (bytes : list byte) (channel_type : option Z) : M unit :=
  (* FORMAT_VERSION *)
  (if seq channel_type 0x01 then
     b ← next bytes;
     assign "FormatVersion" (of_elem b)
   (* HARDWARE_VERSION *)
   else if seq channel_type 0x09 then
     call_undefined "readVersion"
   (* SOFTWARE_VERSION *)
   else if seq channel_type 0x0A then
     call_undefined "readVersion"
   else skip);;
  (* RESTART *)
  (if seq channel_type 0x0B then
     assign "restart" (VNum (Int 1));;
     advance 1
   else skip);;
  (* POWER OFF *)
  if seq channel_type 0x0C then
    assign "shutdown" (VNum (Int 1));;
    advance 1
  (* CLASS *)
  else if seq channel_type 0x0F then
    b ← next bytes;
    assign "Class" (of_elem b)
  (* SERIAL_NUMBER *)
  else if seq channel_type 0x16 then
    call_undefined "readHexBytes"
  else
    assign "Error" (VBool true);;
    break.

Definition body (bytes : list byte) : M unit :=
  i ← get_i;
  (* be robust *)
  if len bytes - 2 <? i then
    (* out of data. *)
    assign "Error" (VBool true);;
    break
  else
  channel_id ← next bytes;
  channel_type ← next bytes;
  (* BATTERY *)
  if seq channel_id 0x01 && seq channel_type 0x75 then
    b ← peek bytes;
    assign "battery" (of_elem b);;
    advance 1
  (* TEMPERATURE *)
  else if seq channel_id 0x03 && seq channel_type 0x67 then
    sl ← slice_at bytes 0 2;
    assign "temperature" (VNum (js_div (readInt16LE sl) (Int 10)));;
    advance 2
  (* MOISTURE *)
  else if seq channel_id 0x04 && seq channel_type 0x68 then
    b ← peek bytes;
    assign "humidity" (VNum (js_div (ToNumber b) (Int 2)));;
    advance 1
  (* Electrical Conductivity *)
  else if seq channel_id 0x05 && seq channel_type 0x7f then
    sl ← slice_at bytes 0 2;
    assign "conductivity" (VNum (readInt16LE sl));;
    advance 2
  (* SYSTEM *)
  else if seq channel_id 0xFF then
    system bytes channel_type
  else
    assign "error" (VBool true);;
    break.

(** [var decoded = {}; decoded.Error = false; i = 0] *)
Definition init : state := start (<["Error" := VBool false]> ∅).

Definition exec (bytes : list byte) : outcome :=
  run body bytes init.

Definition Decoder (bytes : list byte) (port : option Z) : result :=
  if negb (port_accepted port) then Null
  else finish (exec bytes).

End EM500_SMT.

(** ** The EM500-LGT decoder (light sensor)

    No port test, no error field: [decoded] starts empty and an unmatched
    record only leaves the loop. *)

Module EM500_LGT.

Definition body (bytes : list byte) : M unit :=
  channel_id ← next bytes;
  channel_type ← next bytes;
  (* BATTERY *)
  if seq channel_id 0x01 && seq channel_type 0x75 then
    b ← peek bytes;
    assign "battery" (of_elem b);;
    advance 1
  (* LIGHT *)
  else if seq channel_id 0x03 && seq channel_type 0x94 then
    sl ← slice_at bytes 0 4;
    assign "light" (VNum (readInt16LE sl));;
    advance 4
  else
    break.

(** [var decoded = {}; i = 0] *)
Definition init : state := start ∅.

Definition exec (bytes : list byte) : outcome :=
  run body bytes init.

Definition Decoder (bytes : list byte) (port : option Z) : result :=
  finish (exec bytes).

End EM500_LGT.

(** ** Channel tables

    The (channel-id, channel-type, data width) triples of each decoder, read
    off the branches of its loop body: the width is what the branch adds to
    [i] after the two header bytes. *)

Definition AM100_table : list (Z * Z * Z) :=
  [ (0x01, 0x75, 1); (0x03, 0x67, 2); (0x04, 0x68, 1); (0x05, 0x6A, 2);
    (0x06, 0x65, 6); (0x07, 0x7D, 2); (0x08, 0x7D, 2); (0x09, 0x73, 2);
    (0xFF, 0x0B, 1); (0xFF, 0x01, 1); (0xFF, 0x08, 6); (0xFF, 0x09, 2);
    (0xFF, 0x0A, 2); (0xFF, 0x0F, 1); (0xFF, 0x18, 2) ].

Definition EM500_SMT_table : list (Z * Z * Z) :=
  [ (0x01, 0x75, 1); (0x03, 0x67, 2); (0x04, 0x68, 1); (0x05, 0x7f, 2);
    (0xFF, 0x01, 1); (0xFF, 0x09, 2); (0xFF, 0x0A, 2); (0xFF, 0x0B, 1);
    (0xFF, 0x0C, 1); (0xFF, 0x0F, 1); (0xFF, 0x16, 6) ].

Definition EM500_LGT_table : list (Z * Z * Z) :=
  [ (0x01, 0x75, 1); (0x03, 0x94, 4) ].

(** The rows of the soil table that the soil decoder decodes without a
    flag or an exception (see [EM500_SMT_single_records] for the others). *)
Definition EM500_SMT_sound_rows : list (Z * Z * Z) :=
  [ (0x01, 0x75, 1); (0x03, 0x67, 2); (0x04, 0x68, 1); (0x05, 0x7f, 2);
    (0xFF, 0x0C, 1); (0xFF, 0x0F, 1) ].

(** Whether the header [(id, type)] is a row of the table. *)
Definition known (table : list (Z * Z * Z)) (id type : option Z) : bool :=
  existsb (fun row => seq id row.1.1 && seq type row.1.2) table.

(** The field an unmatched header sets in the ambience and soil decoders. *)
Definition flag_of (id : option Z) : string :=
  if seq id 0xFF then "Error" else "error".

(** The result carries an error flag. *)
Definition flagged (d : gmap string value) : Prop :=
  d !! "Error" = Some (VBool true) \/ d !! "error" = Some (VBool true).

(** The fields of a result other than the two error fields. *)
Definition data_fields (d : gmap string value) : gmap string value :=
  delete "Error" (delete "error" d).

(** ** Reachable loop states

    [reaches body n s0 s]: starting the loop at [s0], the loop condition is
    tested at [s] (after some number of completed iterations). *)
Inductive reaches (body : M unit) (n : Z) (s0 : state) : state -> Prop :=
  | reaches_start : reaches body n s0 s0
  | reaches_step s s' :
      reaches body n s0 s -> cursor s < n -> body s = Ok tt s' ->
      reaches body n s0 s'.

(** The state in which the ambience and soil decoders leave the loop on an
    unmatched header read at [s]: both header bytes consumed and logged,
    the field [key] set, nothing else changed. *)
Definition stopped (s : state) (key : string) : state :=
  mkState (cursor s + 2) (<[key := VBool true]> (decoded s))
          ((cursor s + 1) :: cursor s :: reads s).

(** ** The error fields of a result *)

(** [Error] still false and [error] still absent: the state of the two
    fields while the ambience and soil loops run. *)
Definition clean (s : state) : Prop :=
  decoded s !! "Error" = Some (VBool false) /\ decoded s !! "error" = None.

(** Error = false and error = true. *)
Definition only_error_set (d : gmap string value) : Prop :=
  d !! "Error" = Some (VBool false) /\ d !! "error" = Some (VBool true).

(** Error = true and no [error]. *)
Definition only_Error_set (d : gmap string value) : Prop :=
  d !! "Error" = Some (VBool true) /\ d !! "error" = None.

(** Neither field. *)
Definition no_error_field (d : gmap string value) : Prop :=
  d !! "Error" = None /\ d !! "error" = None.

(** ** The conversions as the specification words them *)

(** 16-bit little-endian, two's complement: low byte first, values from
    0x8000 on are negative. *)
Definition uint16_le (lo hi : byte) : Z := byte_val lo + 256 * byte_val hi.

Definition int16_le (lo hi : byte) : Z :=
  let u := uint16_le lo hi in
  if 0x8000 <=? u then u - 0x10000 else u.

(** One packed-BCD byte: 0 unless the low nibble is at most 9 and the value
    is below 0xA0. *)
Definition bcd (b : byte) : Z :=
  let v := byte_val b in
  if (9 <? v mod 16) || (0xA0 <=? v) then 0 else 10 * (v / 16) + v mod 16.

(** major + minor / 100 in binary64. *)
Definition version (major minor : byte) : float :=
  PrimFloat.add (Z2F (bcd major)) (PrimFloat.div (Z2F (bcd minor)) (Z2F 100)).

(** Two lowercase hexadecimal digits. *)
Definition hex_digit (d : Z) : ascii :=
  match String.get (Z.to_nat d) "0123456789abcdef" with
  | Some c => c
  | None => "?"%char
  end.

Definition hex2 (b : byte) : string :=
  String (hex_digit (byte_val b / 16)) (String (hex_digit (byte_val b mod 16)) EmptyString).

(** Whether the signed and the unsigned reading of the raw value [u],
    divided by 10, have opposite signs (checked over the upper half of the
    16-bit range in [tenths_differ_all]). *)
Definition tenths_differ (u : Z) : bool :=
  PrimFloat.ltb (PrimFloat.div (Z2F (u - 0x10000)) (Z2F 10)) 0 &&
  negb (PrimFloat.ltb (PrimFloat.div (Z2F u) (Z2F 10)) 0).

(** [P] on every integer whose binary writing is that of [prefix] followed
    by [n] more bits. *)
Fixpoint all_suffixes (n : nat) (prefix : Z) (P : Z -> bool) : bool :=
  match n with
  | O => P prefix
  | S n' => all_suffixes n' (2 * prefix) P && all_suffixes n' (2 * prefix + 1) P
  end.

(** The byte with value [z], for [0 <= z < 256]. *)
Definition byte_of (z : Z) : byte :=
  match Byte.of_N (Z.to_N z) with
  | Some b => b
  | None => x00
  end.

#[local] Set Warnings "-inexact-float".

(** ** Runs over a payload and over its tail

    [shifted k s1 s2]: the two states hold the same object and the loop
    index of the first is that of the second plus [k]. *)
Definition shifted (k : Z) (s1 s2 : state) : Prop :=
  cursor s1 = cursor s2 + k /\ decoded s1 = decoded s2.

(** Two statements that take shifted states to shifted states, with the
    same value, the same [break] or the same exception. *)
Definition sim {A : Type} (k : Z) (m1 m2 : M A) : Prop :=
  forall s1 s2, shifted k s1 s2 -> 0 <= cursor s2 ->
  match m1 s1, m2 s2 with
  | Ok a s1', Ok b s2' => a = b /\ shifted k s1' s2' /\ 0 <= cursor s2'
  | Brk s1', Brk s2' => shifted k s1' s2'
  | Err e1, Err e2 => e1 = e2
  | _, _ => False
  end.

(** Two runs that end with the same object or the same exception. *)
Definition same_result (o1 o2 : outcome) : Prop :=
  match o1, o2 with
  | Done s1, Done s2 => decoded s1 = decoded s2
  | Raised e1, Raised e2 => e1 = e2
  | OutOfFuel, OutOfFuel => True
  | _, _ => False
  end.

(** The three states of the two error fields. *)
Definition no_flag_set (d : gmap string value) : Prop :=
  d !! "Error" = Some (VBool false) /\ d !! "error" = None.

(** The header at [t] is 0xFF with a type whose branch calls a helper that
    EM500-SMT.js does not define. *)
Definition calls_missing_helper (bytes : list byte) (t : state) : bool :=
  seq (elem bytes (cursor t)) 0xFF &&
  (seq (elem bytes (cursor t + 1)) 0x09 || seq (elem bytes (cursor t + 1)) 0x0A ||
   seq (elem bytes (cursor t + 1)) 0x16).

(** The record at [t] is one of the four that the two ambience decoders
    read with different signedness, and its raw value is 0x8000 or more. *)
Definition diverging_record (bytes : list byte) (t : state) : Prop :=
  let id := elem bytes (cursor t) in
  let type := elem bytes (cursor t + 1) in
  (seq id 0x05 && seq type 0x6A) || (seq id 0x06 && seq type 0x65) ||
  (seq id 0x08 && seq type 0x7D) || (seq id 0x09 && seq type 0x73) = true /\
  exists u, readUInt16LE (slice bytes (cursor t + 2) (cursor t + 4)) = Int u /\ 0x8000 <= u.

(** What [readUInt16LE] makes of a byte list, in arithmetic: a missing byte
    counts as 0, bytes after the second are not looked at. *)
Definition le16 (bytes : list byte) : Z :=
  match bytes with
  | [] => 0
  | [lo] => byte_val lo
  | lo :: hi :: _ => byte_val lo + 256 * byte_val hi
  end.

(** The seven flags as bits 0..6 of one byte. *)
Definition sensor_bits (b : byte) : EnabledSensors :=
  {| es_temperature := Z.testbit (byte_val b) 0;
     es_humidity := Z.testbit (byte_val b) 1;
     es_activity := Z.testbit (byte_val b) 2;
     es_illumination := Z.testbit (byte_val b) 3;
     es_co2 := Z.testbit (byte_val b) 4;
     es_tvoc := Z.testbit (byte_val b) 5;
     es_pressure := Z.testbit (byte_val b) 6 |}.

(** The integer nearest to a finite float (halves away from zero). *)
Definition nearest (f : float) : Z :=
  truncF (if PrimFloat.ltb f 0 then PrimFloat.sub f 0.5 else PrimFloat.add f 0.5).

(** Whether the raw value [u - 0x8000] is recovered from its quotient by 10
    (checked over the 16-bit range in [tenths_recovered_all]). *)
Definition tenths_recovered (u : Z) : bool :=
  let s := u - 0x8000 in
  nearest (PrimFloat.mul (PrimFloat.div (Z2F s) (Z2F 10)) (Z2F 10)) =? s.

(** Whether the byte value [b] is recovered from its half. *)
Definition halves_recovered (b : Z) : bool :=
  nearest (PrimFloat.mul (PrimFloat.div (Z2F b) (Z2F 2)) (Z2F 2)) =? b.

(** ** The Node-RED functions (AM100-node-red.js, EMT500-SMT-node-red.js)

    Each file wraps its [Decoder] in a Node-RED function body that picks the
    raw payload out of [msg], decodes it and adds derived quantities to the
    result. *)

(** [Math.floor] on binary64. *)
Definition Math_floor (x : float) : float :=
  match Prim2SF x with
  | S754_finite s m e =>
      if 0 <=? e then x
      else
        let q := Z.pos m / 2 ^ (- e) in
        if s then Z2F (- (if Z.pos m mod 2 ^ (- e) =? 0 then q else q + 1))
        else Z2F q
  | _ => x
  end.

Section NodeRED.

(** [Math.log] and [Math.sqrt] are left to the implementation by the
    language; the functions below take them as given. *)
Variable Math_log : float -> float.
Variable Math_sqrt : float -> float.

Local Open Scope float_scope.

Definition dewpoint (t rh : float) : float :=
  let c1 := 243.04 in
  let c2 := 17.625 in
  let h := rh / 100 in
  let h := if h <=? 0.01 then 0.01 else if 1.0 <? h then 1.0 else h in
  let lnh := Math_log h in
  let tpc1 := t + c1 in
  let txc2 := t * c2 in
  let txc2_tpc1 := txc2 / tpc1 in
  let tdew := c1 * (lnh + txc2_tpc1) / (c2 - lnh - txc2_tpc1) in
  tdew.

(** [None] is [null]. *)
Definition CalculateHeatIndex (t rh : float) : option float :=
  let tRounded := Math_floor (t + 0.5) in
  if (tRounded <? 76) || (126 <? tRounded) then None
  else if (rh <? 0) || (100 <? rh) then None
  else
    let tHeatEasy := 0.5 * (t + 61.0 + ((t - 68.0) * 1.2) + (rh * 0.094)) in
    if (tHeatEasy + t) <? 160.0 then Some tHeatEasy
    else
      let t2 := t * t in
      let rh2 := rh * rh in
      let tResult :=
        -42.379 +
        (2.04901523 * t) +
        (10.14333127 * rh) +
        (-0.22475541 * t * rh) +
        (-0.00683783 * t2) +
        (-0.05481717 * rh2) +
        (0.00122874 * t2 * rh) +
        (0.00085282 * t * rh2) +
        (-0.00000199 * t2 * rh2) in
      let tAdjust :=
        if (rh <? 13.0) && (80.0 <=? t) && (t <=? 112.0) then
          - ((13.0 - rh) / 4.0) * Math_sqrt ((17.0 - abs (t - 95.0)) / 17.0)
        else if (85.0 <? rh) && (80.0 <=? t) && (t <=? 87.0) then
          ((rh - 85.0) / 10.0) * ((87.0 - t) / 5.0)
        else 0 in
      let tResult := tResult + tAdjust in
      if 183.5 <=? tResult then None else Some tResult.

Definition CalculateHeatIndexCelsius (t rh : float) : option float :=
  match CalculateHeatIndex t rh with
  | Some result => Some ((result - 32) * 5 / 9)
  | None => None
  end.

(** A property of the message or of [result]: a value of the decoder, or
    [null]. *)
Inductive jsval : Type :=
  | Val (v : value)
  | JNull.

(** [msg] as the function body uses it: [payload_raw] may be absent. *)
Record msg : Type := mkMsg {
  payload_raw : option (list byte);
  payload : list byte;
  port : option Z
}.

(** [msg.local] *)
Record local : Type := mkLocal {
  nodeType : string;
  platformType : string;
  radioType : string;
  applicationName : string
}.

(** The message returned: [msg] with [payload] overwritten and [local] set. *)
Record sent : Type := mkSent {
  sent_payload_raw : option (list byte);
  sent_port : option Z;
  sent_payload : gmap string jsval;
  sent_local : local
}.

Inductive node_exn : Type :=
  | TypeError
  | Uncaught (e : exn).

Inductive node_result : Type :=
  | Sends (m : sent)
  | Throws (e : node_exn)
  | Unfinished.

(** ["key" in result] *)
Definition has_key (key : string) (d : gmap string value) : bool :=
  bool_decide (is_Some (d !! key)).

(** [result.key] used as a number.  The decoders store only numbers under
    [temperature] and [humidity] ([weather_fields_are_numbers]). *)
Definition number_at (key : string) (d : gmap string value) : float :=
  match d !! key with
  | Some (VNum n) => toF n
  | _ => PrimFloat.nan
  end.

Definition of_null (r : option float) : jsval :=
  match r with
  | Some f => Val (VNum (Flt f))
  | None => JNull
  end.

(** The statements shared by the two function bodies: [b] is picked,
    decoded by [Decoder], and [derive] adds the derived fields. *)
Definition node_body (Decoder : list byte -> option Z -> result)
    (derive : gmap string value -> gmap string jsval -> gmap string jsval)
    (info : local) (m : msg) : node_result :=
  let b := match payload_raw m with
           | Some raw => raw
           | None => payload m
           end in
  match Decoder b (port m) with
  | Returned d =>
      let result := Val <$> d in
      let result :=
        if has_key "temperature" d && has_key "humidity" d
        then derive d result else result in
      Sends (mkSent (payload_raw m) (port m) result info)
  | Null => Throws TypeError
  | Thrown e => Throws (Uncaught e)
  | NoFuel => Unfinished
  end.

Definition AM100_node : msg -> node_result :=
  node_body AM100_node_red.Decoder
    (fun d result =>
       let t := number_at "temperature" d in
       let rh := number_at "humidity" d in
       <["tHeatIndexC" := of_null (CalculateHeatIndexCelsius t rh)]>
         (<["tDewC" := Val (VNum (Flt (dewpoint t rh)))]> result))
    (mkLocal "Ursalink AM102" "Urasalink AM100" "Ursalink" "Ambience Monitor").

Definition EM500_SMT_node : msg -> node_result :=
  node_body EM500_SMT.Decoder
    (fun d result =>
       let t := number_at "temperature" d in
       let rh := number_at "humidity" d in
       <["tDewC" := Val (VNum (Flt (dewpoint t rh)))]> result)
    (mkLocal "Ursalink EM500-SMT" "Urasalink EM500" "Ursalink" "Soil Monitor").

End NodeRED.

(** Whether the temperature [(u - 0x8000) / 10] is rejected by the range
    test of [CalculateHeatIndex] when its raw value lies outside 755..1264
    (checked over the 16-bit range in [heat_index_range_all]). *)
Definition outside_heat_index_range (u : Z) : bool :=
  let s := u - 0x8000 in
  let tRounded := Math_floor (PrimFloat.add (PrimFloat.div (Z2F s) (Z2F 10)) 0.5) in
  (755 <=? s) && (s <=? 1264) ||
  PrimFloat.ltb tRounded 76 || PrimFloat.ltb 126 tRounded.

(** What the function bodies rely on in a decoded object: [temperature] is
    a signed 16-bit value over ten, [humidity] is a number, and the derived
    keys are not used by the decoders. *)
Definition weather_fields (d : gmap string value) : Prop :=
  (forall v, d !! "temperature" = Some v ->
     exists s, - 0x8000 <= s < 0x8000 /\ v = VNum (js_div (Int s) (Int 10))) /\
  (forall v, d !! "humidity" = Some v -> exists n, v = VNum n) /\
  d !! "tDewC" = None /\ d !! "tHeatIndexC" = None.

(** Every index at which [bytes] was read lies in [0, i). *)
Definition reads_confined (s : state) : Prop :=
  0 <= cursor s /\ Forall (fun k => 0 <= k < cursor s) (reads s).

(** ** A record met by the loop

    [stores body record key v]: at every loop state whose index stands at
    the first byte of [record], wherever in the payload that is and whatever
    has been decoded before, the iteration completes, moves the index just
    past the record and stores [v] under [key], leaving the other fields as
    they were. *)
Definition stores (body : list byte -> M unit) (record : list byte)
    (key : string) (v : value) : Prop :=
  forall pre rest s, cursor s = len pre ->
    exists s', body (pre ++ record ++ rest) s = Ok tt s' /\
               cursor s' = cursor s + len record /\
               decoded s' = <[key := v]> (decoded s).

(** [decodes_after exec Decoder record key v]: when the decoder consumes
    [pre] exactly and without an error flag, it decodes [pre] followed by
    [record] to what it decodes [pre] to, with [v] stored under [key]. *)
Definition decodes_after (exec : list byte -> outcome)
    (Decoder : list byte -> option Z -> result) (record : list byte)
    (key : string) (v : value) : Prop :=
  forall pre s, exec pre = Done s -> cursor s = len pre -> ~ flagged (decoded s) ->
    Decoder (pre ++ record) None = Returned (<[key := v]> (decoded s)).

(** [diverge_after record raw]: after a prefix that the two ambience
    decoders consume exactly, without an error flag and with the same
    result, their results for the prefix followed by [record] differ exactly
    when [raw] is 0x8000 or more. *)
Definition diverge_after (record : list byte) (raw : Z) : Prop :=
  forall pre s1 s2,
    AM100.exec pre = Done s1 -> AM100_node_red.exec pre = Done s2 ->
    cursor s1 = len pre -> cursor s2 = len pre ->
    ~ flagged (decoded s1) -> decoded s1 = decoded s2 ->
    (AM100.Decoder (pre ++ record) None <> AM100_node_red.Decoder (pre ++ record) None
     <-> 0x8000 <= raw).

(** [reads_within t t']: going from [t] to [t'], [bytes] was read only at
    indices from the loop index of [t] up to, and not including, that of
    [t']. *)
Definition reads_within (t t' : state) : Prop :=
  exists new, reads t' = new ++ reads t /\
              Forall (fun k => cursor t <= k < cursor t') new.

(** * Properties *)

(** ** The loop: fuel, reachable states, how a run ends *)

Section Loop.

Variable body : M unit.
Variable n : Z.

(** A completed iteration has moved the cursor forward. *)
Hypothesis body_progress : forall s s', body s = Ok tt s' -> cursor s < cursor s'.

Lemma loop_enough_fuel fuel s :
  n - cursor s <= Z.of_nat fuel -> loop body n fuel s <> OutOfFuel.
Proof.
  revert s. induction fuel as [|fuel IH]; intros s Hfuel; simpl.
  - destruct (cursor s <? n) eqn:Hlt; [apply Z.ltb_lt in Hlt; lia | discriminate].
  - destruct (cursor s <? n) eqn:Hlt; [|discriminate].
    destruct (body s) as [[] s'| s' | e] eqn:Hb; try discriminate.
    apply IH. apply body_progress in Hb. lia.
Qed.

Lemma loop_fuel_irrelevant fuel1 fuel2 s :
  n - cursor s <= Z.of_nat fuel1 -> n - cursor s <= Z.of_nat fuel2 ->
  loop body n fuel1 s = loop body n fuel2 s.
Proof.
  revert fuel2 s. induction fuel1 as [|fuel1 IH]; intros fuel2 s H1 H2; simpl.
  - destruct fuel2; simpl; destruct (cursor s <? n) eqn:Hlt; try reflexivity;
      apply Z.ltb_lt in Hlt; lia.
  - destruct fuel2 as [|fuel2]; simpl; destruct (cursor s <? n) eqn:Hlt; try reflexivity.
    + apply Z.ltb_lt in Hlt; lia.
    + destruct (body s) as [[] s'| s' | e] eqn:Hb; try reflexivity.
      apply body_progress in Hb. apply IH; lia.
Qed.

Lemma reaches_cursor s0 s : reaches body n s0 s -> cursor s0 <= cursor s.
Proof.
  induction 1 as [|s s' _ IH _ Hb]; [lia|]. apply body_progress in Hb. lia.
Qed.

Lemma loop_reaches fuel s0 s :
  reaches body n s0 s -> n - cursor s0 <= Z.of_nat fuel ->
  loop body n fuel s0 = loop body n fuel s.
Proof.
  induction 1 as [|s s' Hr IH Hlt Hb]; intros Hfuel; [reflexivity|].
  rewrite IH by assumption.
  pose proof (reaches_cursor _ _ Hr) as Hc.
  destruct fuel as [|fuel]; [lia|].
  apply Z.ltb_lt in Hlt as Hlt'.
  transitivity (loop body n fuel s').
  - simpl. now rewrite Hlt', Hb.
  - apply loop_fuel_irrelevant; apply body_progress in Hb; lia.
Qed.

(** A reachable state at which the body breaks ends the run there. *)
Lemma loop_reaches_break fuel s0 s s' :
  reaches body n s0 s -> n - cursor s0 <= Z.of_nat fuel ->
  cursor s < n -> body s = Brk s' ->
  loop body n fuel s0 = Done s'.
Proof.
  intros Hr Hfuel Hlt Hb. rewrite (loop_reaches _ _ _ Hr Hfuel).
  pose proof (reaches_cursor _ _ Hr) as Hc.
  destruct fuel as [|fuel]; [lia|]. simpl.
  apply Z.ltb_lt in Hlt. now rewrite Hlt, Hb.
Qed.

(** A reachable state at or past the end is the final state. *)
Lemma loop_reaches_end fuel s0 s :
  reaches body n s0 s -> n - cursor s0 <= Z.of_nat fuel ->
  n <= cursor s ->
  loop body n fuel s0 = Done s.
Proof.
  intros Hr Hfuel Hge. rewrite (loop_reaches _ _ _ Hr Hfuel).
  destruct fuel; simpl; destruct (cursor s <? n) eqn:Hlt; try reflexivity;
    apply Z.ltb_lt in Hlt; lia.
Qed.

(** A property kept by every completed iteration holds at every reachable
    state. *)
Lemma reaches_invariant (P : state -> Prop) s0 s :
  (forall s s', cursor s < n -> body s = Ok tt s' -> P s -> P s') ->
  P s0 -> reaches body n s0 s -> P s.
Proof.
  intros Hstep H0. induction 1; eauto.
Qed.

End Loop.

(** The same for [run], which starts at cursor 0 with [length bytes] units
    of fuel. *)
Section Run.

Variable body : list byte -> M unit.
Hypothesis body_progress :
  forall bytes s s', body bytes s = Ok tt s' -> cursor s < cursor s'.

Lemma run_fuel bytes d : len bytes - cursor (start d) <= Z.of_nat (length bytes).
Proof. unfold len. simpl. lia. Qed.

Lemma run_not_out_of_fuel bytes d : run body bytes (start d) <> OutOfFuel.
Proof. apply loop_enough_fuel; [apply body_progress | apply run_fuel]. Qed.

Lemma run_break bytes d s s' :
  reaches (body bytes) (len bytes) (start d) s ->
  cursor s < len bytes -> body bytes s = Brk s' ->
  run body bytes (start d) = Done s'.
Proof.
  intros Hr Hlt Hb.
  eapply loop_reaches_break; eauto using run_fuel.
Qed.

Lemma run_end bytes d s :
  reaches (body bytes) (len bytes) (start d) s ->
  len bytes <= cursor s ->
  run body bytes (start d) = Done s.
Proof.
  intros Hr Hge.
  eapply loop_reaches_end; eauto using run_fuel.
Qed.

End Run.


(** ** One iteration of each decoder *)

Ltac unfold_body :=
  cbv [AM100.body AM100_node_red.body AM100.body_with AM100.system
       EM500_SMT.body EM500_SMT.system EM500_LGT.body
       next peek get_i advance index slice_at assign break call_undefined skip
       mbind M_bind mret M_ret]; simpl.

Ltac split_if :=
  match goal with
  | |- context [if ?c then _ else _] => destruct c eqn:?
  end.

(** Every branch of a body that completes has advanced [i] past the header. *)
Ltac solve_progress :=
  unfold_body; repeat split_if; intros H; inversion H; subst; simpl; lia.

Lemma AM100_progress f1 f2 f3 f4 bytes s s' :
  AM100.body_with f1 f2 f3 f4 bytes s = Ok tt s' -> cursor s < cursor s'.
Proof. solve_progress. Qed.

Lemma EM500_SMT_progress bytes s s' :
  EM500_SMT.body bytes s = Ok tt s' -> cursor s < cursor s'.
Proof. solve_progress. Qed.

Lemma EM500_LGT_progress bytes s s' :
  EM500_LGT.body bytes s = Ok tt s' -> cursor s < cursor s'.
Proof. solve_progress. Qed.

(** An unmatched header: the flag is set and the loop is left. *)
Ltac solve_unknown :=
  unfold known, flag_of, stopped; simpl; unfold_body;
  repeat (split_if; simpl; try discriminate);
  intros _; f_equal; f_equal; lia.

Lemma AM100_unknown f1 f2 f3 f4 bytes s :
  known AM100_table (elem bytes (cursor s)) (elem bytes (cursor s + 1)) = false ->
  AM100.body_with f1 f2 f3 f4 bytes s =
  Brk (stopped s (flag_of (elem bytes (cursor s)))).
Proof. solve_unknown. Qed.

Lemma EM500_SMT_unknown bytes s :
  cursor s + 2 <= len bytes ->
  known EM500_SMT_table (elem bytes (cursor s)) (elem bytes (cursor s + 1)) = false ->
  EM500_SMT.body bytes s =
  Brk (stopped s (flag_of (elem bytes (cursor s)))).
Proof.
  intros Hlen. unfold EM500_SMT.body at 1. cbv [get_i mbind M_bind].
  destruct (len bytes - 2 <? cursor s) eqn:Ht; [apply Z.ltb_lt in Ht; lia|].
  solve_unknown.
Qed.

Lemma EM500_LGT_unknown bytes s :
  known EM500_LGT_table (elem bytes (cursor s)) (elem bytes (cursor s + 1)) = false ->
  EM500_LGT.body bytes s =
  Brk (mkState (cursor s + 2) (decoded s) ((cursor s + 1) :: cursor s :: reads s)).
Proof. solve_unknown. Qed.

(** The soil decoder's length test: fewer than two bytes left. *)
Lemma EM500_SMT_truncated bytes s :
  len bytes - 2 < cursor s ->
  EM500_SMT.body bytes s =
  Brk (mkState (cursor s) (<["Error" := VBool true]> (decoded s)) (reads s)).
Proof.
  intros H. unfold_body. apply Z.ltb_lt in H. now rewrite H.
Qed.

(** A completed iteration leaves both error fields as they were. *)
Ltac solve_keeps_flags :=
  unfold_body; repeat split_if; intros H; inversion H; subst; simpl;
  rewrite ?lookup_insert_ne by done; done.

Lemma AM100_keeps_flags f1 f2 f3 f4 bytes s s' :
  AM100.body_with f1 f2 f3 f4 bytes s = Ok tt s' ->
  decoded s' !! "Error" = decoded s !! "Error" /\
  decoded s' !! "error" = decoded s !! "error".
Proof. solve_keeps_flags. Qed.

Lemma EM500_SMT_keeps_flags bytes s s' :
  EM500_SMT.body bytes s = Ok tt s' ->
  decoded s' !! "Error" = decoded s !! "Error" /\
  decoded s' !! "error" = decoded s !! "error".
Proof. solve_keeps_flags. Qed.

(** The light decoder never touches an error field and never throws. *)
Lemma EM500_LGT_no_flags bytes s :
  match EM500_LGT.body bytes s with
  | Ok _ s' | Brk s' =>
      decoded s' !! "Error" = decoded s !! "Error" /\
      decoded s' !! "error" = decoded s !! "error"
  | Err _ => False
  end.
Proof.
  unfold_body. repeat split_if; simpl; rewrite ?lookup_insert_ne by done; done.
Qed.

(** ** The number readers *)

Lemma byte_val_range b : 0 <= byte_val b < 256.
Proof.
  unfold byte_val. pose proof (Byte.to_N_bounded b). lia.
Qed.

Lemma wrap32_small z : - 2 ^ 31 <= z < 2 ^ 31 -> wrap32 z = z.
Proof.
  intros H. unfold wrap32.
  destruct (Z.leb_spec (2 ^ 31) (z mod 2 ^ 32)) as [Hm|Hm];
    Z.div_mod_to_equations; lia.
Qed.

Lemma land_low_bits z k : 0 <= k -> 0 <= z < 2 ^ k -> Z.land z (2 ^ k - 1) = z.
Proof.
  intros Hk Hz.
  replace (2 ^ k - 1) with (Z.ones k) by (rewrite Z.ones_equiv; lia).
  rewrite Z.land_ones by assumption. apply Z.mod_small. assumption.
Qed.

(** Two bytes, low byte first. *)
Lemma readUInt16LE_pair lo hi :
  readUInt16LE [lo; hi] = Int (uint16_le lo hi).
Proof.
  pose proof (byte_val_range lo). pose proof (byte_val_range hi).
  unfold readUInt16LE, uint16_le, js_shl, js_add, js_and, ToInt32. cbn [elem ToNumber].
  change (elem [lo; hi] 1) with (Some (byte_val hi)).
  change (elem [lo; hi] 0) with (Some (byte_val lo)).
  cbn [ToNumber]. change (Z.land 8 31) with 8.
  rewrite Z.shiftl_mul_pow2 by lia.
  rewrite (wrap32_small (byte_val hi)) by lia.
  rewrite (wrap32_small (byte_val hi * 2 ^ 8)) by lia.
  rewrite (wrap32_small (byte_val hi * 2 ^ 8 + byte_val lo)) by lia.
  f_equal. change (wrap32 65535) with (2 ^ 16 - 1).
  rewrite land_low_bits by lia. lia.
Qed.

Lemma uint16_le_range lo hi : 0 <= uint16_le lo hi < 0x10000.
Proof.
  pose proof (byte_val_range lo). pose proof (byte_val_range hi).
  unfold uint16_le. lia.
Qed.

Lemma readInt16LE_pair lo hi :
  readInt16LE [lo; hi] = Int (int16_le lo hi).
Proof.
  unfold readInt16LE, int16_le. rewrite readUInt16LE_pair. simpl.
  destruct (Z.ltb_spec 32767 (uint16_le lo hi)), (Z.leb_spec 32768 (uint16_le lo hi));
    try lia; reflexivity.
Qed.

(** Whatever the slice holds, [readUInt16LE] yields an integer in 16 bits,
    and [readInt16LE] is that integer read as two's complement. *)
Lemma readUInt16LE_int sl : exists u, readUInt16LE sl = Int u /\ 0 <= u < 0x10000.
Proof.
  unfold readUInt16LE, js_and. eexists; split; [reflexivity|].
  change (ToInt32 (Int 65535)) with (Z.ones 16).
  rewrite Z.land_ones by lia. apply Z.mod_pos_bound. lia.
Qed.

Lemma readInt16LE_of_unsigned sl u :
  readUInt16LE sl = Int u ->
  readInt16LE sl = Int (if 0x8000 <=? u then u - 0x10000 else u).
Proof.
  intros Hu. unfold readInt16LE. rewrite Hu. simpl.
  destruct (Z.ltb_spec 32767 u), (Z.leb_spec 32768 u); try lia; reflexivity.
Qed.

(** Two bytes, high byte first. *)
Lemma readUInt16BE_pair b0 b1 :
  readUInt16BE [b0; b1] = Int (256 * byte_val b0 + byte_val b1).
Proof.
  pose proof (byte_val_range b0). pose proof (byte_val_range b1).
  unfold readUInt16BE, js_shl, js_add, ToInt32.
  change (elem [b0; b1] 1) with (Some (byte_val b1)).
  change (elem [b0; b1] 0) with (Some (byte_val b0)).
  cbn [ToNumber]. change (Z.land 8 31) with 8.
  rewrite Z.shiftl_mul_pow2 by lia.
  rewrite (wrap32_small (byte_val b0)) by lia.
  rewrite (wrap32_small (byte_val b0 * 2 ^ 8)) by lia.
  f_equal. lia.
Qed.

Lemma bcd2ToDecimal_byte b : bcd2ToDecimal (Int (byte_val b)) = Int (bcd b).
Proof.
  pose proof (byte_val_range b) as Hb.
  unfold bcd2ToDecimal, bcd, js_and, js_sar, js_gt, js_ge, js_add, js_mul, ToInt32.
  rewrite (wrap32_small (byte_val b)) by lia.
  change (wrap32 15) with (Z.ones 4). change (Z.land 4 31) with 4.
  rewrite Z.land_ones, Z.shiftr_div_pow2 by lia.
  change (2 ^ 4) with 16.
  destruct ((9 <? byte_val b mod 16) || (160 <=? byte_val b)); [reflexivity|].
  f_equal. lia.
Qed.

Lemma readVersion_pair major minor :
  readVersion [major; minor] = Flt (version major minor).
Proof.
  pose proof (byte_val_range major) as H0. pose proof (byte_val_range minor) as H1.
  unfold readVersion, bcd22ToVersion. rewrite readUInt16BE_pair.
  assert (Hhi : js_sar (Int (256 * byte_val major + byte_val minor)) 8 = Int (byte_val major)).
  { unfold js_sar, ToInt32. rewrite wrap32_small by lia.
    change (Z.land 8 31) with 8. rewrite Z.shiftr_div_pow2 by lia.
    f_equal. change (2 ^ 8) with 256. Z.div_mod_to_equations; lia. }
  assert (Hlo : js_and (Int (256 * byte_val major + byte_val minor)) (Int 255) = Int (byte_val minor)).
  { unfold js_and, ToInt32. rewrite wrap32_small by lia.
    change (wrap32 255) with (Z.ones 8). rewrite Z.land_ones by lia.
    f_equal. change (2 ^ 8) with 256. Z.div_mod_to_equations; lia. }
  rewrite Hhi, Hlo, !bcd2ToDecimal_byte. reflexivity.
Qed.

Lemma encodeHex_hex2 b : encodeHex b = hex2 b.
Proof. destruct b; reflexivity. Qed.

Lemma readHexBytes_six b0 b1 b2 b3 b4 b5 :
  readHexBytes [b0; b1; b2; b3; b4; b5] =
  hex2 b0 +:+ "-" +:+ hex2 b1 +:+ "-" +:+ hex2 b2 +:+ "-" +:+
  hex2 b3 +:+ "-" +:+ hex2 b4 +:+ "-" +:+ hex2 b5.
Proof.
  unfold readHexBytes. cbn [fold_left]. rewrite !encodeHex_hex2. reflexivity.
Qed.

Lemma all_suffixes_spec n prefix P u :
  all_suffixes n prefix P = true ->
  prefix * 2 ^ Z.of_nat n <= u < (prefix + 1) * 2 ^ Z.of_nat n ->
  P u = true.
Proof.
  revert prefix. induction n as [|n IH]; intros prefix Hall Hu.
  - simpl in *. replace u with prefix by lia. exact Hall.
  - simpl in Hall. apply andb_prop in Hall as [H0 H1].
    rewrite Nat2Z.inj_succ, Z.pow_succ_r in Hu by lia.
    destruct (Z_lt_le_dec u ((2 * prefix + 1) * 2 ^ Z.of_nat n)).
    + apply (IH (2 * prefix)); [exact H0 | lia].
    + apply (IH (2 * prefix + 1)); [exact H1 | lia].
Qed.

(** The 16-bit values from 0x8000 on are 1 followed by fifteen bits. *)
Lemma tenths_differ_all : all_suffixes 15 1 tenths_differ = true.
Proof. vm_compute. reflexivity. Qed.

Lemma tenths_signed_unsigned u :
  0x8000 <= u < 0x10000 ->
  PrimFloat.div (Z2F (u - 0x10000)) (Z2F 10) <> PrimFloat.div (Z2F u) (Z2F 10).
Proof.
  intros Hu Heq.
  pose proof (all_suffixes_spec 15 1 tenths_differ u tenths_differ_all) as Hd.
  change (2 ^ Z.of_nat 15) with 0x8000 in Hd. specialize (Hd ltac:(lia)).
  unfold tenths_differ in Hd. rewrite Heq in Hd.
  destruct (PrimFloat.ltb _ _); discriminate.
Qed.

(** ** Running a decoder on a payload of known shape *)

(** Evaluate a run whose control flow is determined (the header bytes are
    constants), leaving the values read from the data bytes and the
    insertions into [decoded] as they are. *)
Ltac eval_decoder :=
  lazy -[insert map_insert gmap_partial_alter empty gmap_empty
         String.eq_dec String.countable
         readInt16LE readUInt16LE readUInt16BE readVersion readHexBytes
         js_div js_and js_neq js_gt].

(** No decoder runs out of fuel. *)
Lemma finish_not_NoFuel o : o <> OutOfFuel -> finish o <> NoFuel.
Proof. destruct o; simpl; congruence. Qed.

Lemma Decoder_returns bytes port :
  AM100.Decoder bytes port <> NoFuel /\
  AM100_node_red.Decoder bytes port <> NoFuel /\
  EM500_SMT.Decoder bytes port <> NoFuel /\
  EM500_LGT.Decoder bytes port <> NoFuel.
Proof.
  unfold AM100.Decoder, AM100_node_red.Decoder, EM500_SMT.Decoder, EM500_LGT.Decoder.
  repeat apply conj; try (destruct (negb (port_accepted port)); [discriminate|]);
    apply finish_not_NoFuel, run_not_out_of_fuel; intros b s s'.
  - apply AM100_progress.
  - apply AM100_progress.
  - apply EM500_SMT_progress.
  - apply EM500_LGT_progress.
Qed.

(** *** The payloads of the claims *)

Lemma AM100_temperature_record f1 f2 f3 f4 lo hi :
  run (AM100.body_with f1 f2 f3 f4) [x03; x67; lo; hi] AM100.init =
  Done {| cursor := 4;
          decoded := <["temperature" := VNum (js_div (readInt16LE [lo; hi]) (Int 10))]>
                       (<["Error" := VBool false]> ∅);
          reads := [3; 2; 1; 0] |}.
Proof. eval_decoder. reflexivity. Qed.

Lemma EM500_SMT_temperature_record lo hi :
  EM500_SMT.exec [x03; x67; lo; hi] =
  Done {| cursor := 4;
          decoded := <["temperature" := VNum (js_div (readInt16LE [lo; hi]) (Int 10))]>
                       (<["Error" := VBool false]> ∅);
          reads := [3; 2; 1; 0] |}.
Proof. eval_decoder. reflexivity. Qed.

Lemma AM100_version_record f1 f2 f3 f4 b0 b1 :
  run (AM100.body_with f1 f2 f3 f4) [xff; x09; b0; b1] AM100.init =
  Done {| cursor := 4;
          decoded := <["HardwareVersion" := VNum (readVersion [b0; b1])]>
                       (<["Error" := VBool false]> ∅);
          reads := [3; 2; 1; 0] |} /\
  run (AM100.body_with f1 f2 f3 f4) [xff; x0a; b0; b1] AM100.init =
  Done {| cursor := 4;
          decoded := <["SoftwareVersion" := VNum (readVersion [b0; b1])]>
                       (<["Error" := VBool false]> ∅);
          reads := [3; 2; 1; 0] |}.
Proof. split; eval_decoder; reflexivity. Qed.

Lemma AM100_serial_record f1 f2 f3 f4 b0 b1 b2 b3 b4 b5 :
  run (AM100.body_with f1 f2 f3 f4) [xff; x08; b0; b1; b2; b3; b4; b5] AM100.init =
  Done {| cursor := 8;
          decoded := <["SerialNumber" := VStr (readHexBytes [b0; b1; b2; b3; b4; b5])]>
                       (<["Error" := VBool false]> ∅);
          reads := [7; 6; 5; 4; 3; 2; 1; 0] |}.
Proof. eval_decoder. reflexivity. Qed.

Lemma AM100_16bit_records f1 f2 f3 f4 lo hi :
  let one key v := Done {| cursor := 4;
                           decoded := <[key := VNum v]> (<["Error" := VBool false]> ∅);
                           reads := [3; 2; 1; 0] |} in
  run (AM100.body_with f1 f2 f3 f4) [x05; x6a; lo; hi] AM100.init =
    one "activity" (f1 [lo; hi]) /\
  (forall a b c d,
   run (AM100.body_with f1 f2 f3 f4) [x06; x65; lo; hi; a; b; c; d] AM100.init =
    Done {| cursor := 8;
            decoded := <["illumination" := VNum (f2 [lo; hi])]> (<["Error" := VBool false]> ∅);
            reads := [3; 2; 1; 0] |}) /\
  run (AM100.body_with f1 f2 f3 f4) [x08; x7d; lo; hi] AM100.init =
    one "tvoc" (f3 [lo; hi]) /\
  run (AM100.body_with f1 f2 f3 f4) [x09; x73; lo; hi] AM100.init =
    one "pressure" (js_div (f4 [lo; hi]) (Int 10)).
Proof. repeat split; intros; eval_decoder; reflexivity. Qed.

Lemma battery_clamp v :
  (if js_gt (Int (byte_val v)) (Int 100)
   then <["battery" := VNum (Int 100)]> (<["battery" := VNum (Int (byte_val v))]> (<["Error" := VBool false]> (∅ : gmap string value)))
   else <["battery" := VNum (Int (byte_val v))]> (<["Error" := VBool false]> ∅)) =
  <["battery" := VNum (Int (Z.min (byte_val v) 100))]> (<["Error" := VBool false]> ∅).
Proof.
  simpl. destruct (Z.ltb_spec 100 (byte_val v)).
  - rewrite insert_insert_eq. do 3 f_equal. lia.
  - do 3 f_equal. lia.
Qed.

Lemma AM100_battery_record f1 f2 f3 f4 v :
  run (AM100.body_with f1 f2 f3 f4) [x01; x75; v] AM100.init =
  Done {| cursor := 3;
          decoded := <["battery" := VNum (Int (Z.min (byte_val v) 100))]>
                       (<["Error" := VBool false]> ∅);
          reads := [2; 1; 0] |}.
Proof.
  rewrite <- battery_clamp. eval_decoder.
  match goal with |- context [js_gt ?a ?b] => destruct (js_gt a b) end; reflexivity.
Qed.

Lemma unclamped_battery_records v :
  EM500_SMT.exec [x01; x75; v] =
  Done {| cursor := 3;
          decoded := <["battery" := VNum (Int (byte_val v))]> (<["Error" := VBool false]> ∅);
          reads := [2; 1; 0] |} /\
  EM500_LGT.exec [x01; x75; v] =
  Done {| cursor := 3;
          decoded := <["battery" := VNum (Int (byte_val v))]> ∅;
          reads := [2; 1; 0] |}.
Proof. split; eval_decoder; reflexivity. Qed.

(** * Supporting lemmas for the claims *)

(** With an accepted port a decoder returns what its run leaves in
    [decoded]. *)
Ltac open_decoders :=
  unfold AM100.Decoder, AM100_node_red.Decoder, EM500_SMT.Decoder, EM500_LGT.Decoder,
         AM100.exec, AM100_node_red.exec, AM100.body, AM100_node_red.body;
  change AM100_node_red.init with AM100.init;
  cbn [port_accepted negb Z.eqb Pos.eqb].

#[local] Set Warnings "-inexact-float".

Lemma Returned_inj d1 d2 : Returned d1 = Returned d2 -> d1 = d2.
Proof. intros H. now injection H. Qed.

(** Results that store different values under one key are different. *)
Lemma Returned_insert_neq (k : string) (v1 v2 : value) (m1 m2 : gmap string value) :
  v1 <> v2 -> Returned (<[k := v1]> m1) <> Returned (<[k := v2]> m2).
Proof.
  intros Hne Heq. apply Returned_inj in Heq.
  apply (f_equal (fun d : gmap string value => d !! k)) in Heq.
  rewrite !lookup_insert_eq in Heq. congruence.
Qed.

(** The four records the two ambience decoders read differently: with the
    raw value [u], AM100.js stores it as two's complement and the Node-RED
    copy as it is. *)
Lemma signed_differs_iff lo hi :
  Int (int16_le lo hi) <> Int (uint16_le lo hi) <-> 0x8000 <= uint16_le lo hi.
Proof.
  unfold int16_le. destruct (Z.leb_spec 0x8000 (uint16_le lo hi)); split; try lia.
  - intros _ Heq. injection Heq. lia.
  - congruence.
Qed.

Lemma signed_tenths_differ_iff lo hi :
  js_div (Int (int16_le lo hi)) (Int 10) <> js_div (Int (uint16_le lo hi)) (Int 10) <->
  0x8000 <= uint16_le lo hi.
Proof.
  pose proof (uint16_le_range lo hi) as Hr.
  unfold int16_le, js_div. cbn [toF].
  destruct (Z.leb_spec 0x8000 (uint16_le lo hi)); split; try lia.
  - intros _ Heq. injection Heq. apply tenths_signed_unsigned. lia.
  - congruence.
Qed.

Lemma Returned_insert_neq_iff (k : string) (v1 v2 : value) (m : gmap string value) :
  Returned (<[k := v1]> m) <> Returned (<[k := v2]> m) <-> v1 <> v2.
Proof.
  split.
  - intros H Heq. apply H. now rewrite Heq.
  - apply Returned_insert_neq.
Qed.

Lemma VNum_neq_iff n1 n2 : VNum n1 <> VNum n2 <-> n1 <> n2.
Proof. split; congruence. Qed.

(** The two ambience bodies take the same step unless the header is one of
    the four above and the signed and unsigned readings of the data differ. *)
Lemma ambience_bodies_agree bytes s :
  let id := elem bytes (cursor s) in
  let type := elem bytes (cursor s + 1) in
  let data := slice bytes (cursor s + 2) (cursor s + 4) in
  (seq id 0x05 && seq type 0x6A) || (seq id 0x06 && seq type 0x65) ||
  (seq id 0x08 && seq type 0x7D) || (seq id 0x09 && seq type 0x73) = false \/
  readInt16LE data = readUInt16LE data ->
  AM100.body bytes s = AM100_node_red.body bytes s.
Proof.
  intros id type data. subst id type data.
  replace (cursor s + 2) with (cursor s + 1 + 1 + 0) by lia.
  replace (cursor s + 4) with (cursor s + 1 + 1 + 2) by lia.
  intros [H | H].
  - revert H. unfold_body.
    repeat (split_if; simpl; try discriminate); reflexivity.
  - unfold_body. repeat split_if; cbn [cursor decoded reads]; rewrite ?H; reflexivity.
Qed.

(** What the soil decoder does with each row of its table. *)
Lemma EM500_SMT_single_records :
  (forall b, exists s, EM500_SMT.exec [xff; x0b; b] = Done s /\
                       cursor s = 3 /\ decoded s !! "Error" = Some (VBool true)) /\
  (forall b, exists s, EM500_SMT.exec [xff; x01; b] = Done s /\
                       cursor s = 3 /\ decoded s !! "Error" = Some (VBool true)) /\
  (forall b0 b1, EM500_SMT.exec [xff; x09; b0; b1] = Raised (ReferenceError "readVersion")) /\
  (forall b0 b1, EM500_SMT.exec [xff; x0a; b0; b1] = Raised (ReferenceError "readVersion")) /\
  (forall b0 b1 b2 b3 b4 b5,
     EM500_SMT.exec [xff; x16; b0; b1; b2; b3; b4; b5] =
     Raised (ReferenceError "readHexBytes")).
Proof.
  repeat split; intros.
  1,2: eexists; split; [eval_decoder; reflexivity | split; [reflexivity|]];
       cbn [decoded]; apply lookup_insert_eq.
  all: eval_decoder; reflexivity.
Qed.

(** A list of known length, as its elements. *)
Ltac fix_length data H :=
  repeat (destruct data as [|? data]; cbn [length] in H; try lia).

(** One goal per row of a table. *)
Ltac table_rows H :=
  cbn [In AM100_table EM500_LGT_table EM500_SMT_sound_rows] in H;
  repeat (destruct H as [H|H]; [injection H as <- <- <-|]); [..|destruct H].

Ltac solve_lookups :=
  cbn [decoded cursor];
  rewrite ?lookup_insert_ne by done;
  rewrite ?lookup_insert_eq, ?lookup_empty; done.

(** On the ambience and light decoders a single record of the table is
    consumed exactly and no error field is set; on the soil decoder this
    holds for six of the eleven rows. *)
Lemma AM100_single_record f1 f2 f3 f4 id type width data :
  In (id, type, width) AM100_table ->
  Z.of_nat (length data) = width ->
  let bytes := byte_of id :: byte_of type :: data in
  exists s,
    run (AM100.body_with f1 f2 f3 f4) bytes AM100.init = Done s /\
    cursor s = 2 + width /\ cursor s = len bytes /\
    decoded s !! "Error" = Some (VBool false) /\ decoded s !! "error" = None.
Proof.
  intros Hrow Hlen bytes. subst bytes.
  table_rows Hrow; fix_length data Hlen.
  1: { rewrite (AM100_battery_record f1 f2 f3 f4 b : run _ [byte_of 1; byte_of 117; b] _ = _).
       eexists; split; [reflexivity|]. repeat split; solve_lookups. }
  all: eexists; (split; [eval_decoder; reflexivity|]); repeat split; solve_lookups.
Qed.

Lemma EM500_LGT_single_record id type width data :
  In (id, type, width) EM500_LGT_table ->
  Z.of_nat (length data) = width ->
  let bytes := byte_of id :: byte_of type :: data in
  exists s,
    EM500_LGT.exec bytes = Done s /\
    cursor s = 2 + width /\ cursor s = len bytes /\
    decoded s !! "Error" = None /\ decoded s !! "error" = None.
Proof.
  intros Hrow Hlen bytes. subst bytes.
  table_rows Hrow; fix_length data Hlen.
  all: eexists; (split; [eval_decoder; reflexivity|]); repeat split; solve_lookups.
Qed.

Lemma EM500_SMT_single_record_sound id type width data :
  In (id, type, width) EM500_SMT_sound_rows ->
  Z.of_nat (length data) = width ->
  let bytes := byte_of id :: byte_of type :: data in
  exists s,
    EM500_SMT.exec bytes = Done s /\
    cursor s = 2 + width /\ cursor s = len bytes /\
    decoded s !! "Error" = Some (VBool false) /\ decoded s !! "error" = None.
Proof.
  intros Hrow Hlen bytes. subst bytes.
  table_rows Hrow; fix_length data Hlen.
  all: eexists; (split; [eval_decoder; reflexivity|]); repeat split; solve_lookups.
Qed.

(** ** Runs that end on an unmatched or truncated header *)

Lemma AM100_exec_unknown f1 f2 f3 f4 bytes s :
  reaches (AM100.body_with f1 f2 f3 f4 bytes) (len bytes) AM100.init s ->
  cursor s < len bytes ->
  known AM100_table (elem bytes (cursor s)) (elem bytes (cursor s + 1)) = false ->
  run (AM100.body_with f1 f2 f3 f4) bytes AM100.init =
  Done (stopped s (flag_of (elem bytes (cursor s)))).
Proof.
  intros Hr Hlt Hk. eapply run_break; eauto.
  - intros b s1 s2. apply AM100_progress.
  - now apply AM100_unknown.
Qed.

Lemma EM500_SMT_exec_unknown bytes s :
  reaches (EM500_SMT.body bytes) (len bytes) EM500_SMT.init s ->
  cursor s + 2 <= len bytes ->
  known EM500_SMT_table (elem bytes (cursor s)) (elem bytes (cursor s + 1)) = false ->
  EM500_SMT.exec bytes = Done (stopped s (flag_of (elem bytes (cursor s)))).
Proof.
  intros Hr Hlt Hk. eapply run_break; eauto.
  - intros b s1 s2. apply EM500_SMT_progress.
  - lia.
  - now apply EM500_SMT_unknown.
Qed.

Lemma EM500_LGT_exec_unknown bytes s :
  reaches (EM500_LGT.body bytes) (len bytes) EM500_LGT.init s ->
  cursor s < len bytes ->
  known EM500_LGT_table (elem bytes (cursor s)) (elem bytes (cursor s + 1)) = false ->
  EM500_LGT.exec bytes =
  Done (mkState (cursor s + 2) (decoded s) ((cursor s + 1) :: cursor s :: reads s)).
Proof.
  intros Hr Hlt Hk. eapply run_break; eauto.
  - intros b s1 s2. apply EM500_LGT_progress.
  - now apply EM500_LGT_unknown.
Qed.

Lemma EM500_SMT_exec_truncated bytes s :
  reaches (EM500_SMT.body bytes) (len bytes) EM500_SMT.init s ->
  cursor s < len bytes ->
  len bytes - 2 < cursor s ->
  EM500_SMT.exec bytes =
  Done (mkState (cursor s) (<["Error" := VBool true]> (decoded s)) (reads s)).
Proof.
  intros Hr Hlt Ht. eapply run_break; eauto.
  - intros b s1 s2. apply EM500_SMT_progress.
  - now apply EM500_SMT_truncated.
Qed.

Lemma stopped_flagged s id : flagged (decoded (stopped s (flag_of id))).
Proof.
  unfold flagged, stopped, flag_of. cbn [decoded].
  destruct (seq id 255); [left | right]; apply lookup_insert_eq.
Qed.

Lemma stopped_retains s key k :
  k <> key -> decoded (stopped s key) !! k = decoded s !! k.
Proof. intros Hne. unfold stopped. cbn [decoded]. now apply lookup_insert_ne. Qed.

(** ** The two error fields along a run *)

(** At every reachable loop state of the ambience and soil decoders [Error]
    is still false and [error] is still absent. *)
Lemma AM100_reaches_clean f1 f2 f3 f4 bytes s :
  reaches (AM100.body_with f1 f2 f3 f4 bytes) (len bytes) AM100.init s -> clean s.
Proof.
  apply reaches_invariant.
  - intros s1 s2 _ Hb [HE He]. unfold clean.
    apply AM100_keeps_flags in Hb as [-> ->]. now split.
  - split; reflexivity.
Qed.

Lemma EM500_SMT_reaches_clean bytes s :
  reaches (EM500_SMT.body bytes) (len bytes) EM500_SMT.init s -> clean s.
Proof.
  apply reaches_invariant.
  - intros s1 s2 _ Hb [HE He]. unfold clean.
    apply EM500_SMT_keeps_flags in Hb as [-> ->]. now split.
  - split; reflexivity.
Qed.

Lemma clean_stopped s id :
  clean s ->
  let d := decoded (stopped s (flag_of id)) in
  if seq id 0xFF
  then d !! "Error" = Some (VBool true) /\ d !! "error" = None
  else d !! "Error" = Some (VBool false) /\ d !! "error" = Some (VBool true).
Proof.
  intros [HE He]. unfold stopped, flag_of. cbn [decoded].
  destruct (seq id 255).
  - now rewrite lookup_insert_eq, lookup_insert_ne.
  - now rewrite lookup_insert_eq, lookup_insert_ne.
Qed.

(** The light decoder always returns, and never with an error field. *)
Lemma EM500_LGT_loop_no_flags bytes fuel s :
  len bytes - cursor s <= Z.of_nat fuel ->
  exists s', loop (EM500_LGT.body bytes) (len bytes) fuel s = Done s' /\
             decoded s' !! "Error" = decoded s !! "Error" /\
             decoded s' !! "error" = decoded s !! "error".
Proof.
  revert s. induction fuel as [|fuel IH]; intros s Hfuel; simpl.
  - destruct (Z.ltb_spec (cursor s) (len bytes)); [lia|]. now exists s.
  - destruct (Z.ltb_spec (cursor s) (len bytes)); [|now exists s].
    pose proof (EM500_LGT_no_flags bytes s) as Hb.
    pose proof (EM500_LGT_progress bytes s) as Hp.
    destruct (EM500_LGT.body bytes s) as [[] s1 | s1 | e]; [| |destruct Hb].
    + specialize (Hp s1 eq_refl).
      destruct (IH s1 ltac:(lia)) as (s' & -> & HE & He).
      exists s'. destruct Hb as [<- <-]. now repeat split.
    + exists s1. now repeat split.
Qed.

(** ** A payload and its extensions *)

Lemma len_app (pre rest : list byte) : len (pre ++ rest) = len pre + len rest.
Proof. unfold len. rewrite length_app. lia. Qed.

Lemma len_nonneg (bytes : list byte) : 0 <= len bytes.
Proof. unfold len. lia. Qed.

Lemma elem_app_l pre rest k :
  k < len pre -> elem (pre ++ rest) k = elem pre k.
Proof.
  intros Hk. unfold elem. destruct (k <? 0) eqn:Hneg; [reflexivity|].
  apply Z.ltb_ge in Hneg. rewrite lookup_app_l; [reflexivity|]. unfold len in Hk. lia.
Qed.

Lemma elem_app_r pre rest k :
  0 <= k -> elem (pre ++ rest) (len pre + k) = elem rest k.
Proof.
  intros Hk. unfold elem, len.
  destruct (Z.ltb_spec (Z.of_nat (length pre) + k) 0); [lia|].
  destruct (Z.ltb_spec k 0); [lia|].
  rewrite lookup_app_r by lia. do 2 f_equal. lia.
Qed.

Lemma slice_app_l pre rest a b :
  0 <= a -> b <= len pre -> slice (pre ++ rest) a b = slice pre a b.
Proof.
  intros Ha Hb. unfold slice, slice_lo, slice_hi. rewrite len_app.
  pose proof (len_nonneg rest).
  destruct (Z_le_gt_dec a b).
  - rewrite !Z.min_l by lia.
    rewrite drop_app_le by (unfold len in *; lia).
    rewrite take_app_le; [reflexivity|]. rewrite length_drop. unfold len in *. lia.
  - replace (Z.to_nat (b `min` (len pre + len rest) - a `min` (len pre + len rest))) with 0%nat by lia.
    replace (Z.to_nat (b `min` len pre - a `min` len pre)) with 0%nat by lia.
    reflexivity.
Qed.

Lemma slice_bounds_app_l pre rest a b :
  b <= len pre -> a <= b ->
  slice_lo (pre ++ rest) a = slice_lo pre a /\ slice_hi (pre ++ rest) b = slice_hi pre b.
Proof.
  intros Hb Hab. unfold slice_lo, slice_hi. rewrite len_app.
  pose proof (len_nonneg rest). lia.
Qed.

Lemma slice_app_r pre rest a b :
  0 <= a -> slice (pre ++ rest) (len pre + a) (len pre + b) = slice rest a b.
Proof.
  intros Ha. unfold slice, slice_lo, slice_hi. rewrite len_app.
  pose proof (len_nonneg pre) as Hp.
  replace ((len pre + b) `min` (len pre + len rest) - (len pre + a) `min` (len pre + len rest))
    with (b `min` len rest - a `min` len rest) by lia.
  f_equal.
  replace (Z.to_nat ((len pre + a) `min` (len pre + len rest)))
    with (length pre + Z.to_nat (a `min` len rest))%nat by (unfold len in *; lia).
  rewrite drop_app_add. reflexivity.
Qed.

(** Every branch advances [i] past the header. *)
Lemma AM100_past_header f1 f2 f3 f4 bytes s s' :
  AM100.body_with f1 f2 f3 f4 bytes s = Ok tt s' -> cursor s + 2 < cursor s'.
Proof. unfold_body; repeat split_if; intros H; inversion H; subst; simpl; lia. Qed.

Lemma EM500_SMT_past_header bytes s s' :
  EM500_SMT.body bytes s = Ok tt s' -> cursor s + 2 < cursor s'.
Proof. unfold_body; repeat split_if; intros H; inversion H; subst; simpl; lia. Qed.

(** A step that stays inside a prefix does not depend on what follows the
    prefix. *)
Ltac split_header :=
  match goal with
  | |- context [if (seq ?a ?b && seq ?c ?d) then _ else _] =>
      destruct (seq a b && seq c d) eqn:?
  | |- context [if seq ?a ?b then _ else _] => destruct (seq a b) eqn:?
  end.

Ltac prefix_step_cases :=
  rewrite !(elem_app_l _ _ (cursor _)) by lia;
  rewrite !(elem_app_l _ _ (cursor _ + 1)) by lia;
  repeat split_header; cbn [cursor decoded reads];
  rewrite ?(elem_app_l _ _ (cursor _ + 1 + 1)) by lia;
  repeat split_if;
  let Hb := fresh "Hb" in
  intros Hb; inversion Hb; subst; cbn [cursor] in *;
  rewrite ?elem_app_l by lia;
  rewrite ?slice_app_l by lia;
  repeat match goal with
  | |- context [slice_lo (?p ++ ?r) ?a] =>
      rewrite (proj1 (slice_bounds_app_l p r a a ltac:(lia) ltac:(lia)))
  | |- context [slice_hi (?p ++ ?r) ?a] =>
      rewrite (proj2 (slice_bounds_app_l p r a a ltac:(lia) ltac:(lia)))
  end;
  reflexivity.

Lemma AM100_prefix_step f1 f2 f3 f4 pre rest s s' :
  AM100.body_with f1 f2 f3 f4 pre s = Ok tt s' ->
  0 <= cursor s -> cursor s' <= len pre ->
  AM100.body_with f1 f2 f3 f4 (pre ++ rest) s = Ok tt s'.
Proof.
  intros Hb H0 Hle. pose proof (AM100_past_header _ _ _ _ _ _ _ Hb) as Hp.
  revert Hb. unfold_body. prefix_step_cases.
Qed.

Lemma EM500_SMT_prefix_step pre rest s s' :
  EM500_SMT.body pre s = Ok tt s' ->
  0 <= cursor s -> cursor s' <= len pre ->
  EM500_SMT.body (pre ++ rest) s = Ok tt s'.
Proof.
  intros Hb H0 Hle. pose proof (EM500_SMT_past_header _ _ _ Hb) as Hp.
  pose proof (len_nonneg rest) as Hr.
  revert Hb. unfold_body. rewrite len_app.
  destruct (Z.ltb_spec (len pre - 2) (cursor s)); [discriminate|].
  destruct (Z.ltb_spec (len pre + len rest - 2) (cursor s)); [lia|].
  prefix_step_cases.
Qed.

(** The run on a prefix that it consumes exactly is the beginning of the
    run on the whole payload. *)
Lemma reaches_prefix (body : list byte -> M unit) pre rest s0 s :
  (forall t t', body pre t = Ok tt t' -> cursor t < cursor t') ->
  (forall t t', body pre t = Ok tt t' -> 0 <= cursor t -> cursor t' <= len pre ->
                body (pre ++ rest) t = Ok tt t') ->
  0 <= cursor s0 ->
  reaches (body pre) (len pre) s0 s -> cursor s <= len pre ->
  reaches (body (pre ++ rest)) (len (pre ++ rest)) s0 s.
Proof.
  intros Hprog Hstep H0 Hr. induction Hr as [|s s' Hr IH Hlt Hb]; intros Hle.
  - apply reaches_start.
  - pose proof (reaches_cursor _ _ Hprog _ _ Hr) as Hc.
    apply (reaches_step _ _ _ s).
    + apply IH. lia.
    + rewrite len_app. pose proof (len_nonneg rest). lia.
    + apply Hstep; [assumption | lia | assumption].
Qed.

(** ** Shifting the cursor: a run on [pre ++ rest] from [len pre] on and a
    run on [rest] from 0 on *)

Lemma sim_ret {A} k (a : A) : sim k (mret a) (mret a).
Proof. intros s1 s2 Hs H0. cbv [mret M_ret]. auto. Qed.

Lemma sim_bind {A B} k (m1 m2 : M A) (f1 f2 : A -> M B) :
  sim k m1 m2 -> (forall a, sim k (f1 a) (f2 a)) ->
  sim k (m1 ≫= f1) (m2 ≫= f2).
Proof.
  intros Hm Hf s1 s2 Hs H0. cbv [mbind M_bind].
  specialize (Hm s1 s2 Hs H0).
  destruct (m1 s1) as [a s1'|s1'|e1], (m2 s2) as [b s2'|s2'|e2]; try contradiction; auto.
  destruct Hm as (-> & Hs' & H0'). apply Hf; assumption.
Qed.

Lemma sim_skip k : sim k skip skip.
Proof. apply sim_ret. Qed.

Lemma sim_advance k n : 0 <= n -> sim k (advance n) (advance n).
Proof.
  intros Hn s1 s2 [Hc Hd] H0. cbv [advance shifted]. cbn [cursor decoded].
  repeat split; auto; lia.
Qed.

Lemma sim_assign k key v : sim k (assign key v) (assign key v).
Proof.
  intros s1 s2 [Hc Hd] H0. cbv [assign shifted]. cbn [cursor decoded].
  rewrite Hd. repeat split; auto.
Qed.

Lemma sim_break {A} k : sim k (@break A) (@break A).
Proof. intros s1 s2 Hs H0. exact Hs. Qed.

Lemma sim_call_undefined {A} k name : sim k (@call_undefined A name) (@call_undefined A name).
Proof. intros s1 s2 Hs H0. reflexivity. Qed.

Lemma sim_peek pre rest : sim (len pre) (peek (pre ++ rest)) (peek rest).
Proof.
  intros s1 s2 [Hc Hd] H0. cbv [peek get_i index mbind M_bind shifted]. cbn [cursor decoded].
  rewrite Hc, Z.add_comm, elem_app_r by assumption. repeat split; auto; lia.
Qed.

Lemma sim_next pre rest : sim (len pre) (next (pre ++ rest)) (next rest).
Proof.
  intros s1 s2 [Hc Hd] H0.
  cbv [next get_i advance index mbind M_bind shifted]. cbn [cursor decoded].
  rewrite Hc, Z.add_comm, elem_app_r by assumption. repeat split; auto; lia.
Qed.

Lemma sim_slice_at pre rest a b :
  0 <= a -> sim (len pre) (slice_at (pre ++ rest) a b) (slice_at rest a b).
Proof.
  intros Ha s1 s2 [Hc Hd] H0. cbv [slice_at shifted]. cbn [cursor decoded].
  rewrite Hc.
  replace (cursor s2 + len pre + a) with (len pre + (cursor s2 + a)) by lia.
  replace (cursor s2 + len pre + b) with (len pre + (cursor s2 + b)) by lia.
  rewrite slice_app_r by lia. repeat split; auto; lia.
Qed.

Ltac sim_step :=
  first
    [ apply sim_next | apply sim_peek | apply sim_slice_at; lia | apply sim_assign
    | apply sim_advance; lia | apply sim_break | apply sim_skip
    | apply sim_call_undefined
    | apply sim_bind; [ | intros ? ]
    | match goal with
      | |- sim _ (if ?c then _ else _) (if ?c then _ else _) => destruct c
      end ].

Lemma AM100_system_shift pre rest type :
  sim (len pre) (AM100.system (pre ++ rest) type) (AM100.system rest type).
Proof. unfold AM100.system. repeat sim_step. Qed.

Lemma AM100_body_shift f1 f2 f3 f4 pre rest :
  sim (len pre) (AM100.body_with f1 f2 f3 f4 (pre ++ rest))
                (AM100.body_with f1 f2 f3 f4 rest).
Proof.
  unfold AM100.body_with, AM100.system. repeat sim_step.
Qed.

Lemma EM500_SMT_system_shift pre rest type :
  sim (len pre) (EM500_SMT.system (pre ++ rest) type) (EM500_SMT.system rest type).
Proof. unfold EM500_SMT.system. repeat sim_step. Qed.

Lemma sim_length_test {A} pre rest (short1 short2 long1 long2 : M A) :
  sim (len pre) short1 short2 -> sim (len pre) long1 long2 ->
  sim (len pre)
      (i ← get_i; if len (pre ++ rest) - 2 <? i then short1 else long1)
      (i ← get_i; if len rest - 2 <? i then short2 else long2).
Proof.
  intros Hshort Hlong s1 s2 Hs H0. cbv [get_i mbind M_bind].
  rewrite len_app. pose proof Hs as [Hc _].
  destruct (Z.ltb_spec (len rest - 2) (cursor s2)),
           (Z.ltb_spec (len pre + len rest - 2) (cursor s1)); try lia.
  - now apply Hshort.
  - now apply Hlong.
Qed.

Lemma EM500_SMT_body_shift pre rest :
  sim (len pre) (EM500_SMT.body (pre ++ rest)) (EM500_SMT.body rest).
Proof.
  unfold EM500_SMT.body, EM500_SMT.system. apply sim_length_test; repeat sim_step.
Qed.

(** The loops correspond as the bodies do. *)
Lemma loop_shift (body1 body2 : M unit) k n fuel s1 s2 :
  sim k body1 body2 -> shifted k s1 s2 -> 0 <= cursor s2 ->
  same_result (loop body1 (n + k) fuel s1) (loop body2 n fuel s2).
Proof.
  intros Hsim. revert s1 s2. induction fuel as [|fuel IH]; intros s1 s2 Hs H0;
    pose proof Hs as [Hc Hd]; simpl;
    destruct (Z.ltb_spec (cursor s1) (n + k)), (Z.ltb_spec (cursor s2) n); try lia;
    try exact I; try exact Hd.
  specialize (Hsim s1 s2 Hs H0).
  destruct (body1 s1) as [[] s1'|s1'|e1], (body2 s2) as [[] s2'|s2'|e2];
    try contradiction; simpl.
  - destruct Hsim as (_ & Hs' & H0'). now apply IH.
  - apply Hsim.
  - exact Hsim.
Qed.

(** How a run that returns has ended: at the loop test, or by [break]. *)
Lemma loop_done_inv (body : M unit) n fuel s0 t s :
  reaches body n s0 t -> loop body n fuel t = Done s ->
  (reaches body n s0 s /\ n <= cursor s) \/
  (exists s1, reaches body n s0 s1 /\ cursor s1 < n /\ body s1 = Brk s).
Proof.
  revert t. induction fuel as [|fuel IH]; intros t Hr; simpl;
    destruct (Z.ltb_spec (cursor t) n) as [Hlt|Hge]; try discriminate.
  - intros [= <-]. left. split; [assumption | lia].
  - destruct (body t) as [[] t'|t'|e] eqn:Hb; try discriminate.
    + apply IH. eapply reaches_step; eauto.
    + intros [= <-]. right. exists t. auto.
  - intros [= <-]. left. split; [assumption | lia].
Qed.

Ltac solve_brk_flagged :=
  unfold flagged; unfold_body; repeat split_if; intros H; inversion H; subst;
  cbn [decoded]; rewrite ?lookup_insert_eq; auto.

Lemma AM100_break_flagged f1 f2 f3 f4 bytes s s' :
  AM100.body_with f1 f2 f3 f4 bytes s = Brk s' -> flagged (decoded s').
Proof. solve_brk_flagged. Qed.

Lemma EM500_SMT_break_flagged bytes s s' :
  EM500_SMT.body bytes s = Brk s' -> flagged (decoded s').
Proof. solve_brk_flagged. Qed.

Lemma same_result_finish o1 o2 : same_result o1 o2 -> finish o1 = finish o2.
Proof. destruct o1, o2; simpl; try contradiction; congruence. Qed.

Section Append.

Variable body : list byte -> M unit.
Hypothesis body_progress :
  forall bytes s s', body bytes s = Ok tt s' -> cursor s < cursor s'.
Hypothesis body_prefix_step :
  forall pre rest s s', body pre s = Ok tt s' -> 0 <= cursor s -> cursor s' <= len pre ->
                        body (pre ++ rest) s = Ok tt s'.
Hypothesis body_shift :
  forall pre rest, sim (len pre) (body (pre ++ rest)) (body rest).
Hypothesis body_break_flagged :
  forall bytes s s', body bytes s = Brk s' -> flagged (decoded s').

Lemma run_unflagged_reaches bytes d s :
  run body bytes (start d) = Done s -> ~ flagged (decoded s) ->
  reaches (body bytes) (len bytes) (start d) s /\ len bytes <= cursor s.
Proof.
  intros Hrun Hclean.
  destruct (loop_done_inv _ _ _ (start d) _ _ (reaches_start _ _ _) Hrun)
    as [H | (s1 & _ & _ & Hb)]; [exact H|].
  exfalso. apply Hclean. eapply body_break_flagged, Hb.
Qed.

Lemma run_app pre rest d s :
  run body pre (start d) = Done s -> cursor s = len pre -> ~ flagged (decoded s) ->
  finish (run body (pre ++ rest) (start d)) = finish (run body rest (start (decoded s))).
Proof.
  intros Hrun Hc Hclean.
  destruct (run_unflagged_reaches _ _ _ Hrun Hclean) as [Hr _].
  apply (reaches_prefix body pre rest) in Hr;
    [| apply body_progress | apply body_prefix_step | simpl; lia | lia].
  unfold run at 1.
  rewrite (loop_reaches _ _ (body_progress _) _ _ _ Hr) by apply run_fuel.
  apply same_result_finish.
  unfold run.
  rewrite (loop_fuel_irrelevant _ _ (body_progress rest) (length rest) (length (pre ++ rest)));
    [| apply run_fuel | pose proof (run_fuel rest (decoded s)); rewrite length_app; simpl in *; lia].
  rewrite len_app, Z.add_comm.
  apply loop_shift; [apply body_shift | | simpl; lia].
  split; [simpl; lia | reflexivity].
Qed.

End Append.

(** A header of the table is never answered with [break] in the ambience
    decoders, whether or not its data bytes are there. *)
Lemma AM100_known_completes f1 f2 f3 f4 bytes s :
  known AM100_table (elem bytes (cursor s)) (elem bytes (cursor s + 1)) = true ->
  exists s', AM100.body_with f1 f2 f3 f4 bytes s = Ok tt s'.
Proof.
  unfold known. simpl. unfold_body.
  repeat (split_if; simpl; try discriminate); intros _; eexists; reflexivity.
Qed.

(** ** A record met by the loop, wherever it stands *)

Ltac split_eqb :=
  match goal with
  | |- context [?a =? ?b] => destruct (Z.eqb_spec a b); try lia; simpl
  end.

Lemma EM500_LGT_past_header bytes s s' :
  EM500_LGT.body bytes s = Ok tt s' -> cursor s + 2 < cursor s'.
Proof. unfold_body; repeat split_if; intros H; inversion H; subst; simpl; lia. Qed.

Lemma EM500_LGT_prefix_step pre rest s s' :
  EM500_LGT.body pre s = Ok tt s' ->
  0 <= cursor s -> cursor s' <= len pre ->
  EM500_LGT.body (pre ++ rest) s = Ok tt s'.
Proof.
  intros Hb H0 Hle. pose proof (EM500_LGT_past_header _ _ _ Hb) as Hp.
  revert Hb. unfold_body. prefix_step_cases.
Qed.

Lemma EM500_LGT_body_shift pre rest :
  sim (len pre) (EM500_LGT.body (pre ++ rest)) (EM500_LGT.body rest).
Proof. unfold EM500_LGT.body. repeat sim_step. Qed.

(** A record decoded from the start of a payload is decoded in the same way
    wherever the loop meets it. *)
Lemma stores_intro (body : list byte -> M unit) record key v :
  (forall pre rest s s', body pre s = Ok tt s' -> 0 <= cursor s -> cursor s' <= len pre ->
                         body (pre ++ rest) s = Ok tt s') ->
  (forall pre rest, sim (len pre) (body (pre ++ rest)) (body rest)) ->
  (forall d, exists rd,
     body record (start d) = Ok tt (mkState (len record) (<[key := v]> d) rd)) ->
  stores body record key v.
Proof.
  intros Hprefix Hshift Hrec pre rest s Hc.
  destruct (Hrec (decoded s)) as [rd Hb].
  apply (Hprefix record rest) in Hb; [|simpl; lia|simpl; lia].
  pose proof (Hshift pre (record ++ rest) s (start (decoded s))) as Hsim.
  rewrite Hb in Hsim.
  destruct (body (pre ++ record ++ rest) s) as [[] s'|s'|e].
  - destruct Hsim as (_ & [Hc' Hd'] & _); [split; simpl; [lia|reflexivity] | simpl; lia |].
    exists s'. split; [reflexivity|]. simpl in Hc', Hd'. split; [lia | exact Hd'].
  - exfalso. apply Hsim; [split; simpl; [lia|reflexivity] | simpl; lia].
  - exfalso. apply Hsim; [split; simpl; [lia|reflexivity] | simpl; lia].
Qed.

Section After.

Variable body : list byte -> M unit.
Hypothesis body_progress :
  forall bytes s s', body bytes s = Ok tt s' -> cursor s < cursor s'.
Hypothesis body_prefix_step :
  forall pre rest s s', body pre s = Ok tt s' -> 0 <= cursor s -> cursor s' <= len pre ->
                        body (pre ++ rest) s = Ok tt s'.
Hypothesis body_shift :
  forall pre rest, sim (len pre) (body (pre ++ rest)) (body rest).
Hypothesis body_break_flagged :
  forall bytes s s', body bytes s = Brk s' -> flagged (decoded s').

Lemma decodes_after_intro (Decoder : list byte -> option Z -> result) d0 record key v :
  (forall bytes, Decoder bytes None = finish (run body bytes (start d0))) ->
  (forall d, exists c rd,
     run body record (start d) = Done (mkState c (<[key := v]> d) rd)) ->
  decodes_after (fun bytes => run body bytes (start d0)) Decoder record key v.
Proof.
  intros HD Hrec pre s Hrun Hc Hclean.
  rewrite HD.
  rewrite (run_app body body_progress body_prefix_step body_shift body_break_flagged
             pre record d0 s Hrun Hc Hclean).
  destruct (Hrec (decoded s)) as (c & rd & ->). reflexivity.
Qed.

End After.

Lemma AM100_decodes_after f1 f2 f3 f4 (Decoder : list byte -> option Z -> result)
    record key v :
  (forall bytes, Decoder bytes None =
                 finish (run (AM100.body_with f1 f2 f3 f4) bytes AM100.init)) ->
  (forall d, exists c rd,
     run (AM100.body_with f1 f2 f3 f4) record (start d) =
     Done (mkState c (<[key := v]> d) rd)) ->
  decodes_after (fun bytes => run (AM100.body_with f1 f2 f3 f4) bytes AM100.init)
                Decoder record key v.
Proof.
  apply (decodes_after_intro (AM100.body_with f1 f2 f3 f4)).
  - intros b t t'. apply AM100_progress.
  - intros p r t t'. apply AM100_prefix_step.
  - intros p r. apply AM100_body_shift.
  - intros b t t'. apply AM100_break_flagged.
Qed.

Lemma EM500_SMT_decodes_after record key v :
  (forall d, exists c rd,
     run EM500_SMT.body record (start d) = Done (mkState c (<[key := v]> d) rd)) ->
  decodes_after EM500_SMT.exec EM500_SMT.Decoder record key v.
Proof.
  apply (decodes_after_intro EM500_SMT.body).
  - apply EM500_SMT_progress.
  - apply EM500_SMT_prefix_step.
  - apply EM500_SMT_body_shift.
  - apply EM500_SMT_break_flagged.
  - reflexivity.
Qed.

Lemma AM100_stores f1 f2 f3 f4 record key v :
  (forall d, exists rd,
     AM100.body_with f1 f2 f3 f4 record (start d) =
     Ok tt (mkState (len record) (<[key := v]> d) rd)) ->
  stores (AM100.body_with f1 f2 f3 f4) record key v.
Proof.
  apply stores_intro.
  - intros p r t t'. apply AM100_prefix_step.
  - intros p r. apply AM100_body_shift.
Qed.

Lemma EM500_SMT_stores record key v :
  (forall d, exists rd,
     EM500_SMT.body record (start d) = Ok tt (mkState (len record) (<[key := v]> d) rd)) ->
  stores EM500_SMT.body record key v.
Proof.
  apply stores_intro; [apply EM500_SMT_prefix_step | apply EM500_SMT_body_shift].
Qed.

Lemma EM500_LGT_stores record key v :
  (forall d, exists rd,
     EM500_LGT.body record (start d) = Ok tt (mkState (len record) (<[key := v]> d) rd)) ->
  stores EM500_LGT.body record key v.
Proof.
  apply stores_intro; [apply EM500_LGT_prefix_step | apply EM500_LGT_body_shift].
Qed.

Lemma battery_clamp_any v (d : gmap string value) :
  (if js_gt (Int (byte_val v)) (Int 100)
   then <["battery" := VNum (Int 100)]> (<["battery" := VNum (Int (byte_val v))]> d)
   else <["battery" := VNum (Int (byte_val v))]> d) =
  <["battery" := VNum (Int (Z.min (byte_val v) 100))]> d.
Proof.
  simpl. destruct (Z.ltb_spec 100 (byte_val v)).
  - rewrite insert_insert_eq. do 3 f_equal. lia.
  - do 3 f_equal. lia.
Qed.

(** One iteration on a record that is the whole payload, from any object. *)
Lemma AM100_battery_step f1 f2 f3 f4 v d :
  exists rd,
    AM100.body_with f1 f2 f3 f4 [x01; x75; v] (start d) =
    Ok tt (mkState (len [x01; x75; v])
             (<["battery" := VNum (Int (Z.min (byte_val v) 100))]> d) rd).
Proof.
  eexists. rewrite <- battery_clamp_any. eval_decoder.
  match goal with |- context [js_gt ?a ?b] => destruct (js_gt a b) end; reflexivity.
Qed.

Lemma AM100_battery_run f1 f2 f3 f4 v d :
  exists c rd,
    run (AM100.body_with f1 f2 f3 f4) [x01; x75; v] (start d) =
    Done (mkState c (<["battery" := VNum (Int (Z.min (byte_val v) 100))]> d) rd).
Proof.
  do 2 eexists. rewrite <- battery_clamp_any. eval_decoder.
  match goal with |- context [js_gt ?a ?b] => destruct (js_gt a b) end; reflexivity.
Qed.

Ltac solve_step := intros; eexists; eval_decoder; reflexivity.
Ltac solve_run := intros; do 2 eexists; eval_decoder; reflexivity.

Lemma diverge_after_intro record key vs vu raw :
  decodes_after AM100.exec AM100.Decoder record key vs ->
  decodes_after AM100_node_red.exec AM100_node_red.Decoder record key vu ->
  (vs <> vu <-> 0x8000 <= raw) ->
  diverge_after record raw.
Proof.
  intros H1 H2 Hv pre s1 s2 He1 He2 Hc1 Hc2 Hf Hd.
  rewrite (H1 pre s1 He1 Hc1 Hf).
  rewrite (H2 pre s2 He2 Hc2) by (rewrite <- Hd; exact Hf).
  rewrite <- Hd, Returned_insert_neq_iff. exact Hv.
Qed.

Lemma known_truncated table id : known table id None = false.
Proof.
  unfold known. induction table as [|row table IH]; [reflexivity|].
  cbn [existsb seq]. rewrite andb_false_r. exact IH.
Qed.

Lemma EM500_SMT_sound_completes bytes s :
  cursor s + 2 <= len bytes ->
  known EM500_SMT_sound_rows (elem bytes (cursor s)) (elem bytes (cursor s + 1)) = true ->
  exists s', EM500_SMT.body bytes s = Ok tt s'.
Proof.
  intros Hlen. unfold known. simpl. unfold_body.
  destruct (Z.ltb_spec (len bytes - 2) (cursor s)); [lia|].
  destruct (elem bytes (cursor s)) as [id|]; [|simpl; discriminate].
  destruct (elem bytes (cursor s + 1)) as [type|];
    [|cbn [seq]; rewrite !andb_false_r; simpl; intros [=]].
  simpl. repeat (split_eqb; try discriminate); intros _; eexists; reflexivity.
Qed.


(** * The claims *)

(** C1 fails in the soil decoder: the format-version record, a row of its
    table with its one data byte, is decoded and then flagged as an error,
    because the if-chain of the SYSTEM block is broken in two before the
    RESTART test and the final [else] catches types 0x01 and 0x0B (and the
    hardware-version, software-version and serial-number rows call helpers
    the file does not define). *)
Theorem C1_soil_format_version_record_is_flagged :
  In (0xFF, 0x01, 1) EM500_SMT_table /\
  EM500_SMT.exec [xff; x01; x01] =
    Done {| cursor := 3;
            decoded := <["Error" := VBool true]>
                         (<["FormatVersion" := VNum (Int 1)]> (<["Error" := VBool false]> ∅));
            reads := [2; 1; 0] |} /\
  EM500_SMT.Decoder [xff; x01; x01] None =
    Returned (<["FormatVersion" := VNum (Int 1)]> (<["Error" := VBool true]> ∅)) /\
  flagged (<["FormatVersion" := VNum (Int 1)]> (<["Error" := VBool true]> ∅)).
Proof.
  split; [simpl; tauto|]. split; [vm_compute; reflexivity|].
  split; [vm_compute; reflexivity|].
  left. rewrite lookup_insert_ne by done. apply lookup_insert_eq.
Qed.

(** C2, as the claim states it, fails on the light decoder: the unknown pair
    [0x02, 0x99] ends the loop but no error field is set. *)
Lemma C2_light_decoder_sets_no_flag :
  known EM500_LGT_table (elem [x02; x99] 0) (elem [x02; x99] 1) = false /\
  EM500_LGT.Decoder [x02; x99] None = Returned ∅ /\
  ~ flagged ∅.
Proof.
  split; [reflexivity|]. split; [vm_compute; reflexivity|].
  unfold flagged. rewrite !lookup_empty. intros [H|H]; discriminate.
Qed.

(** C2 (amended): in the ambience and soil decoders, a header read at a
    reachable loop state that matches no row of the table sets an error
    field to true ([error], or [Error] when the channel id is 0xFF) and
    ends the run right there: the cursor is just past the two header bytes,
    no further byte has been read, and [decoded] is what it was plus that
    field.  [0x02, 0x99] decodes to Error = false, error = true and no data
    field.  The light decoder ends the run in the same way without setting
    any field. *)
Theorem C2_unknown_pair_sets_flag_and_stops :
  (forall bytes s,
     reaches (AM100.body bytes) (len bytes) AM100.init s ->
     cursor s < len bytes ->
     known AM100_table (elem bytes (cursor s)) (elem bytes (cursor s + 1)) = false ->
     AM100.exec bytes = Done (stopped s (flag_of (elem bytes (cursor s))))) /\
  (forall bytes s,
     reaches (AM100_node_red.body bytes) (len bytes) AM100_node_red.init s ->
     cursor s < len bytes ->
     known AM100_table (elem bytes (cursor s)) (elem bytes (cursor s + 1)) = false ->
     AM100_node_red.exec bytes = Done (stopped s (flag_of (elem bytes (cursor s))))) /\
  (forall bytes s,
     reaches (EM500_SMT.body bytes) (len bytes) EM500_SMT.init s ->
     cursor s + 2 <= len bytes ->
     known EM500_SMT_table (elem bytes (cursor s)) (elem bytes (cursor s + 1)) = false ->
     EM500_SMT.exec bytes = Done (stopped s (flag_of (elem bytes (cursor s))))) /\
  (forall bytes s,
     reaches (EM500_LGT.body bytes) (len bytes) EM500_LGT.init s ->
     cursor s < len bytes ->
     known EM500_LGT_table (elem bytes (cursor s)) (elem bytes (cursor s + 1)) = false ->
     EM500_LGT.exec bytes =
       Done (mkState (cursor s + 2) (decoded s) ((cursor s + 1) :: cursor s :: reads s))) /\
  (let result := Returned (<["error" := VBool true]> (<["Error" := VBool false]> ∅)) in
   AM100.Decoder [x02; x99] None = result /\
   AM100_node_red.Decoder [x02; x99] None = result /\
   EM500_SMT.Decoder [x02; x99] None = result /\
   data_fields (<["error" := VBool true]> (<["Error" := VBool false]> ∅)) = ∅).
Proof.
  repeat apply conj.
  - intros bytes s. apply AM100_exec_unknown.
  - intros bytes s. apply AM100_exec_unknown.
  - intros bytes s. apply EM500_SMT_exec_unknown.
  - intros bytes s. apply EM500_LGT_exec_unknown.
  - vm_compute; reflexivity.
  - vm_compute; reflexivity.
  - vm_compute; reflexivity.
  - vm_compute; reflexivity.
Qed.

(** A battery record followed by an unknown pair: the battery stays. *)
Lemma C2_unknown_pair_witness :
  let bytes := [x01; x75; x32; x02; x99] in
  let s := mkState 3 (<["battery" := VNum (Int 50)]> (<["Error" := VBool false]> ∅)) [2; 1; 0] in
  reaches (AM100.body bytes) (len bytes) AM100.init s /\
  cursor s < len bytes /\
  known AM100_table (elem bytes (cursor s)) (elem bytes (cursor s + 1)) = false /\
  AM100.exec bytes = Done (stopped s (flag_of (elem bytes (cursor s)))).
Proof.
  intros bytes s.
  assert (Hr : reaches (AM100.body bytes) (len bytes) AM100.init s).
  { apply (reaches_step _ _ _ AM100.init); [apply reaches_start | reflexivity |].
    vm_compute. reflexivity. }
  assert (Hlt : cursor s < len bytes) by reflexivity.
  assert (Hk : known AM100_table (elem bytes (cursor s)) (elem bytes (cursor s + 1)) = false)
    by reflexivity.
  split; [exact Hr|]. split; [exact Hlt|]. split; [exact Hk|].
  exact (proj1 C2_unknown_pair_sets_flag_and_stops bytes s Hr Hlt Hk).
Defined.

(** C3, as the claim states it, fails outside the soil decoder.  Neither
    the ambience nor the light decoder tests the remaining length: on a
    single byte both read index 1, past the end (the missing type byte reads
    as undefined and no branch matches); the ambience decoder then leaves
    [Error] false and sets [error], the light decoder sets nothing. *)
Lemma C3_header_read_past_the_end_without_length_test :
  AM100.exec [x01] =
    Done {| cursor := 2;
            decoded := <["error" := VBool true]> (<["Error" := VBool false]> ∅);
            reads := [1; 0] |} /\
  (<["error" := VBool true]> (<["Error" := VBool false]> ∅) : gmap string value) !! "Error"
    <> Some (VBool true) /\
  EM500_LGT.exec [x01] = Done {| cursor := 2; decoded := ∅; reads := [1; 0] |} /\
  ~ flagged ∅ /\
  ~ Forall (fun k => k < len [x01]) [1; 0].
Proof.
  split; [vm_compute; reflexivity|]. split; [|split; [vm_compute; reflexivity|split]].
  - rewrite lookup_insert_ne by done. rewrite lookup_insert_eq. discriminate.
  - unfold flagged. rewrite !lookup_empty. intros [H|H]; discriminate.
  - intros H. apply Forall_cons in H as [H _]. unfold len in H. simpl in H. lia.
Qed.

(** C3 (amended): in the soil decoder, at a reachable loop state with one
    byte left (cursor > length - 2) the run ends with [Error] set to true,
    the cursor where it was and no byte read; a payload of a single byte
    decodes to exactly Error = true, with nothing read. *)
Theorem C3_soil_truncated_header_sets_Error :
  (forall bytes s,
     reaches (EM500_SMT.body bytes) (len bytes) EM500_SMT.init s ->
     cursor s < len bytes ->
     len bytes - 2 < cursor s ->
     EM500_SMT.exec bytes =
       Done (mkState (cursor s) (<["Error" := VBool true]> (decoded s)) (reads s))) /\
  (forall b,
     EM500_SMT.exec [b] = Done (mkState 0 (<["Error" := VBool true]> ∅) []) /\
     EM500_SMT.Decoder [b] None = Returned (<["Error" := VBool true]> ∅)).
Proof.
  assert (H1 : forall bytes s,
     reaches (EM500_SMT.body bytes) (len bytes) EM500_SMT.init s ->
     cursor s < len bytes ->
     len bytes - 2 < cursor s ->
     EM500_SMT.exec bytes =
       Done (mkState (cursor s) (<["Error" := VBool true]> (decoded s)) (reads s))).
  { intros bytes s. apply EM500_SMT_exec_truncated. }
  split; [exact H1|].
  intros b.
  assert (He : EM500_SMT.exec [b] = Done (mkState 0 (<["Error" := VBool true]> ∅) [])).
  { rewrite (H1 [b] EM500_SMT.init); [| apply reaches_start | reflexivity | reflexivity].
    unfold EM500_SMT.init, start. cbn [cursor decoded reads].
    now rewrite insert_insert_eq. }
  split; [exact He|].
  unfold EM500_SMT.Decoder. cbn [port_accepted negb]. now rewrite He.
Qed.

Lemma C3_soil_truncated_header_witness :
  let bytes := [x01; x75; x32; x03] in
  let s := mkState 3 (<["battery" := VNum (Int 50)]> (<["Error" := VBool false]> ∅)) [2; 1; 0] in
  reaches (EM500_SMT.body bytes) (len bytes) EM500_SMT.init s /\
  cursor s < len bytes /\
  len bytes - 2 < cursor s /\
  EM500_SMT.exec bytes =
    Done (mkState (cursor s) (<["Error" := VBool true]> (decoded s)) (reads s)).
Proof.
  intros bytes s.
  assert (Hr : reaches (EM500_SMT.body bytes) (len bytes) EM500_SMT.init s).
  { apply (reaches_step _ _ _ EM500_SMT.init); [apply reaches_start | reflexivity |].
    vm_compute. reflexivity. }
  assert (Hlt : cursor s < len bytes) by reflexivity.
  assert (Ht : len bytes - 2 < cursor s) by reflexivity.
  split; [exact Hr|]. split; [exact Hlt|]. split; [exact Ht|].
  exact (proj1 C3_soil_truncated_header_sets_Error bytes s Hr Hlt Ht).
Defined.

(** C4, as the claim states it, fails on the light decoder, which has no
    port test: with port 1 it decodes all the same. *)
Lemma C4_light_decoder_ignores_port :
  (1 <> 85) /\
  EM500_LGT.Decoder [x01; x75; x32] (Some 1) =
    Returned (<["battery" := VNum (Int 50)]> ∅) /\
  EM500_LGT.Decoder [x01; x75; x32] (Some 1) <> Null.
Proof.
  split; [lia|]. split; [vm_compute; reflexivity | discriminate].
Qed.

(** C4 (amended): in the ambience and soil decoders a supplied port other
    than 85 gives null whatever the bytes are, and an absent port (like port
    85) gives the result of the decoding loop, never null; the light decoder
    has no port test and runs the loop for every port. *)
Theorem C4_port_filter (bytes : list byte) (p : Z) :
  p <> 85 ->
  (AM100.Decoder bytes (Some p) = Null /\
   AM100_node_red.Decoder bytes (Some p) = Null /\
   EM500_SMT.Decoder bytes (Some p) = Null) /\
  (AM100.Decoder bytes None = finish (AM100.exec bytes) /\
   AM100_node_red.Decoder bytes None = finish (AM100_node_red.exec bytes) /\
   EM500_SMT.Decoder bytes None = finish (EM500_SMT.exec bytes)) /\
  (AM100.Decoder bytes None <> Null /\
   AM100_node_red.Decoder bytes None <> Null /\
   EM500_SMT.Decoder bytes None <> Null) /\
  (AM100.Decoder bytes (Some 85) = AM100.Decoder bytes None /\
   AM100_node_red.Decoder bytes (Some 85) = AM100_node_red.Decoder bytes None /\
   EM500_SMT.Decoder bytes (Some 85) = EM500_SMT.Decoder bytes None) /\
  EM500_LGT.Decoder bytes (Some p) = finish (EM500_LGT.exec bytes).
Proof.
  intros Hp. apply Z.eqb_neq in Hp.
  unfold AM100.Decoder, AM100_node_red.Decoder, EM500_SMT.Decoder, EM500_LGT.Decoder.
  cbn [port_accepted negb]. rewrite Hp. cbn [negb Z.eqb Pos.eqb].
  assert (Hfin : forall o, finish o <> Null) by (intros []; discriminate).
  repeat split; apply Hfin.
Qed.

Lemma C4_port_filter_witness :
  (1 <> 85) /\
  AM100.Decoder [x01; x75; x32] (Some 1) = Null /\
  AM100.Decoder [x01; x75; x32] None <> Null.
Proof.
  split; [lia|].
  pose proof (C4_port_filter [x01; x75; x32] 1 ltac:(lia)) as H.
  split; [apply H | apply H].
Defined.

(** C5, as the claim states it, fails outside the ambience profile: the
    light and the soil decoder store raw 200 as 200. *)
Lemma C5_battery_is_not_clamped_in_every_profile :
  EM500_LGT.Decoder [x01; x75; xc8] None =
    Returned (<["battery" := VNum (Int 200)]> ∅) /\
  EM500_LGT.Decoder [x01; x75; xc8] None <>
    Returned (<["battery" := VNum (Int (Z.min 200 100))]> ∅) /\
  EM500_SMT.Decoder [x01; x75; xc8] None =
    Returned (<["battery" := VNum (Int 200)]> (<["Error" := VBool false]> ∅)) /\
  EM500_SMT.Decoder [x01; x75; xc8] None <>
    Returned (<["battery" := VNum (Int (Z.min 200 100))]> (<["Error" := VBool false]> ∅)).
Proof.
  assert (Hl : EM500_LGT.Decoder [x01; x75; xc8] None =
    Returned (<["battery" := VNum (Int 200)]> ∅)) by (vm_compute; reflexivity).
  assert (Hs : EM500_SMT.Decoder [x01; x75; xc8] None =
    Returned (<["battery" := VNum (Int 200)]> (<["Error" := VBool false]> ∅)))
    by (vm_compute; reflexivity).
  split; [exact Hl|]. split; [|split; [exact Hs|]].
  - rewrite Hl. apply Returned_insert_neq. discriminate.
  - rewrite Hs. apply Returned_insert_neq. discriminate.
Qed.

(** C5 (amended): in the ambience decoders a battery record
    [0x01, 0x75, v] is decoded to battery = min(v, 100) wherever the loop
    meets it.  At every loop state whose index stands at the record, the
    iteration stores min(v, 100) under [battery] and moves the index just
    past the record, leaving the other fields, the error fields among them,
    as they were; and after any prefix that the decoder consumes exactly
    and without an error flag, the result is that of the prefix with
    battery = min(v, 100).  200 gives 100 and 50 gives 50, also after a
    temperature record.  The light decoder stores v as it is. *)
Theorem C5_battery_clamped_in_ambience_profile :
  (forall v,
     let clamped := VNum (Int (Z.min (byte_val v) 100)) in
     stores AM100.body [x01; x75; v] "battery" clamped /\
     stores AM100_node_red.body [x01; x75; v] "battery" clamped /\
     decodes_after AM100.exec AM100.Decoder [x01; x75; v] "battery" clamped /\
     decodes_after AM100_node_red.exec AM100_node_red.Decoder [x01; x75; v] "battery" clamped /\
     stores EM500_LGT.body [x01; x75; v] "battery" (VNum (Int (byte_val v)))) /\
  (forall v,
     let clamped :=
       Returned (<["battery" := VNum (Int (Z.min (byte_val v) 100))]>
                   (<["Error" := VBool false]> ∅)) in
     AM100.Decoder [x01; x75; v] None = clamped /\
     AM100_node_red.Decoder [x01; x75; v] None = clamped /\
     EM500_LGT.Decoder [x01; x75; v] None =
       Returned (<["battery" := VNum (Int (byte_val v))]> ∅)) /\
  AM100.Decoder [x01; x75; xc8] None =
    Returned (<["battery" := VNum (Int 100)]> (<["Error" := VBool false]> ∅)) /\
  AM100.Decoder [x01; x75; x32] None =
    Returned (<["battery" := VNum (Int 50)]> (<["Error" := VBool false]> ∅)) /\
  AM100.Decoder [x03; x67; xe6; x00; x01; x75; xc8] None =
    Returned (<["battery" := VNum (Int 100)]>
                (<["temperature" := VNum (Flt 23.0)]> (<["Error" := VBool false]> ∅))).
Proof.
  split; [|split].
  - intros v. cbv zeta. repeat apply conj.
    + apply AM100_stores. intros d. apply AM100_battery_step.
    + apply AM100_stores. intros d. apply AM100_battery_step.
    + apply AM100_decodes_after; [reflexivity|]. intros d. apply AM100_battery_run.
    + apply AM100_decodes_after; [reflexivity|]. intros d. apply AM100_battery_run.
    + apply EM500_LGT_stores. solve_step.
  - intros v. open_decoders.
    rewrite !AM100_battery_record.
    destruct (unclamped_battery_records v) as [_ ->]. repeat split.
  - repeat split; vm_compute; reflexivity.
Qed.

(** A battery record after a temperature record. *)
Lemma C5_battery_after_a_record_witness :
  let pre := [x03; x67; xe6; x00] in
  let s := mkState 4 (<["temperature" := VNum (Flt 23.0)]> (<["Error" := VBool false]> ∅))
                   [3; 2; 1; 0] in
  AM100.exec pre = Done s /\ cursor s = len pre /\ ~ flagged (decoded s) /\
  AM100.Decoder (pre ++ [x01; x75; xc8]) None =
    Returned (<["battery" := VNum (Int (Z.min (byte_val xc8) 100))]> (decoded s)).
Proof.
  intros pre s.
  assert (He : AM100.exec pre = Done s) by (vm_compute; reflexivity).
  assert (Hc : cursor s = len pre) by reflexivity.
  assert (Hf : ~ flagged (decoded s)).
  { intros [Hf|Hf]; vm_compute in Hf; discriminate. }
  split; [exact He|]. split; [exact Hc|]. split; [exact Hf|].
  destruct (proj1 C5_battery_clamped_in_ambience_profile xc8) as (_ & _ & Hafter & _).
  exact (Hafter pre s He Hc Hf).
Defined.

(** C6: a temperature record [0x03, 0x67, lo, hi] is decoded, in the
    ambience and the soil decoders, to temperature = s / 10 in binary64, s
    being the little-endian 16-bit value read as two's complement, wherever
    the loop meets the record: at every loop state whose index stands at the
    record the iteration stores that value under [temperature] and moves
    just past the record, leaving the other fields as they were, and after
    any prefix consumed exactly and without an error flag the result is that
    of the prefix with this temperature.  The bytes
    [0x03, 0x67, 0xE6, 0x00] give 23.0, alone and after a battery record,
    and no error is flagged. *)
Theorem C6_temperature_is_signed_tenths :
  (forall lo hi,
     let t := VNum (Flt (PrimFloat.div (Z2F (int16_le lo hi)) (Z2F 10))) in
     stores AM100.body [x03; x67; lo; hi] "temperature" t /\
     stores AM100_node_red.body [x03; x67; lo; hi] "temperature" t /\
     stores EM500_SMT.body [x03; x67; lo; hi] "temperature" t /\
     decodes_after AM100.exec AM100.Decoder [x03; x67; lo; hi] "temperature" t /\
     decodes_after AM100_node_red.exec AM100_node_red.Decoder
                   [x03; x67; lo; hi] "temperature" t /\
     decodes_after EM500_SMT.exec EM500_SMT.Decoder [x03; x67; lo; hi] "temperature" t) /\
  (forall lo hi,
     let expected :=
       Returned (<["temperature" := VNum (Flt (PrimFloat.div (Z2F (int16_le lo hi)) (Z2F 10)))]>
                   (<["Error" := VBool false]> ∅)) in
     AM100.Decoder [x03; x67; lo; hi] None = expected /\
     AM100_node_red.Decoder [x03; x67; lo; hi] None = expected /\
     EM500_SMT.Decoder [x03; x67; lo; hi] None = expected) /\
  AM100.Decoder [x03; x67; xe6; x00] None =
    Returned (<["temperature" := VNum (Flt 23.0)]> (<["Error" := VBool false]> ∅)) /\
  AM100.Decoder [x01; x75; x32; x03; x67; xe6; x00] None =
    Returned (<["temperature" := VNum (Flt 23.0)]>
                (<["battery" := VNum (Int 50)]> (<["Error" := VBool false]> ∅))).
Proof.
  assert (H : forall lo hi,
     let expected :=
       Returned (<["temperature" := VNum (Flt (PrimFloat.div (Z2F (int16_le lo hi)) (Z2F 10)))]>
                   (<["Error" := VBool false]> ∅)) in
     AM100.Decoder [x03; x67; lo; hi] None = expected /\
     AM100_node_red.Decoder [x03; x67; lo; hi] None = expected /\
     EM500_SMT.Decoder [x03; x67; lo; hi] None = expected).
  { intros lo hi. open_decoders.
    rewrite !AM100_temperature_record, EM500_SMT_temperature_record, readInt16LE_pair.
    repeat split. }
  split; [|split; [exact H|split]].
  - intros lo hi. cbv zeta.
    assert (Hv : VNum (Flt (PrimFloat.div (Z2F (int16_le lo hi)) (Z2F 10))) =
                 VNum (js_div (readInt16LE [lo; hi]) (Int 10)))
      by (rewrite readInt16LE_pair; reflexivity).
    rewrite Hv. repeat apply conj.
    + apply AM100_stores. solve_step.
    + apply AM100_stores. solve_step.
    + apply EM500_SMT_stores. solve_step.
    + apply AM100_decodes_after; [reflexivity|]. solve_run.
    + apply AM100_decodes_after; [reflexivity|]. solve_run.
    + apply EM500_SMT_decodes_after. solve_run.
  - destruct (H xe6 x00) as [-> _]. reflexivity.
  - vm_compute. reflexivity.
Qed.

(** A temperature record after a battery record, in the soil decoder. *)
Lemma C6_temperature_after_a_record_witness :
  let pre := [x01; x75; x32] in
  let s := mkState 3 (<["battery" := VNum (Int 50)]> (<["Error" := VBool false]> ∅)) [2; 1; 0] in
  EM500_SMT.exec pre = Done s /\ cursor s = len pre /\ ~ flagged (decoded s) /\
  EM500_SMT.Decoder (pre ++ [x03; x67; xe6; x00]) None =
    Returned (<["temperature" := VNum (Flt (PrimFloat.div (Z2F (int16_le xe6 x00)) (Z2F 10)))]>
                (decoded s)).
Proof.
  intros pre s.
  assert (He : EM500_SMT.exec pre = Done s) by (vm_compute; reflexivity).
  assert (Hc : cursor s = len pre) by reflexivity.
  assert (Hf : ~ flagged (decoded s)).
  { intros [Hf|Hf]; vm_compute in Hf; discriminate. }
  split; [exact He|]. split; [exact Hc|]. split; [exact Hf|].
  destruct (proj1 C6_temperature_is_signed_tenths xe6 x00) as (_ & _ & _ & _ & _ & Hafter).
  exact (Hafter pre s He Hc Hf).
Defined.

(** C7: a hardware-version or software-version record
    [0xFF, 0x09 or 0x0A, major, minor] is decoded, in the ambience decoders,
    to bcd(major) + bcd(minor) / 100 in binary64, where a byte that is not
    packed BCD (low nibble above 9, or value 0xA0 or more) counts as 0,
    wherever the loop meets the record: at every loop state whose index
    stands at the record the iteration stores that value under
    [HardwareVersion] or [SoftwareVersion] and moves just past the record,
    leaving the other fields, the error fields among them, as they were, and
    after any prefix consumed exactly and without an error flag the result
    is that of the prefix with this version.  The bytes
    [0xFF, 0x09, 0x02, 0x01] give HardwareVersion = 2.01, alone and after a
    battery record; the bytes [0xFF, 0x09, 0x1A, 0xA5] give 0. *)
Theorem C7_version_is_packed_bcd :
  (forall major minor,
     let v := VNum (Flt (version major minor)) in
     stores AM100.body [xff; x09; major; minor] "HardwareVersion" v /\
     stores AM100.body [xff; x0a; major; minor] "SoftwareVersion" v /\
     stores AM100_node_red.body [xff; x09; major; minor] "HardwareVersion" v /\
     stores AM100_node_red.body [xff; x0a; major; minor] "SoftwareVersion" v /\
     decodes_after AM100.exec AM100.Decoder [xff; x09; major; minor] "HardwareVersion" v /\
     decodes_after AM100.exec AM100.Decoder [xff; x0a; major; minor] "SoftwareVersion" v /\
     decodes_after AM100_node_red.exec AM100_node_red.Decoder
                   [xff; x09; major; minor] "HardwareVersion" v /\
     decodes_after AM100_node_red.exec AM100_node_red.Decoder
                   [xff; x0a; major; minor] "SoftwareVersion" v) /\
  (forall major minor,
     let expected key :=
       Returned (<[key := VNum (Flt (version major minor))]> (<["Error" := VBool false]> ∅)) in
     AM100.Decoder [xff; x09; major; minor] None = expected "HardwareVersion" /\
     AM100.Decoder [xff; x0a; major; minor] None = expected "SoftwareVersion" /\
     AM100_node_red.Decoder [xff; x09; major; minor] None = expected "HardwareVersion" /\
     AM100_node_red.Decoder [xff; x0a; major; minor] None = expected "SoftwareVersion") /\
  AM100.Decoder [xff; x09; x02; x01] None =
    Returned (<["HardwareVersion" := VNum (Flt 2.01)]> (<["Error" := VBool false]> ∅)) /\
  bcd x1a = 0 /\ bcd xa5 = 0 /\
  AM100.Decoder [xff; x09; x1a; xa5] None =
    Returned (<["HardwareVersion" := VNum (Flt 0)]> (<["Error" := VBool false]> ∅)) /\
  AM100.Decoder [x01; x75; x32; xff; x09; x02; x01] None =
    Returned (<["HardwareVersion" := VNum (Flt 2.01)]>
                (<["battery" := VNum (Int 50)]> (<["Error" := VBool false]> ∅))).
Proof.
  assert (H : forall major minor,
     let expected key :=
       Returned (<[key := VNum (Flt (version major minor))]> (<["Error" := VBool false]> ∅)) in
     AM100.Decoder [xff; x09; major; minor] None = expected "HardwareVersion" /\
     AM100.Decoder [xff; x0a; major; minor] None = expected "SoftwareVersion" /\
     AM100_node_red.Decoder [xff; x09; major; minor] None = expected "HardwareVersion" /\
     AM100_node_red.Decoder [xff; x0a; major; minor] None = expected "SoftwareVersion").
  { intros major minor. open_decoders.
    destruct (AM100_version_record readInt16LE readInt16LE readInt16LE readInt16LE
                major minor) as [-> ->].
    destruct (AM100_version_record readUInt16LE readUInt16LE readUInt16LE readUInt16LE
                major minor) as [-> ->].
    rewrite readVersion_pair. repeat split. }
  split; [|split; [exact H|]].
  - intros major minor. cbv zeta. rewrite <- readVersion_pair. repeat apply conj.
    1-4: apply AM100_stores; solve_step.
    all: apply AM100_decodes_after; [reflexivity|]; solve_run.
  - destruct (H x02 x01) as [-> _]. destruct (H x1a xa5) as [-> _].
    repeat split.
Qed.

(** A software-version record after a battery record. *)
Lemma C7_version_after_a_record_witness :
  let pre := [x01; x75; x32] in
  let s := mkState 3 (<["battery" := VNum (Int 50)]> (<["Error" := VBool false]> ∅)) [2; 1; 0] in
  AM100.exec pre = Done s /\ cursor s = len pre /\ ~ flagged (decoded s) /\
  AM100.Decoder (pre ++ [xff; x0a; x02; x01]) None =
    Returned (<["SoftwareVersion" := VNum (Flt (version x02 x01))]> (decoded s)).
Proof.
  intros pre s.
  assert (He : AM100.exec pre = Done s) by (vm_compute; reflexivity).
  assert (Hc : cursor s = len pre) by reflexivity.
  assert (Hf : ~ flagged (decoded s)).
  { intros [Hf|Hf]; vm_compute in Hf; discriminate. }
  split; [exact He|]. split; [exact Hc|]. split; [exact Hf|].
  destruct (proj1 C7_version_is_packed_bcd x02 x01) as (_ & _ & _ & _ & _ & Hafter & _).
  exact (Hafter pre s He Hc Hf).
Defined.

(** C8: a serial-number record [0xFF, 0x08, b0, ..., b5] is decoded, in
    the ambience decoders, to the six bytes written as two lowercase
    hexadecimal digits each, joined by hyphens, wherever the loop meets the
    record: at every loop state whose index stands at the record the
    iteration stores that string under [SerialNumber] and moves just past
    the record, leaving the other fields as they were, and after any prefix
    consumed exactly and without an error flag the result is that of the
    prefix with this serial number.  The bytes
    [0xFF, 0x08, 0xAA, 0xBB, 0xCC, 0xDD, 0xEE, 0xFF] give
    "aa-bb-cc-dd-ee-ff", alone and after a battery record. *)
Theorem C8_serial_number_is_hyphenated_hex :
  (forall b0 b1 b2 b3 b4 b5,
     let sn := VStr (hex2 b0 +:+ "-" +:+ hex2 b1 +:+ "-" +:+ hex2 b2 +:+ "-" +:+
                     hex2 b3 +:+ "-" +:+ hex2 b4 +:+ "-" +:+ hex2 b5) in
     let record := [xff; x08; b0; b1; b2; b3; b4; b5] in
     stores AM100.body record "SerialNumber" sn /\
     stores AM100_node_red.body record "SerialNumber" sn /\
     decodes_after AM100.exec AM100.Decoder record "SerialNumber" sn /\
     decodes_after AM100_node_red.exec AM100_node_red.Decoder record "SerialNumber" sn) /\
  (forall b0 b1 b2 b3 b4 b5,
     let expected :=
       Returned (<["SerialNumber" :=
                     VStr (hex2 b0 +:+ "-" +:+ hex2 b1 +:+ "-" +:+ hex2 b2 +:+ "-" +:+
                           hex2 b3 +:+ "-" +:+ hex2 b4 +:+ "-" +:+ hex2 b5)]>
                   (<["Error" := VBool false]> ∅)) in
     AM100.Decoder [xff; x08; b0; b1; b2; b3; b4; b5] None = expected /\
     AM100_node_red.Decoder [xff; x08; b0; b1; b2; b3; b4; b5] None = expected) /\
  AM100.Decoder [xff; x08; xaa; xbb; xcc; xdd; xee; xff] None =
    Returned (<["SerialNumber" := VStr "aa-bb-cc-dd-ee-ff"]> (<["Error" := VBool false]> ∅)) /\
  AM100.Decoder [x01; x75; x32; xff; x08; xaa; xbb; xcc; xdd; xee; xff] None =
    Returned (<["SerialNumber" := VStr "aa-bb-cc-dd-ee-ff"]>
                (<["battery" := VNum (Int 50)]> (<["Error" := VBool false]> ∅))).
Proof.
  assert (H : forall b0 b1 b2 b3 b4 b5,
     let expected :=
       Returned (<["SerialNumber" :=
                     VStr (hex2 b0 +:+ "-" +:+ hex2 b1 +:+ "-" +:+ hex2 b2 +:+ "-" +:+
                           hex2 b3 +:+ "-" +:+ hex2 b4 +:+ "-" +:+ hex2 b5)]>
                   (<["Error" := VBool false]> ∅)) in
     AM100.Decoder [xff; x08; b0; b1; b2; b3; b4; b5] None = expected /\
     AM100_node_red.Decoder [xff; x08; b0; b1; b2; b3; b4; b5] None = expected).
  { intros. open_decoders.
    rewrite !AM100_serial_record, readHexBytes_six. repeat split. }
  split; [|split; [exact H|split]].
  - intros b0 b1 b2 b3 b4 b5. cbv zeta. rewrite <- readHexBytes_six. repeat apply conj.
    1-2: apply AM100_stores; solve_step.
    all: apply AM100_decodes_after; [reflexivity|]; solve_run.
  - destruct (H xaa xbb xcc xdd xee xff) as [-> _]. reflexivity.
  - vm_compute. reflexivity.
Qed.

(** A serial-number record after a battery record, in the Node-RED copy. *)
Lemma C8_serial_number_after_a_record_witness :
  let pre := [x01; x75; x32] in
  let s := mkState 3 (<["battery" := VNum (Int 50)]> (<["Error" := VBool false]> ∅)) [2; 1; 0] in
  AM100_node_red.exec pre = Done s /\ cursor s = len pre /\ ~ flagged (decoded s) /\
  AM100_node_red.Decoder (pre ++ [xff; x08; xaa; xbb; xcc; xdd; xee; xff]) None =
    Returned (<["SerialNumber" :=
                  VStr (hex2 xaa +:+ "-" +:+ hex2 xbb +:+ "-" +:+ hex2 xcc +:+ "-" +:+
                        hex2 xdd +:+ "-" +:+ hex2 xee +:+ "-" +:+ hex2 xff)]> (decoded s)).
Proof.
  intros pre s.
  assert (He : AM100_node_red.exec pre = Done s) by (vm_compute; reflexivity).
  assert (Hc : cursor s = len pre) by reflexivity.
  assert (Hf : ~ flagged (decoded s)).
  { intros [Hf|Hf]; vm_compute in Hf; discriminate. }
  split; [exact He|]. split; [exact Hc|]. split; [exact Hf|].
  destruct (proj1 C8_serial_number_is_hyphenated_hex xaa xbb xcc xdd xee xff)
    as (_ & _ & _ & Hafter).
  exact (Hafter pre s He Hc Hf).
Defined.

(** C9: the decoders of AM100.js and AM100-node-red.js differ on some
    payload.  Wherever the loop meets a record of activity (0x05/0x6A),
    illumination (0x06/0x65), TVOC (0x08/0x7D) or pressure (0x09/0x73), the
    first stores the little-endian 16-bit value read signed and the second
    the same value read unsigned (both over 10 for pressure), and the two
    values differ exactly when the raw value is 0x8000 or more.  Hence,
    after any prefix on which the two decoders agree (consumed exactly,
    without an error flag), and in particular on the record alone, they
    return different results exactly when the raw value is 0x8000 or
    more. *)
Theorem C9_ambience_variants_diverge_on_signedness :
  (exists bytes, AM100.Decoder bytes None <> AM100_node_red.Decoder bytes None) /\
  (forall lo hi,
     let signed := Int (int16_le lo hi) in
     let unsigned := Int (uint16_le lo hi) in
     (stores AM100.body [x05; x6a; lo; hi] "activity" (VNum signed) /\
      stores AM100_node_red.body [x05; x6a; lo; hi] "activity" (VNum unsigned)) /\
     (forall a b c d,
      stores AM100.body [x06; x65; lo; hi; a; b; c; d] "illumination" (VNum signed) /\
      stores AM100_node_red.body [x06; x65; lo; hi; a; b; c; d] "illumination"
             (VNum unsigned)) /\
     (stores AM100.body [x08; x7d; lo; hi] "tvoc" (VNum signed) /\
      stores AM100_node_red.body [x08; x7d; lo; hi] "tvoc" (VNum unsigned)) /\
     (stores AM100.body [x09; x73; lo; hi] "pressure" (VNum (js_div signed (Int 10))) /\
      stores AM100_node_red.body [x09; x73; lo; hi] "pressure"
             (VNum (js_div unsigned (Int 10)))) /\
     (VNum signed <> VNum unsigned <-> 0x8000 <= uint16_le lo hi) /\
     (VNum (js_div signed (Int 10)) <> VNum (js_div unsigned (Int 10))
      <-> 0x8000 <= uint16_le lo hi)) /\
  (forall lo hi,
     diverge_after [x05; x6a; lo; hi] (uint16_le lo hi) /\
     (forall a b c d, diverge_after [x06; x65; lo; hi; a; b; c; d] (uint16_le lo hi)) /\
     diverge_after [x08; x7d; lo; hi] (uint16_le lo hi) /\
     diverge_after [x09; x73; lo; hi] (uint16_le lo hi)) /\
  (forall lo hi,
     (AM100.Decoder [x05; x6a; lo; hi] None <> AM100_node_red.Decoder [x05; x6a; lo; hi] None
      <-> 0x8000 <= uint16_le lo hi) /\
     (forall a b c d,
      AM100.Decoder [x06; x65; lo; hi; a; b; c; d] None <>
      AM100_node_red.Decoder [x06; x65; lo; hi; a; b; c; d] None
      <-> 0x8000 <= uint16_le lo hi) /\
     (AM100.Decoder [x08; x7d; lo; hi] None <> AM100_node_red.Decoder [x08; x7d; lo; hi] None
      <-> 0x8000 <= uint16_le lo hi) /\
     (AM100.Decoder [x09; x73; lo; hi] None <> AM100_node_red.Decoder [x09; x73; lo; hi] None
      <-> 0x8000 <= uint16_le lo hi)) /\
  AM100.Decoder [x05; x6a; x00; x80] None =
    Returned (<["activity" := VNum (Int (-32768))]> (<["Error" := VBool false]> ∅)) /\
  AM100_node_red.Decoder [x05; x6a; x00; x80] None =
    Returned (<["activity" := VNum (Int 32768)]> (<["Error" := VBool false]> ∅)) /\
  AM100.Decoder [x01; x75; x32; x05; x6a; x00; x80] None =
    Returned (<["activity" := VNum (Int (-32768))]>
                (<["battery" := VNum (Int 50)]> (<["Error" := VBool false]> ∅))) /\
  AM100_node_red.Decoder [x01; x75; x32; x05; x6a; x00; x80] None =
    Returned (<["activity" := VNum (Int 32768)]>
                (<["battery" := VNum (Int 50)]> (<["Error" := VBool false]> ∅))).
Proof.
  assert (Hall : forall lo hi,
     (AM100.Decoder [x05; x6a; lo; hi] None <> AM100_node_red.Decoder [x05; x6a; lo; hi] None
      <-> 0x8000 <= uint16_le lo hi) /\
     (forall a b c d,
      AM100.Decoder [x06; x65; lo; hi; a; b; c; d] None <>
      AM100_node_red.Decoder [x06; x65; lo; hi; a; b; c; d] None
      <-> 0x8000 <= uint16_le lo hi) /\
     (AM100.Decoder [x08; x7d; lo; hi] None <> AM100_node_red.Decoder [x08; x7d; lo; hi] None
      <-> 0x8000 <= uint16_le lo hi) /\
     (AM100.Decoder [x09; x73; lo; hi] None <> AM100_node_red.Decoder [x09; x73; lo; hi] None
      <-> 0x8000 <= uint16_le lo hi)).
  { intros lo hi. open_decoders.
    destruct (AM100_16bit_records readInt16LE readInt16LE readInt16LE readInt16LE lo hi)
      as (-> & Hs & -> & ->).
    destruct (AM100_16bit_records readUInt16LE readUInt16LE readUInt16LE readUInt16LE lo hi)
      as (-> & Hu & -> & ->).
    cbn [finish decoded].
    rewrite readInt16LE_pair, readUInt16LE_pair.
    rewrite !Returned_insert_neq_iff, !VNum_neq_iff.
    split; [apply signed_differs_iff|].
    split; [|split; [apply signed_differs_iff | apply signed_tenths_differ_iff]].
    intros a b c d. rewrite Hs, Hu. cbn [finish decoded].
    rewrite readInt16LE_pair, readUInt16LE_pair.
    rewrite Returned_insert_neq_iff, VNum_neq_iff. apply signed_differs_iff. }
  assert (Hint : forall lo hi,
     VNum (Int (int16_le lo hi)) <> VNum (Int (uint16_le lo hi)) <-> 0x8000 <= uint16_le lo hi).
  { intros lo hi. rewrite VNum_neq_iff. apply signed_differs_iff. }
  assert (Htenths : forall lo hi,
     VNum (js_div (Int (int16_le lo hi)) (Int 10)) <>
     VNum (js_div (Int (uint16_le lo hi)) (Int 10)) <-> 0x8000 <= uint16_le lo hi).
  { intros lo hi. rewrite VNum_neq_iff. apply signed_tenths_differ_iff. }
  split; [|split; [|split; [|split; [exact Hall|repeat split; vm_compute; reflexivity]]]].
  - exists [x05; x6a; x00; x80].
    apply (proj1 (Hall x00 x80)). vm_compute. discriminate.
  - intros lo hi. cbv zeta.
    split; [|split; [|split; [|split; [|split; [apply Hint | apply Htenths]]]]].
    + rewrite <- readInt16LE_pair, <- readUInt16LE_pair.
      split; apply AM100_stores; solve_step.
    + intros a b c d. rewrite <- readInt16LE_pair, <- readUInt16LE_pair.
      split; apply AM100_stores; solve_step.
    + rewrite <- readInt16LE_pair, <- readUInt16LE_pair.
      split; apply AM100_stores; solve_step.
    + rewrite <- readInt16LE_pair, <- readUInt16LE_pair.
      split; apply AM100_stores; solve_step.
  - intros lo hi. split; [|split; [|split]].
    + apply (diverge_after_intro _ "activity" (VNum (Int (int16_le lo hi)))
               (VNum (Int (uint16_le lo hi)))); [| |apply Hint].
      * rewrite <- readInt16LE_pair. apply AM100_decodes_after; [reflexivity|]. solve_run.
      * rewrite <- readUInt16LE_pair. apply AM100_decodes_after; [reflexivity|]. solve_run.
    + intros a b c d.
      apply (diverge_after_intro _ "illumination" (VNum (Int (int16_le lo hi)))
               (VNum (Int (uint16_le lo hi)))); [| |apply Hint].
      * rewrite <- readInt16LE_pair. apply AM100_decodes_after; [reflexivity|]. solve_run.
      * rewrite <- readUInt16LE_pair. apply AM100_decodes_after; [reflexivity|]. solve_run.
    + apply (diverge_after_intro _ "tvoc" (VNum (Int (int16_le lo hi)))
               (VNum (Int (uint16_le lo hi)))); [| |apply Hint].
      * rewrite <- readInt16LE_pair. apply AM100_decodes_after; [reflexivity|]. solve_run.
      * rewrite <- readUInt16LE_pair. apply AM100_decodes_after; [reflexivity|]. solve_run.
    + apply (diverge_after_intro _ "pressure"
               (VNum (js_div (Int (int16_le lo hi)) (Int 10)))
               (VNum (js_div (Int (uint16_le lo hi)) (Int 10)))); [| |apply Htenths].
      * rewrite <- readInt16LE_pair. apply AM100_decodes_after; [reflexivity|]. solve_run.
      * rewrite <- readUInt16LE_pair. apply AM100_decodes_after; [reflexivity|]. solve_run.
Qed.

(** A pressure record of raw value 0x8000 after a battery record. *)
Lemma C9_divergence_witness :
  let pre := [x01; x75; x32] in
  let s := mkState 3 (<["battery" := VNum (Int 50)]> (<["Error" := VBool false]> ∅)) [2; 1; 0] in
  0x8000 <= uint16_le x00 x80 /\
  AM100.Decoder (pre ++ [x09; x73; x00; x80]) None <>
  AM100_node_red.Decoder (pre ++ [x09; x73; x00; x80]) None.
Proof.
  intros pre s.
  assert (H : 0x8000 <= uint16_le x00 x80) by (vm_compute; discriminate).
  split; [exact H|].
  destruct C9_ambience_variants_diverge_on_signedness as (_ & _ & Hafter & _).
  destruct (Hafter x00 x80) as (_ & _ & _ & Hp).
  assert (He1 : AM100.exec pre = Done s) by (vm_compute; reflexivity).
  assert (He2 : AM100_node_red.exec pre = Done s) by (vm_compute; reflexivity).
  assert (Hf : ~ flagged (decoded s)).
  { intros [Hf|Hf]; vm_compute in Hf; discriminate. }
  exact (proj2 (Hp pre s s He1 He2 eq_refl eq_refl Hf eq_refl) H).
Defined.

(** C10, as the claim states it, fails on truncation: it sets [Error]
    only in the soil decoder and only for a header.  In the ambience
    decoder a payload that ends after the first byte of a header ends with
    [error] set and [Error] false, and a temperature record cut short in
    its data sets no flag, in the ambience and in the soil decoder. *)
Lemma C10_truncation_does_not_always_set_Error :
  AM100.Decoder [x01; x75; x32; x03] None =
    Returned (<["error" := VBool true]>
                (<["battery" := VNum (Int 50)]> (<["Error" := VBool false]> ∅))) /\
  ~ only_Error_set (<["error" := VBool true]>
                      (<["battery" := VNum (Int 50)]> (<["Error" := VBool false]> ∅))) /\
  AM100.Decoder [x03; x67; xe6] None =
    Returned (<["temperature" := VNum (Flt 23.0)]> (<["Error" := VBool false]> ∅)) /\
  EM500_SMT.Decoder [x03; x67; xe6] None =
    Returned (<["temperature" := VNum (Flt 23.0)]> (<["Error" := VBool false]> ∅)) /\
  ~ flagged (<["temperature" := VNum (Flt 23.0)]> (<["Error" := VBool false]> ∅)).
Proof.
  split; [vm_compute; reflexivity|]. split; [|split; [|split]].
  - intros [HE _]. vm_compute in HE. discriminate.
  - vm_compute; reflexivity.
  - vm_compute; reflexivity.
  - intros [H|H]; vm_compute in H; discriminate.
Qed.

(** C10 (amended): the error indicator is two fields.  In the ambience
    and soil decoders [Error] starts false; a run that ends on an unmatched
    header with an ordinary channel id returns Error = false and
    error = true; one that ends on an unmatched 0xFF sub-type returns
    Error = true and no [error].  Truncation sets [Error] in the soil
    decoder only, when one byte is left where a header is expected; the
    ambience decoders have no length test and treat a header cut after its
    first byte as an unmatched one ([error], or [Error] when that byte is
    0xFF).  An iteration on a header of the table completes and leaves both
    fields as they were, whether or not its data bytes are there (in the
    soil decoder: for the six sound rows).  The light decoder returns for
    every input and port a result with neither field. *)
Theorem C10_error_indicator_is_split_over_two_fields :
  (forall bytes s,
     reaches (AM100.body bytes) (len bytes) AM100.init s ->
     cursor s < len bytes ->
     known AM100_table (elem bytes (cursor s)) (elem bytes (cursor s + 1)) = false ->
     exists d, AM100.Decoder bytes None = Returned d /\
       if seq (elem bytes (cursor s)) 0xFF then only_Error_set d else only_error_set d) /\
  (forall bytes s,
     reaches (AM100_node_red.body bytes) (len bytes) AM100_node_red.init s ->
     cursor s < len bytes ->
     known AM100_table (elem bytes (cursor s)) (elem bytes (cursor s + 1)) = false ->
     exists d, AM100_node_red.Decoder bytes None = Returned d /\
       if seq (elem bytes (cursor s)) 0xFF then only_Error_set d else only_error_set d) /\
  (forall bytes s,
     reaches (EM500_SMT.body bytes) (len bytes) EM500_SMT.init s ->
     cursor s + 2 <= len bytes ->
     known EM500_SMT_table (elem bytes (cursor s)) (elem bytes (cursor s + 1)) = false ->
     exists d, EM500_SMT.Decoder bytes None = Returned d /\
       if seq (elem bytes (cursor s)) 0xFF then only_Error_set d else only_error_set d) /\
  (forall bytes s,
     reaches (EM500_SMT.body bytes) (len bytes) EM500_SMT.init s ->
     cursor s < len bytes ->
     len bytes - 2 < cursor s ->
     exists d, EM500_SMT.Decoder bytes None = Returned d /\ only_Error_set d) /\
  (forall bytes s,
     reaches (AM100.body bytes) (len bytes) AM100.init s ->
     cursor s = len bytes - 1 ->
     exists d, AM100.Decoder bytes None = Returned d /\
       if seq (elem bytes (cursor s)) 0xFF then only_Error_set d else only_error_set d) /\
  (forall bytes s,
     reaches (AM100_node_red.body bytes) (len bytes) AM100_node_red.init s ->
     cursor s = len bytes - 1 ->
     exists d, AM100_node_red.Decoder bytes None = Returned d /\
       if seq (elem bytes (cursor s)) 0xFF then only_Error_set d else only_error_set d) /\
  (forall bytes s,
     known AM100_table (elem bytes (cursor s)) (elem bytes (cursor s + 1)) = true ->
     (exists s', AM100.body bytes s = Ok tt s' /\
                 decoded s' !! "Error" = decoded s !! "Error" /\
                 decoded s' !! "error" = decoded s !! "error") /\
     (exists s', AM100_node_red.body bytes s = Ok tt s' /\
                 decoded s' !! "Error" = decoded s !! "Error" /\
                 decoded s' !! "error" = decoded s !! "error")) /\
  (forall bytes s,
     cursor s + 2 <= len bytes ->
     known EM500_SMT_sound_rows (elem bytes (cursor s)) (elem bytes (cursor s + 1)) = true ->
     exists s', EM500_SMT.body bytes s = Ok tt s' /\
                decoded s' !! "Error" = decoded s !! "Error" /\
                decoded s' !! "error" = decoded s !! "error") /\
  (forall bytes port,
     exists d, EM500_LGT.Decoder bytes port = Returned d /\ no_error_field d) /\
  (AM100.init = start (<["Error" := VBool false]> ∅) /\
   AM100_node_red.init = start (<["Error" := VBool false]> ∅) /\
   EM500_SMT.init = start (<["Error" := VBool false]> ∅) /\
   EM500_LGT.init = start ∅).
Proof.
  assert (A : forall f1 f2 f3 f4 bytes s,
     reaches (AM100.body_with f1 f2 f3 f4 bytes) (len bytes) AM100.init s ->
     cursor s < len bytes ->
     known AM100_table (elem bytes (cursor s)) (elem bytes (cursor s + 1)) = false ->
     exists d, finish (run (AM100.body_with f1 f2 f3 f4) bytes AM100.init) = Returned d /\
       if seq (elem bytes (cursor s)) 0xFF then only_Error_set d else only_error_set d).
  { intros f1 f2 f3 f4 bytes s Hr Hlt Hk. eexists. split.
    - rewrite (AM100_exec_unknown _ _ _ _ bytes s Hr Hlt Hk). reflexivity.
    - apply clean_stopped. eapply AM100_reaches_clean, Hr. }
  assert (B : forall f1 f2 f3 f4 bytes s,
     known AM100_table (elem bytes (cursor s)) (elem bytes (cursor s + 1)) = true ->
     exists s', AM100.body_with f1 f2 f3 f4 bytes s = Ok tt s' /\
                decoded s' !! "Error" = decoded s !! "Error" /\
                decoded s' !! "error" = decoded s !! "error").
  { intros f1 f2 f3 f4 bytes s Hk.
    destruct (AM100_known_completes f1 f2 f3 f4 bytes s Hk) as [s' Hb].
    exists s'. split; [exact Hb|]. eapply AM100_keeps_flags, Hb. }
  assert (T : forall bytes s, cursor s = len bytes - 1 ->
     cursor s < len bytes /\
     known AM100_table (elem bytes (cursor s)) (elem bytes (cursor s + 1)) = false).
  { intros bytes s Hc. split; [lia|].
    replace (elem bytes (cursor s + 1)) with (@None Z); [apply known_truncated|].
    unfold elem. destruct (cursor s + 1 <? 0); [reflexivity|].
    rewrite lookup_ge_None_2; [reflexivity|]. unfold len in Hc. lia. }
  split; [intros bytes s; apply A|].
  split; [intros bytes s; apply A|].
  split.
  { intros bytes s Hr Hlt Hk. eexists. split.
    - unfold EM500_SMT.Decoder. cbn [port_accepted negb].
      rewrite (EM500_SMT_exec_unknown bytes s Hr Hlt Hk). reflexivity.
    - apply clean_stopped. eapply EM500_SMT_reaches_clean, Hr. }
  split.
  { intros bytes s Hr Hlt Htr. eexists. split.
    - unfold EM500_SMT.Decoder. cbn [port_accepted negb].
      rewrite (EM500_SMT_exec_truncated bytes s Hr Hlt Htr). reflexivity.
    - destruct (EM500_SMT_reaches_clean bytes s Hr) as [HE He].
      split; cbn [finish decoded]; [apply lookup_insert_eq | now rewrite lookup_insert_ne]. }
  split.
  { intros bytes s Hr Hc. destruct (T bytes s Hc) as [Hlt Hk]. now apply A. }
  split.
  { intros bytes s Hr Hc. destruct (T bytes s Hc) as [Hlt Hk]. now apply A. }
  split.
  { intros bytes s Hk. split; apply B; exact Hk. }
  split.
  { intros bytes s Hlen Hk.
    destruct (EM500_SMT_sound_completes bytes s Hlen Hk) as [s' Hb].
    exists s'. split; [exact Hb|]. eapply EM500_SMT_keeps_flags, Hb. }
  split.
  { intros bytes port.
    destruct (EM500_LGT_loop_no_flags bytes (length bytes) EM500_LGT.init)
      as (s' & He & HE & Hl).
    { unfold len. simpl. lia. }
    exists (decoded s'). split.
    - unfold EM500_LGT.Decoder, EM500_LGT.exec, run. now rewrite He.
    - split; [rewrite HE | rewrite Hl]; reflexivity. }
  repeat split.
Qed.

Lemma C10_error_indicator_witness :
  let bytes := [x01; x75; x32; x02; x99] in
  let s := mkState 3 (<["battery" := VNum (Int 50)]> (<["Error" := VBool false]> ∅)) [2; 1; 0] in
  reaches (AM100.body bytes) (len bytes) AM100.init s /\
  cursor s < len bytes /\
  known AM100_table (elem bytes (cursor s)) (elem bytes (cursor s + 1)) = false /\
  exists d, AM100.Decoder bytes None = Returned d /\ only_error_set d.
Proof.
  intros bytes s.
  assert (Hr : reaches (AM100.body bytes) (len bytes) AM100.init s).
  { apply (reaches_step _ _ _ AM100.init); [apply reaches_start | reflexivity |].
    vm_compute. reflexivity. }
  assert (Hlt : cursor s < len bytes) by reflexivity.
  assert (Hk : known AM100_table (elem bytes (cursor s)) (elem bytes (cursor s + 1)) = false)
    by reflexivity.
  split; [exact Hr|]. split; [exact Hlt|]. split; [exact Hk|].
  exact (proj1 C10_error_indicator_is_split_over_two_fields bytes s Hr Hlt Hk).
Defined.


(** * Further properties *)

(** X1: when a decoder has consumed a prefix of the payload exactly (the
    loop index equals the length of the prefix) and set no error flag, then
    decoding the prefix followed by any further bytes is decoding those
    bytes with the object built so far as the initial [decoded].  Holds for
    the two ambience decoders and the soil decoder. *)
Theorem decoding_continues_after_a_consumed_prefix (pre rest : list byte) (s : state) :
  cursor s = len pre -> ~ flagged (decoded s) ->
  (AM100.exec pre = Done s ->
   AM100.Decoder (pre ++ rest) None = finish (run AM100.body rest (start (decoded s)))) /\
  (AM100_node_red.exec pre = Done s ->
   AM100_node_red.Decoder (pre ++ rest) None =
   finish (run AM100_node_red.body rest (start (decoded s)))) /\
  (EM500_SMT.exec pre = Done s ->
   EM500_SMT.Decoder (pre ++ rest) None = finish (run EM500_SMT.body rest (start (decoded s)))).
Proof.
  intros Hc Hclean.
  unfold AM100.Decoder, AM100_node_red.Decoder, EM500_SMT.Decoder. cbn [port_accepted negb].
  repeat apply conj; intros Hrun.
  - apply (run_app AM100.body); auto.
    + intros b t t'. apply AM100_progress.
    + intros p r t t'. apply AM100_prefix_step.
    + intros p r. apply AM100_body_shift.
    + intros b t t'. apply AM100_break_flagged.
  - apply (run_app AM100_node_red.body); auto.
    + intros b t t'. apply AM100_progress.
    + intros p r t t'. apply AM100_prefix_step.
    + intros p r. apply AM100_body_shift.
    + intros b t t'. apply AM100_break_flagged.
  - apply (run_app EM500_SMT.body); auto.
    + apply EM500_SMT_progress.
    + apply EM500_SMT_prefix_step.
    + apply EM500_SMT_body_shift.
    + apply EM500_SMT_break_flagged.
Qed.

Lemma decoding_continues_witness :
  let pre := [x01; x75; x32] in
  let rest := [x03; x67; xe6; x00] in
  let s := mkState 3 (<["battery" := VNum (Int 50)]> (<["Error" := VBool false]> ∅)) [2; 1; 0] in
  cursor s = len pre /\ ~ flagged (decoded s) /\ AM100.exec pre = Done s /\
  AM100.Decoder (pre ++ rest) None = finish (run AM100.body rest (start (decoded s))).
Proof.
  intros pre rest s.
  assert (Hc : cursor s = len pre) by reflexivity.
  assert (Hf : ~ flagged (decoded s)).
  { intros [H|H]; vm_compute in H; discriminate. }
  assert (Hrun : AM100.exec pre = Done s) by (vm_compute; reflexivity).
  split; [exact Hc|]. split; [exact Hf|]. split; [exact Hrun|].
  exact (proj1 (decoding_continues_after_a_consumed_prefix pre rest s Hc Hf) Hrun).
Defined.

(** ** How a run ends: flags and exceptions *)

Lemma loop_raised_inv (body : M unit) n fuel s0 t e :
  reaches body n s0 t -> loop body n fuel t = Raised e ->
  exists s1, reaches body n s0 s1 /\ cursor s1 < n /\ body s1 = Err e.
Proof.
  revert t. induction fuel as [|fuel IH]; intros t Hr; simpl;
    destruct (Z.ltb_spec (cursor t) n) as [Hlt|Hge]; try discriminate.
  destruct (body t) as [[] t'|t'|e'] eqn:Hb; try discriminate.
  - apply IH. eapply reaches_step; eauto.
  - intros [= <-]. exists t. auto.
Qed.

Lemma loop_reaches_raise (body : M unit) n fuel s0 s e :
  (forall t t', body t = Ok tt t' -> cursor t < cursor t') ->
  reaches body n s0 s -> n - cursor s0 <= Z.of_nat fuel ->
  cursor s < n -> body s = Err e ->
  loop body n fuel s0 = Raised e.
Proof.
  intros Hprog Hr Hfuel Hlt Hb. rewrite (loop_reaches _ _ Hprog _ _ _ Hr Hfuel).
  pose proof (reaches_cursor _ _ Hprog _ _ Hr) as Hc.
  destruct fuel as [|fuel]; [lia|]. simpl.
  apply Z.ltb_lt in Hlt. now rewrite Hlt, Hb.
Qed.

Lemma AM100_never_raises f1 f2 f3 f4 bytes s e :
  AM100.body_with f1 f2 f3 f4 bytes s <> Err e.
Proof. unfold_body. repeat split_if; discriminate. Qed.

Lemma EM500_SMT_raises_iff bytes s :
  cursor s + 2 <= len bytes ->
  (exists e, EM500_SMT.body bytes s = Err e) <-> calls_missing_helper bytes s = true.
Proof.
  intros Hlen. unfold calls_missing_helper. unfold_body.
  destruct (Z.ltb_spec (len bytes - 2) (cursor s)); [lia|].
  destruct (elem bytes (cursor s)) as [id|], (elem bytes (cursor s + 1)) as [type|];
    cbn [seq andb orb];
    repeat split_eqb; split; try reflexivity; try discriminate;
    try (intros [? ?]; discriminate); try (intros _; eexists; reflexivity).
Qed.

Lemma EM500_SMT_short_never_raises bytes s e :
  len bytes - 2 < cursor s -> EM500_SMT.body bytes s <> Err e.
Proof. intros H. rewrite EM500_SMT_truncated by assumption. discriminate. Qed.

Lemma AM100_run_returns f1 f2 f3 f4 bytes :
  exists s, run (AM100.body_with f1 f2 f3 f4) bytes AM100.init = Done s.
Proof.
  destruct (run (AM100.body_with f1 f2 f3 f4) bytes AM100.init) as [s|e|] eqn:Hrun.
  - now exists s.
  - apply (loop_raised_inv _ _ _ AM100.init) in Hrun as (s1 & _ & _ & Hb);
      [|apply reaches_start].
    now apply AM100_never_raises in Hb.
  - apply run_not_out_of_fuel in Hrun; [contradiction|].
    intros b t t'. apply AM100_progress.
Qed.

Lemma clean_not_flagged s : clean s -> ~ flagged (decoded s).
Proof. intros [HE He] [H|H]; congruence. Qed.

Lemma ambience_flag_iff f1 f2 f3 f4 bytes :
  let body := AM100.body_with f1 f2 f3 f4 in
  exists s,
    run body bytes AM100.init = Done s /\
    (flagged (decoded s) <->
     exists t, reaches (body bytes) (len bytes) AM100.init t /\
               cursor t < len bytes /\
               known AM100_table (elem bytes (cursor t)) (elem bytes (cursor t + 1)) = false) /\
    (~ flagged (decoded s) -> len bytes <= cursor s).
Proof.
  intros body. subst body. destruct (AM100_run_returns f1 f2 f3 f4 bytes) as [s Hrun].
  exists s. split; [exact Hrun|].
  pose proof (loop_done_inv _ _ _ AM100.init _ _ (reaches_start _ _ _) Hrun) as Hend.
  split; [split|].
  - intros Hflag. destruct Hend as [[Hr _] | (t & Hr & Hlt & Hb)].
    + apply AM100_reaches_clean, clean_not_flagged in Hr. contradiction.
    + exists t. split; [exact Hr|]. split; [exact Hlt|].
      destruct (known AM100_table _ _) eqn:Hk; [|reflexivity].
      apply (AM100_known_completes f1 f2 f3 f4) in Hk as [t' Hk]. congruence.
  - intros (t & Hr & Hlt & Hk).
    pose proof (AM100_exec_unknown _ _ _ _ bytes t Hr Hlt Hk) as Hstop.
    rewrite Hrun in Hstop. injection Hstop as ->. apply stopped_flagged.
  - intros Hclean. destruct Hend as [[_ Hge] | (t & _ & _ & Hb)]; [exact Hge|].
    apply AM100_break_flagged in Hb. contradiction.
Qed.

(** X2: in the ambience decoders a result carries an error flag exactly
    when the run came to a header that is not in the table; a result
    without a flag means the loop ran to the end of the payload. *)
Theorem ambience_result_is_flagged_iff_a_header_is_unmatched (bytes : list byte) :
  (exists s,
     AM100.exec bytes = Done s /\
     (flagged (decoded s) <->
      exists t, reaches (AM100.body bytes) (len bytes) AM100.init t /\
                cursor t < len bytes /\
                known AM100_table (elem bytes (cursor t)) (elem bytes (cursor t + 1)) = false) /\
     (~ flagged (decoded s) -> len bytes <= cursor s)) /\
  (exists s,
     AM100_node_red.exec bytes = Done s /\
     (flagged (decoded s) <->
      exists t, reaches (AM100_node_red.body bytes) (len bytes) AM100_node_red.init t /\
                cursor t < len bytes /\
                known AM100_table (elem bytes (cursor t)) (elem bytes (cursor t + 1)) = false) /\
     (~ flagged (decoded s) -> len bytes <= cursor s)).
Proof.
  split.
  - apply (ambience_flag_iff readInt16LE readInt16LE readInt16LE readInt16LE).
  - apply (ambience_flag_iff readUInt16LE readUInt16LE readUInt16LE readUInt16LE).
Qed.

(** The error fields of every returned object are in one of three states. *)
Lemma flag_states_of_outcome (body : M unit) n fuel s0 s :
  (forall t t', body t = Ok tt t' -> clean t -> clean t') ->
  (forall t t', body t = Brk t' -> clean t ->
                only_error_set (decoded t') \/ only_Error_set (decoded t')) ->
  clean s0 -> loop body n fuel s0 = Done s ->
  no_flag_set (decoded s) \/ only_error_set (decoded s) \/ only_Error_set (decoded s).
Proof.
  intros Hok Hbrk H0 Hrun.
  destruct (loop_done_inv _ _ _ s0 _ _ (reaches_start _ _ _) Hrun)
    as [[Hr _] | (t & Hr & _ & Hb)].
  - left. change (clean s).
    apply (reaches_invariant body n clean s0 s); [|exact H0|exact Hr]. intros t t' _. apply Hok.
  - right. apply (Hbrk t); [exact Hb|].
    apply (reaches_invariant body n clean s0 t); [|exact H0|exact Hr]. intros u u' _. apply Hok.
Qed.

Ltac solve_break_states :=
  unfold clean, only_error_set, only_Error_set; unfold_body;
  repeat split_if; intros H [HE He]; inversion H; subst; cbn [decoded];
  rewrite ?lookup_insert_eq, ?lookup_insert_ne by done; auto.

Lemma AM100_break_states f1 f2 f3 f4 bytes t t' :
  AM100.body_with f1 f2 f3 f4 bytes t = Brk t' -> clean t ->
  only_error_set (decoded t') \/ only_Error_set (decoded t').
Proof. solve_break_states. Qed.

Lemma EM500_SMT_break_states bytes t t' :
  EM500_SMT.body bytes t = Brk t' -> clean t ->
  only_error_set (decoded t') \/ only_Error_set (decoded t').
Proof. solve_break_states. Qed.

Lemma AM100_keeps_clean f1 f2 f3 f4 bytes t t' :
  AM100.body_with f1 f2 f3 f4 bytes t = Ok tt t' -> clean t -> clean t'.
Proof. intros Hb [HE He]. apply AM100_keeps_flags in Hb as [H1 H2]. split; congruence. Qed.

Lemma EM500_SMT_keeps_clean bytes t t' :
  EM500_SMT.body bytes t = Ok tt t' -> clean t -> clean t'.
Proof. intros Hb [HE He]. apply EM500_SMT_keeps_flags in Hb as [H1 H2]. split; congruence. Qed.

Lemma init_clean : clean AM100.init.
Proof. split; reflexivity. Qed.

(** X3: whatever the bytes, an object returned by an ambience or soil
    decoder has its two error fields in one of three states: [Error] false
    and no [error]; [Error] false and [error] true; [Error] true and no
    [error].  Both flags are never set together, and with an accepted port
    the decoders never return null. *)
Theorem error_fields_are_in_one_of_three_states (bytes : list byte) :
  let three_states r :=
    match r with
    | Returned d => no_flag_set d \/ only_error_set d \/ only_Error_set d
    | Thrown _ => True
    | Null | NoFuel => False
    end in
  three_states (AM100.Decoder bytes None) /\
  three_states (AM100_node_red.Decoder bytes None) /\
  three_states (EM500_SMT.Decoder bytes None).
Proof.
  intros three_states. subst three_states.
  unfold AM100.Decoder, AM100_node_red.Decoder, EM500_SMT.Decoder. cbn [port_accepted negb].
  repeat apply conj.
  - destruct (AM100.exec bytes) as [s|e|] eqn:Hrun; cbn [finish]; [|exact I|].
    + eapply flag_states_of_outcome; [| |apply init_clean|exact Hrun].
      * intros t t'. apply AM100_keeps_clean.
      * intros t t'. apply AM100_break_states.
    + eapply run_not_out_of_fuel; [|exact Hrun]. intros b t t'. apply AM100_progress.
  - destruct (AM100_node_red.exec bytes) as [s|e|] eqn:Hrun; cbn [finish]; [|exact I|].
    + eapply flag_states_of_outcome; [| |apply init_clean|exact Hrun].
      * intros t t'. apply AM100_keeps_clean.
      * intros t t'. apply AM100_break_states.
    + eapply run_not_out_of_fuel; [|exact Hrun]. intros b t t'. apply AM100_progress.
  - destruct (EM500_SMT.exec bytes) as [s|e|] eqn:Hrun; cbn [finish]; [|exact I|].
    + eapply flag_states_of_outcome; [| |apply init_clean|exact Hrun].
      * intros t t'. apply EM500_SMT_keeps_clean.
      * intros t t'. apply EM500_SMT_break_states.
    + eapply run_not_out_of_fuel; [|exact Hrun]. apply EM500_SMT_progress.
Qed.

Lemma EM500_LGT_run_returns bytes : exists s, EM500_LGT.exec bytes = Done s.
Proof.
  destruct (EM500_LGT_loop_no_flags bytes (length bytes) EM500_LGT.init) as (s & Hs & _).
  { unfold len. simpl. lia. }
  now exists s.
Qed.

(** X4: the soil decoder throws exactly when its run comes to a complete
    header 0xFF with type 0x09, 0x0A or 0x16 (the branches that call
    readVersion and readHexBytes); the ambience and light decoders never
    throw, whatever the bytes and the port. *)
Theorem soil_decoder_throws_iff_a_missing_helper_is_called (bytes : list byte) :
  ((exists e, EM500_SMT.Decoder bytes None = Thrown e) <->
   exists t, reaches (EM500_SMT.body bytes) (len bytes) EM500_SMT.init t /\
             cursor t + 2 <= len bytes /\ calls_missing_helper bytes t = true) /\
  (forall port e,
     AM100.Decoder bytes port <> Thrown e /\
     AM100_node_red.Decoder bytes port <> Thrown e /\
     EM500_LGT.Decoder bytes port <> Thrown e).
Proof.
  split; [split|].
  - intros [e He]. unfold EM500_SMT.Decoder in He. cbn [port_accepted negb] in He.
    destruct (EM500_SMT.exec bytes) as [s|e'|] eqn:Hrun; try discriminate.
    apply (loop_raised_inv _ _ _ EM500_SMT.init) in Hrun as (t & Hr & Hlt & Hb);
      [|apply reaches_start].
    exists t. split; [exact Hr|].
    destruct (Z_le_gt_dec (cursor t + 2) (len bytes)) as [Hle|Hgt].
    + split; [exact Hle|]. apply EM500_SMT_raises_iff; eauto.
    + exfalso. apply (EM500_SMT_short_never_raises bytes t e'); [lia | exact Hb].
  - intros (t & Hr & Hle & Hcall).
    apply EM500_SMT_raises_iff in Hcall as [e He]; [|exact Hle].
    exists e. unfold EM500_SMT.Decoder. cbn [port_accepted negb].
    unfold EM500_SMT.exec, run.
    rewrite (loop_reaches_raise _ _ _ _ t e (EM500_SMT_progress bytes) Hr);
      [reflexivity | apply run_fuel | lia | exact He].
  - intros port e. unfold AM100.Decoder, AM100_node_red.Decoder, EM500_LGT.Decoder.
    destruct (AM100_run_returns readInt16LE readInt16LE readInt16LE readInt16LE bytes)
      as [s1 H1]. change (AM100.exec bytes = Done s1) in H1.
    destruct (AM100_run_returns readUInt16LE readUInt16LE readUInt16LE readUInt16LE bytes)
      as [s2 H2]. change (AM100_node_red.exec bytes = Done s2) in H2.
    destruct (EM500_LGT_run_returns bytes) as [s3 H3].
    rewrite H1, H2, H3. destruct (negb (port_accepted port)); repeat split; discriminate.
Qed.

Lemma ambience_loops_agree_or_diverge bytes fuel t :
  reaches (AM100.body bytes) (len bytes) AM100.init t ->
  loop (AM100.body bytes) (len bytes) fuel t <>
  loop (AM100_node_red.body bytes) (len bytes) fuel t ->
  exists t', reaches (AM100.body bytes) (len bytes) AM100.init t' /\
             cursor t' < len bytes /\ diverging_record bytes t'.
Proof.
  revert t. induction fuel as [|fuel IH]; intros t Hr; simpl;
    destruct (Z.ltb_spec (cursor t) (len bytes)) as [Hlt|Hge]; try congruence.
  destruct (readUInt16LE_int (slice bytes (cursor t + 2) (cursor t + 4))) as (u & Hu & Hrange).
  pose proof (readInt16LE_of_unsigned _ _ Hu) as Hs.
  destruct ((seq (elem bytes (cursor t)) 0x05 && seq (elem bytes (cursor t + 1)) 0x6A) ||
            (seq (elem bytes (cursor t)) 0x06 && seq (elem bytes (cursor t + 1)) 0x65) ||
            (seq (elem bytes (cursor t)) 0x08 && seq (elem bytes (cursor t + 1)) 0x7D) ||
            (seq (elem bytes (cursor t)) 0x09 && seq (elem bytes (cursor t + 1)) 0x73)) eqn:Hfour.
  - destruct (Z.leb_spec 0x8000 u) as [Hbig|Hsmall].
    + intros _. exists t. split; [exact Hr|]. split; [exact Hlt|].
      split; [exact Hfour|]. exists u. auto.
    + rewrite <- (ambience_bodies_agree bytes t) by (right; congruence).
      destruct (AM100.body bytes t) as [[] t1|t1|e] eqn:Hb; try congruence.
      apply IH. eapply reaches_step; eauto.
  - rewrite <- (ambience_bodies_agree bytes t) by (left; exact Hfour).
    destruct (AM100.body bytes t) as [[] t1|t1|e] eqn:Hb; try congruence.
    apply IH. eapply reaches_step; eauto.
Qed.

(** X5: whenever the decoders of AM100.js and of AM100-node-red.js return
    different results for the same bytes and port, the run came to an
    activity, illumination, tvoc or pressure record whose raw 16-bit value
    is 0x8000 or more. *)
Theorem ambience_variants_differ_only_on_a_diverging_record
    (bytes : list byte) (port : option Z) :
  AM100.Decoder bytes port <> AM100_node_red.Decoder bytes port ->
  exists t, reaches (AM100.body bytes) (len bytes) AM100.init t /\
            cursor t < len bytes /\ diverging_record bytes t.
Proof.
  intros Hne. apply (ambience_loops_agree_or_diverge bytes (length bytes) AM100.init).
  - apply reaches_start.
  - intros Heq. apply Hne. unfold AM100.Decoder, AM100_node_red.Decoder.
    destruct (negb (port_accepted port)); [reflexivity|].
    unfold AM100.exec, AM100_node_red.exec, run.
    change AM100_node_red.init with AM100.init. now rewrite Heq.
Qed.

Lemma ambience_variants_differ_witness :
  let bytes := [x05; x6a; x00; x80] in
  AM100.Decoder bytes None <> AM100_node_red.Decoder bytes None /\
  exists t, reaches (AM100.body bytes) (len bytes) AM100.init t /\
            cursor t < len bytes /\ diverging_record bytes t.
Proof.
  intros bytes.
  assert (Hne : AM100.Decoder bytes None <> AM100_node_red.Decoder bytes None).
  { intros Heq. apply Returned_inj in Heq.
    apply (f_equal (fun d : gmap string value => d !! "activity")) in Heq.
    vm_compute in Heq. discriminate. }
  split; [exact Hne|].
  exact (ambience_variants_differ_only_on_a_diverging_record bytes None Hne).
Defined.

(** ** The readers on arbitrary slices *)

Lemma elem_nil k : elem [] k = None.
Proof. unfold elem. destruct (k <? 0); reflexivity. Qed.

Lemma readUInt16LE_le16 bytes : readUInt16LE bytes = Int (le16 bytes).
Proof.
  destruct bytes as [|lo [|hi tl]].
  - reflexivity.
  - pose proof (byte_val_range lo).
    unfold readUInt16LE, le16, js_shl, js_add, js_and, ToInt32.
    change (elem [lo] 1) with (@None Z). change (elem [lo] 0) with (Some (byte_val lo)).
    cbn [ToNumber].
    change (wrap32 (match NaN with Int z => wrap32 z | Flt f => wrap32 (truncF f) end
                    ≪ Z.land 8 31)) with 0.
    rewrite Z.add_0_l, wrap32_small by lia. change (wrap32 65535) with (2 ^ 16 - 1).
    rewrite land_low_bits by lia. reflexivity.
  - change (readUInt16LE (lo :: hi :: tl)) with (readUInt16LE [lo; hi]).
    apply readUInt16LE_pair.
Qed.

Lemma le16_range bytes : 0 <= le16 bytes < 0x10000.
Proof.
  destruct bytes as [|lo [|hi tl]]; cbn [le16]; try lia.
  - pose proof (byte_val_range lo). lia.
  - pose proof (byte_val_range lo). pose proof (byte_val_range hi). lia.
Qed.

(** X6: on every byte array [readUInt16LE] is the first byte plus 256
    times the second, a missing byte counting as 0 and further bytes being
    ignored; [readInt16LE] is its two's-complement reading; the unsigned
    value lies in 0..65535. *)
Theorem sixteen_bit_readers_on_any_slice (bytes : list byte) :
  readUInt16LE bytes = Int (le16 bytes) /\
  readInt16LE bytes =
    Int (if 0x8000 <=? le16 bytes then le16 bytes - 0x10000 else le16 bytes) /\
  0 <= le16 bytes < 0x10000.
Proof.
  split; [apply readUInt16LE_le16|].
  split; [apply readInt16LE_of_unsigned, readUInt16LE_le16 | apply le16_range].
Qed.


Lemma land_low_byte h l m :
  0 <= l < 256 -> 0 <= m < 256 -> Z.land (256 * h + l) m = Z.land l m.
Proof.
  intros Hl Hm.
  rewrite <- (land_low_bits m 8) at 1 by lia.
  rewrite (Z.land_comm m), Z.land_assoc.
  replace (2 ^ 8 - 1) with (Z.ones 8) by reflexivity.
  rewrite Z.land_ones by lia. f_equal.
  change (2 ^ 8) with 256. Z.div_mod_to_equations; lia.
Qed.

Lemma sensor_flag hi lo k :
  0 <= k < 7 ->
  js_neq (js_and (Int (256 * byte_val hi + byte_val lo)) (Int (2 ^ k))) (Int 0) =
  Z.testbit (byte_val lo) k.
Proof.
  intros Hk. pose proof (byte_val_range hi). pose proof (byte_val_range lo).
  assert (H2k : 0 < 2 ^ k < 256).
  { split; [apply Z.pow_pos_nonneg; lia|].
    change 256 with (2 ^ 8). apply Z.pow_lt_mono_r; lia. }
  unfold js_neq, js_and, ToInt32. rewrite !wrap32_small by lia.
  rewrite land_low_byte by lia.
  rewrite Z.land_comm.
  replace (2 ^ k) with (Z.shiftl 1 k) by (rewrite Z.shiftl_mul_pow2; lia).
  destruct (Z.testbit (byte_val lo) k) eqn:Hbit.
  - assert (Hb : Z.land (Z.shiftl 1 k) (byte_val lo) = Z.shiftl 1 k).
    { apply Z.bits_inj'. intros n Hn. rewrite Z.land_spec, Z.shiftl_spec by lia.
      destruct (Z.eq_dec n k) as [->|Hne].
      - rewrite Hbit, Z.sub_diag. reflexivity.
      - destruct (Z_lt_le_dec n k).
        + rewrite (Z.testbit_neg_r 1) by lia. reflexivity.
        + replace (Z.testbit 1 (n - k)) with false; [reflexivity|].
          symmetry. change 1 with (Z.ones 1). apply Z.ones_spec_high. lia. }
    rewrite Hb. rewrite Z.shiftl_mul_pow2 by lia.
    destruct (Z.eqb_spec (1 * 2 ^ k) 0); [lia | reflexivity].
  - assert (Hb : Z.land (Z.shiftl 1 k) (byte_val lo) = 0).
    { apply Z.bits_inj'. intros n Hn. rewrite Z.land_spec, Z.shiftl_spec, Z.bits_0 by lia.
      destruct (Z.eq_dec n k) as [->|Hne].
      - rewrite Hbit. apply andb_false_r.
      - destruct (Z_lt_le_dec n k).
        + rewrite (Z.testbit_neg_r 1) by lia. reflexivity.
        + replace (Z.testbit 1 (n - k)) with false; [reflexivity|].
          symmetry. change 1 with (Z.ones 1). apply Z.ones_spec_high. lia. }
    rewrite Hb. reflexivity.
Qed.


(** ** Hexadecimal strings; records cut short *)

Lemma substring_all s : String.substring 0 (String.length s) s = s.
Proof. induction s as [|c s IH]; simpl; [reflexivity | rewrite IH; reflexivity]. Qed.

Lemma substr_tail c s : substr (String c s) 1 = s.
Proof.
  unfold substr. cbn [String.length].
  replace (1 <? 0) with false by reflexivity.
  rewrite Z.min_l by lia. change (Z.to_nat 1) with 1%nat.
  replace (Z.to_nat (Z.of_nat (S (String.length s)) - 1)) with (String.length s) by lia.
  cbn [String.substring]. apply substring_all.
Qed.

Lemma app_assoc_string (a b c : string) : (a +:+ b) +:+ c = a +:+ (b +:+ c).
Proof.
  induction a as [|x a IH]; [reflexivity|].
  change (String x ((a +:+ b) +:+ c) = String x (a +:+ (b +:+ c))).
  rewrite IH. reflexivity.
Qed.

Lemma app_empty_r (a : string) : a +:+ "" = a.
Proof.
  induction a as [|x a IH]; [reflexivity|].
  change (String x (a +:+ "") = String x a). rewrite IH. reflexivity.
Qed.

Lemma readHexBytes_fold bytes acc :
  fold_left (fun result b => result +:+ "-" +:+ encodeHex b) bytes acc =
  acc +:+ fold_right (fun b r => "-" +:+ hex2 b +:+ r) "" bytes.
Proof.
  revert acc. induction bytes as [|b bytes IH]; intros acc; cbn [fold_left fold_right].
  - symmetry. apply app_empty_r.
  - rewrite IH, encodeHex_hex2, !app_assoc_string. reflexivity.
Qed.

Lemma concat_hex2 b bytes :
  String.concat "-" (map hex2 (b :: bytes)) =
  hex2 b +:+ fold_right (fun b r => "-" +:+ hex2 b +:+ r) "" bytes.
Proof.
  revert b. induction bytes as [|b' bytes IH]; intros b.
  - reflexivity.
  - change (String.concat "-" (map hex2 (b :: b' :: bytes)))
      with (hex2 b +:+ "-" +:+ String.concat "-" (map hex2 (b' :: bytes))).
    rewrite IH. reflexivity.
Qed.

(** X8: [readHexBytes] of any byte array is the two-digit lowercase
    hexadecimal writings of its bytes joined by hyphens (the empty string
    for the empty array). *)
Theorem readHexBytes_joins_two_digit_hex_with_hyphens (bytes : list byte) :
  readHexBytes bytes = String.concat "-" (map hex2 bytes).
Proof.
  unfold readHexBytes. rewrite readHexBytes_fold.
  destruct bytes as [|b bytes]; [reflexivity|].
  rewrite concat_hex2. cbn [fold_right]. apply substr_tail.
Qed.

(** A record of the table whose data bytes are missing in part or in whole. *)
Lemma AM100_short_record f1 f2 f3 f4 id type width data :
  In (id, type, width) AM100_table ->
  len data < width ->
  let bytes := byte_of id :: byte_of type :: data in
  exists s,
    run (AM100.body_with f1 f2 f3 f4) bytes AM100.init = Done s /\
    cursor s = 2 + width /\ clean s.
Proof.
  intros Hrow Hlen bytes. subst bytes. unfold len in Hlen.
  table_rows Hrow; fix_length data Hlen.
  all: eexists; (split; [eval_decoder; reflexivity|]); repeat split; solve_lookups.
Qed.

Lemma EM500_SMT_short_record id type width data :
  In (id, type, width) EM500_SMT_sound_rows ->
  len data < width ->
  let bytes := byte_of id :: byte_of type :: data in
  exists s,
    EM500_SMT.exec bytes = Done s /\ cursor s = 2 + width /\ clean s.
Proof.
  intros Hrow Hlen bytes. subst bytes. unfold len in Hlen.
  table_rows Hrow; fix_length data Hlen.
  all: eexists; (split; [eval_decoder; reflexivity|]); repeat split; solve_lookups.
Qed.

Lemma EM500_LGT_short_record id type width data :
  In (id, type, width) EM500_LGT_table ->
  len data < width ->
  let bytes := byte_of id :: byte_of type :: data in
  exists s,
    EM500_LGT.exec bytes = Done s /\ cursor s = 2 + width /\
    no_error_field (decoded s).
Proof.
  intros Hrow Hlen bytes. subst bytes. unfold len in Hlen.
  table_rows Hrow; fix_length data Hlen.
  all: eexists; (split; [eval_decoder; reflexivity|]); repeat split; solve_lookups.
Qed.



Lemma readUInt16BE_short data : (length data < 2)%nat -> readUInt16BE data = NaN.
Proof.
  intros Hlen. destruct data as [|b0 [|b1 data]]; [| |simpl in Hlen; lia].
  - reflexivity.
  - destruct b0; reflexivity.
Qed.

Lemma bcd22ToVersion_NaN : bcd22ToVersion NaN = Flt 0.
Proof. reflexivity. Qed.

Lemma sensor_flag_NaN m : js_neq (js_and NaN (Int m)) (Int 0) = false.
Proof. reflexivity. Qed.

Lemma sensor_bits_zero : sensor_bits x00 = mkEnabledSensors false false false false false false false.
Proof. reflexivity. Qed.



(** ** Scaled fields *)

Lemma tenths_recovered_all : all_suffixes 16 0 tenths_recovered = true.
Proof. vm_compute. reflexivity. Qed.

Lemma halves_recovered_all : all_suffixes 8 0 halves_recovered = true.
Proof. vm_compute. reflexivity. Qed.

Lemma tenths_inj s1 s2 :
  - 0x8000 <= s1 < 0x8000 -> - 0x8000 <= s2 < 0x8000 ->
  PrimFloat.div (Z2F s1) (Z2F 10) = PrimFloat.div (Z2F s2) (Z2F 10) -> s1 = s2.
Proof.
  intros H1 H2 Heq.
  pose proof (all_suffixes_spec 16 0 tenths_recovered (s1 + 0x8000) tenths_recovered_all) as R1.
  pose proof (all_suffixes_spec 16 0 tenths_recovered (s2 + 0x8000) tenths_recovered_all) as R2.
  change (2 ^ Z.of_nat 16) with 0x10000 in R1, R2.
  specialize (R1 ltac:(lia)). specialize (R2 ltac:(lia)).
  unfold tenths_recovered in R1, R2. cbv zeta in R1, R2.
  replace (s1 + 0x8000 - 0x8000) with s1 in R1 by lia.
  replace (s2 + 0x8000 - 0x8000) with s2 in R2 by lia.
  rewrite Heq in R1. apply Z.eqb_eq in R1, R2. lia.
Qed.

Lemma halves_inj b1 b2 :
  0 <= b1 < 256 -> 0 <= b2 < 256 ->
  PrimFloat.div (Z2F b1) (Z2F 2) = PrimFloat.div (Z2F b2) (Z2F 2) -> b1 = b2.
Proof.
  intros H1 H2 Heq.
  pose proof (all_suffixes_spec 8 0 halves_recovered b1 halves_recovered_all) as R1.
  pose proof (all_suffixes_spec 8 0 halves_recovered b2 halves_recovered_all) as R2.
  change (2 ^ Z.of_nat 8) with 256 in R1, R2.
  specialize (R1 ltac:(lia)). specialize (R2 ltac:(lia)).
  unfold halves_recovered in R1, R2.
  rewrite Heq in R1. apply Z.eqb_eq in R1, R2. lia.
Qed.

Lemma byte_val_inj b1 b2 : byte_val b1 = byte_val b2 -> b1 = b2.
Proof.
  unfold byte_val. intros H. apply N2Z.inj in H.
  pose proof (Byte.of_to_N b1) as E1. pose proof (Byte.of_to_N b2) as E2.
  rewrite H in E1. congruence.
Qed.

Lemma int16_le_inj lo hi lo' hi' :
  int16_le lo hi = int16_le lo' hi' -> lo = lo' /\ hi = hi'.
Proof.
  pose proof (byte_val_range lo). pose proof (byte_val_range hi).
  pose proof (byte_val_range lo'). pose proof (byte_val_range hi').
  unfold int16_le, uint16_le. cbv zeta.
  destruct (Z.leb_spec 0x8000 (byte_val lo + 256 * byte_val hi)),
           (Z.leb_spec 0x8000 (byte_val lo' + 256 * byte_val hi'));
    intros Heq; split; apply byte_val_inj; lia.
Qed.

Lemma int16_le_range lo hi : - 0x8000 <= int16_le lo hi < 0x8000.
Proof.
  pose proof (uint16_le_range lo hi). unfold int16_le. cbv zeta.
  destruct (Z.leb_spec 0x8000 (uint16_le lo hi)); lia.
Qed.

Lemma Returned_lookup d1 d2 key :
  Returned d1 = Returned d2 -> d1 !! key = d2 !! key.
Proof. intros H. apply Returned_inj in H. rewrite H. reflexivity. Qed.

(** X11: the scaled fields lose nothing: two temperature records (raw
    value over 10) or two humidity records (raw value over 2) that decode to
    the same object have the same data bytes, in the ambience and in the
    soil decoder. *)
Theorem temperature_and_humidity_determine_their_data_bytes (lo hi lo' hi' : byte) :
  (AM100.Decoder [x03; x67; lo; hi] None = AM100.Decoder [x03; x67; lo'; hi'] None ->
   lo = lo' /\ hi = hi') /\
  (EM500_SMT.Decoder [x03; x67; lo; hi] None = EM500_SMT.Decoder [x03; x67; lo'; hi'] None ->
   lo = lo' /\ hi = hi') /\
  (AM100.Decoder [x04; x68; lo] None = AM100.Decoder [x04; x68; lo'] None -> lo = lo') /\
  (EM500_SMT.Decoder [x04; x68; lo] None = EM500_SMT.Decoder [x04; x68; lo'] None -> lo = lo').
Proof.
  assert (T : forall d : gmap string value,
    <["temperature" := VNum (js_div (readInt16LE [lo; hi]) (Int 10))]> d !! "temperature" =
    <["temperature" := VNum (js_div (readInt16LE [lo'; hi']) (Int 10))]> d !! "temperature" ->
    lo = lo' /\ hi = hi').
  { intros d. rewrite !lookup_insert_eq, !readInt16LE_pair. unfold js_div, toF.
    intros [= Heq]. apply int16_le_inj.
    apply tenths_inj; [apply int16_le_range..|exact Heq]. }
  assert (U : forall d : gmap string value,
    <["humidity" := VNum (js_div (Int (byte_val lo)) (Int 2))]> d !! "humidity" =
    <["humidity" := VNum (js_div (Int (byte_val lo')) (Int 2))]> d !! "humidity" ->
    lo = lo').
  { intros d. rewrite !lookup_insert_eq. unfold js_div, toF.
    intros [= Heq]. apply byte_val_inj.
    apply halves_inj; [apply byte_val_range..|exact Heq]. }
  open_decoders.
  rewrite !AM100_temperature_record, !EM500_SMT_temperature_record.
  split; [|split; [|split]].
  - cbn [finish]. intros H. apply (Returned_lookup _ _ "temperature") in H. exact (T _ H).
  - cbn [finish]. intros H. apply (Returned_lookup _ _ "temperature") in H. exact (T _ H).
  - eval_decoder. intros H. apply (Returned_lookup _ _ "humidity") in H. exact (U _ H).
  - eval_decoder. intros H. apply (Returned_lookup _ _ "humidity") in H. exact (U _ H).
Qed.

Lemma temperature_and_humidity_witness :
  AM100.Decoder [x03; x67; xe6; x00] None = AM100.Decoder [x03; x67; xe6; x00] None /\
  xe6 = xe6 /\ x00 = x00.
Proof.
  split; [reflexivity|].
  exact (proj1 (temperature_and_humidity_determine_their_data_bytes xe6 x00 xe6 x00)
           eq_refl).
Defined.


(** ** The Node-RED functions *)

Lemma heat_index_range_all : all_suffixes 16 0 outside_heat_index_range = true.
Proof. vm_compute. reflexivity. Qed.

Lemma heat_index_rejects Math_sqrt (s : Z) (rh : float) :
  - 0x8000 <= s < 0x8000 -> ~ 755 <= s <= 1264 ->
  CalculateHeatIndex Math_sqrt (PrimFloat.div (Z2F s) (Z2F 10)) rh = None.
Proof.
  intros Hs Hout.
  pose proof (all_suffixes_spec 16 0 outside_heat_index_range (s + 0x8000)
                heat_index_range_all) as R.
  change (2 ^ Z.of_nat 16) with 0x10000 in R. specialize (R ltac:(lia)).
  unfold outside_heat_index_range in R. cbv zeta in R.
  replace (s + 0x8000 - 0x8000) with s in R by lia.
  unfold CalculateHeatIndex. cbv zeta.
  destruct (Z.leb_spec 755 s), (Z.leb_spec s 1264); try lia;
    cbn [andb orb] in R; rewrite R; reflexivity.
Qed.

(** X13: for a temperature as the decoders produce it (a signed 16-bit
    raw value over 10), [CalculateHeatIndexCelsius] returns a number only
    when the raw value lies in 755..1264, whatever the humidity: the range
    test meant for degrees Fahrenheit is applied to the temperature as
    given. *)
Theorem heat_index_is_null_outside_75_to_126_degrees
    (Math_sqrt : float -> float) (s : Z) (rh r : float) :
  - 0x8000 <= s < 0x8000 ->
  CalculateHeatIndexCelsius Math_sqrt (PrimFloat.div (Z2F s) (Z2F 10)) rh = Some r ->
  755 <= s <= 1264.
Proof.
  intros Hs Hr.
  destruct (Z_le_dec 755 s) as [H1|H1]; [destruct (Z_le_dec s 1264) as [H2|H2]|]; [lia|..].
  all: unfold CalculateHeatIndexCelsius in Hr;
    rewrite heat_index_rejects in Hr by lia; discriminate.
Qed.

Lemma heat_index_witness :
  755 <= 800 <= 1264.
Proof.
  exact (heat_index_is_null_outside_75_to_126_degrees PrimFloat.sqrt 800 50
           (PrimFloat.div (PrimFloat.mul (PrimFloat.sub 80.802904900000101 32) 5) 9)
           ltac:(lia) eq_refl).
Defined.

Lemma loop_invariant (body : M unit) n fuel (P : state -> Prop) s0 s :
  (forall t t', body t = Ok tt t' -> P t -> P t') ->
  (forall t t', body t = Brk t' -> P t -> P t') ->
  P s0 -> loop body n fuel s0 = Done s -> P s.
Proof.
  intros Hok Hbrk. revert s0. induction fuel as [|fuel IH]; intros s0 H0; simpl;
    destruct (cursor s0 <? n); try discriminate; try (intros [= <-]; exact H0).
  destruct (body s0) as [[] t'|t'|e] eqn:Hb; try discriminate.
  - apply IH. eapply Hok; eauto.
  - intros [= <-]. eapply Hbrk; eauto.
Qed.

Lemma readInt16LE_range sl :
  exists z, readInt16LE sl = Int z /\ - 0x8000 <= z < 0x8000.
Proof.
  destruct (readUInt16LE_int sl) as (u & Hu & Hr).
  rewrite (readInt16LE_of_unsigned sl u Hu). eexists; split; [reflexivity|].
  destruct (Z.leb_spec 0x8000 u); lia.
Qed.

Ltac solve_weather :=
  let H := fresh in
  intros H; inversion H; subst; clear H; cbn [decoded];
  intros (Ht & Hh & Hd & Hi);
  ((split; [|split; [|split]]);
  [ intros v; rewrite ?lookup_insert_ne by done; try exact (Ht v);
    rewrite lookup_insert_eq; intros [= <-];
    match goal with
    | |- context [readInt16LE ?sl] =>
        destruct (readInt16LE_range sl) as (z & -> & Hz); exists z; auto
    end
  | intros v; rewrite ?lookup_insert_ne by done; try exact (Hh v);
    rewrite lookup_insert_eq; intros [= <-]; eauto
  | rewrite ?lookup_insert_ne by done; exact Hd
  | rewrite ?lookup_insert_ne by done; exact Hi ]).

Lemma AM100_keeps_weather_fields f1 f2 f3 f4 bytes t t' :
  AM100.body_with f1 f2 f3 f4 bytes t = Ok tt t' \/
  AM100.body_with f1 f2 f3 f4 bytes t = Brk t' ->
  weather_fields (decoded t) -> weather_fields (decoded t').
Proof.
  intros [H|H]; revert H; unfold weather_fields; unfold_body;
    repeat split_if; solve_weather.
Qed.

Lemma EM500_SMT_keeps_weather_fields bytes t t' :
  EM500_SMT.body bytes t = Ok tt t' \/ EM500_SMT.body bytes t = Brk t' ->
  weather_fields (decoded t) -> weather_fields (decoded t').
Proof.
  intros [H|H]; revert H; unfold weather_fields; unfold_body;
    repeat split_if; solve_weather.
Qed.

Lemma init_weather_fields : weather_fields (decoded AM100.init).
Proof. repeat split; try intros v; cbn; rewrite ?lookup_insert_ne by done; done. Qed.

Lemma AM100_weather_fields f1 f2 f3 f4 bytes s :
  run (AM100.body_with f1 f2 f3 f4) bytes AM100.init = Done s ->
  weather_fields (decoded s).
Proof.
  apply (loop_invariant _ _ _ (fun s => weather_fields (decoded s))).
  - intros t t' H. apply (AM100_keeps_weather_fields f1 f2 f3 f4 bytes). now left.
  - intros t t' H. apply (AM100_keeps_weather_fields f1 f2 f3 f4 bytes). now right.
  - apply init_weather_fields.
Qed.

Lemma EM500_SMT_weather_fields bytes s :
  EM500_SMT.exec bytes = Done s -> weather_fields (decoded s).
Proof.
  apply (loop_invariant _ _ _ (fun s => weather_fields (decoded s))).
  - intros t t' H. apply (EM500_SMT_keeps_weather_fields bytes). now left.
  - intros t t' H. apply (EM500_SMT_keeps_weather_fields bytes). now right.
  - apply init_weather_fields.
Qed.

Lemma finish_Returned o d : finish o = Returned d -> exists s, o = Done s /\ decoded s = d.
Proof. destruct o; simpl; intros [= <-]. eauto. Qed.

Lemma AM100_node_red_result_weather bytes port d :
  AM100_node_red.Decoder bytes port = Returned d -> weather_fields d.
Proof.
  unfold AM100_node_red.Decoder. destruct (negb (port_accepted port)); [discriminate|].
  intros H. apply finish_Returned in H as (s & Hs & <-).
  revert Hs. apply AM100_weather_fields.
Qed.

Lemma EM500_SMT_result_weather bytes port d :
  EM500_SMT.Decoder bytes port = Returned d -> weather_fields d.
Proof.
  unfold EM500_SMT.Decoder. destruct (negb (port_accepted port)); [discriminate|].
  intros H. apply finish_Returned in H as (s & Hs & <-).
  revert Hs. apply EM500_SMT_weather_fields.
Qed.

Lemma rejected_port_is_Null p bytes :
  p <> 85 ->
  AM100_node_red.Decoder bytes (Some p) = Null /\
  EM500_SMT.Decoder bytes (Some p) = Null.
Proof.
  intros Hp. unfold AM100_node_red.Decoder, EM500_SMT.Decoder, port_accepted.
  destruct (Z.eqb_spec p 85); [contradiction|]. split; reflexivity.
Qed.

(** X14: when [msg.port] is a number other than 85 the Node-RED function
    bodies throw a TypeError (["temperature" in null]) instead of returning
    a message. *)
Theorem node_function_throws_on_a_rejected_port
    (Math_log Math_sqrt : float -> float) (m : msg) (p : Z) :
  port m = Some p -> p <> 85 ->
  AM100_node Math_log Math_sqrt m = Throws TypeError /\
  EM500_SMT_node Math_log m = Throws TypeError.
Proof.
  intros Hport Hp. unfold AM100_node, EM500_SMT_node, node_body. rewrite Hport.
  destruct (rejected_port_is_Null p
              (match payload_raw m with Some raw => raw | None => payload m end) Hp)
    as [-> ->].
  split; reflexivity.
Qed.

Lemma node_function_throws_witness :
  AM100_node (fun x => x) PrimFloat.sqrt (mkMsg None [x01; x75; x64] (Some 1)) =
    Throws TypeError.
Proof.
  exact (proj1 (node_function_throws_on_a_rejected_port (fun x => x) PrimFloat.sqrt
                  (mkMsg None [x01; x75; x64] (Some 1)) 1 eq_refl ltac:(lia))).
Defined.

Lemma has_key_true key d : has_key key d = true <-> is_Some (d !! key).
Proof. unfold has_key. apply bool_decide_eq_true. Qed.

Lemma has_key_false key d : has_key key d = false <-> d !! key = None.
Proof.
  unfold has_key. rewrite bool_decide_eq_false, <- eq_None_not_Some. reflexivity.
Qed.

Lemma lookup_Val (d : gmap string value) (key : string) :
  (Val <$> d) !! key = Val <$> (d !! key).
Proof. apply lookup_fmap. Qed.

(** X15: a message returned by a Node-RED function body carries the
    object its decoder returns for the raw payload, every decoded field
    unchanged; [tDewC] (and [tHeatIndexC] in the ambience function) is added
    exactly when both [temperature] and [humidity] were decoded. *)
Theorem node_message_is_the_decoded_object_with_derived_fields
    (Math_log Math_sqrt : float -> float) (m : msg) (out : sent) :
  let b := match payload_raw m with Some raw => raw | None => payload m end in
  (AM100_node Math_log Math_sqrt m = Sends out ->
   exists d, AM100_node_red.Decoder b (port m) = Returned d /\
     (forall key, key <> "tDewC" -> key <> "tHeatIndexC" ->
        sent_payload out !! key = Val <$> (d !! key)) /\
     (is_Some (sent_payload out !! "tDewC") <->
        is_Some (d !! "temperature") /\ is_Some (d !! "humidity")) /\
     (is_Some (sent_payload out !! "tHeatIndexC") <->
        is_Some (d !! "temperature") /\ is_Some (d !! "humidity"))) /\
  (EM500_SMT_node Math_log m = Sends out ->
   exists d, EM500_SMT.Decoder b (port m) = Returned d /\
     (forall key, key <> "tDewC" -> sent_payload out !! key = Val <$> (d !! key)) /\
     (is_Some (sent_payload out !! "tDewC") <->
        is_Some (d !! "temperature") /\ is_Some (d !! "humidity"))).
Proof.
  intros b. subst b. split.
  - unfold AM100_node, node_body.
    destruct (AM100_node_red.Decoder _ (port m)) as [d| |e|] eqn:Hdec; try discriminate.
    intros [= <-]. exists d. split; [reflexivity|]. cbn [sent_payload].
    apply AM100_node_red_result_weather in Hdec as (_ & _ & Hd & Hi).
    rewrite <- !has_key_true, <- andb_true_iff.
    destruct (has_key "temperature" d && has_key "humidity" d).
    + split; [|split].
      * intros key H1 H2. rewrite !lookup_insert_ne by congruence. apply lookup_Val.
      * rewrite lookup_insert_ne by done. rewrite lookup_insert_eq. split; eauto.
      * rewrite lookup_insert_eq. split; eauto.
    + split; [|split].
      * intros key _ _. apply lookup_Val.
      * rewrite lookup_Val, Hd. split; [intros [? [=]] | discriminate].
      * rewrite lookup_Val, Hi. split; [intros [? [=]] | discriminate].
  - unfold EM500_SMT_node, node_body.
    destruct (EM500_SMT.Decoder _ (port m)) as [d| |e|] eqn:Hdec; try discriminate.
    intros [= <-]. exists d. split; [reflexivity|]. cbn [sent_payload].
    apply EM500_SMT_result_weather in Hdec as (_ & _ & Hd & Hi).
    rewrite <- !has_key_true, <- andb_true_iff.
    destruct (has_key "temperature" d && has_key "humidity" d).
    + split.
      * intros key H1. rewrite !lookup_insert_ne by congruence. apply lookup_Val.
      * rewrite lookup_insert_eq. split; eauto.
    + split.
      * intros key _. apply lookup_Val.
      * rewrite lookup_Val, Hd. split; [intros [? [=]] | discriminate].
Qed.

Lemma node_message_witness :
  let m := mkMsg (Some [x03; x67; xe6; x00; x04; x68; x64]) [x55] None in
  exists out d,
    AM100_node (fun x => x) PrimFloat.sqrt m = Sends out /\
    AM100_node_red.Decoder [x03; x67; xe6; x00; x04; x68; x64] None = Returned d /\
    (is_Some (sent_payload out !! "tDewC") <->
       is_Some (d !! "temperature") /\ is_Some (d !! "humidity")).
Proof.
  intros m.
  pose (out := match AM100_node (fun x => x) PrimFloat.sqrt m with
               | Sends o => o
               | _ => mkSent None None ∅ (mkLocal "" "" "" "")
               end).
  assert (H : AM100_node (fun x => x) PrimFloat.sqrt m = Sends out)
    by (vm_compute; reflexivity).
  destruct (proj1 (node_message_is_the_decoded_object_with_derived_fields
                     (fun x => x) PrimFloat.sqrt m out) H) as (d & Hd & _ & Hdew & _).
  exists out, d. split; [exact H|]. split; [exact Hd | exact Hdew].
Defined.

(** X16: in a message returned by the ambience Node-RED function,
    [tHeatIndexC] is a number only if the decoded temperature is between
    75.5 and 126.4; at any other temperature it is null or absent. *)
Theorem node_heat_index_is_null_below_75_degrees
    (Math_log Math_sqrt : float -> float) (m : msg) (out : sent) (v : value) :
  AM100_node Math_log Math_sqrt m = Sends out ->
  sent_payload out !! "tHeatIndexC" = Some (Val v) ->
  exists s, 755 <= s <= 1264 /\
    sent_payload out !! "temperature" = Some (Val (VNum (js_div (Int s) (Int 10)))).
Proof.
  unfold AM100_node, node_body.
  destruct (AM100_node_red.Decoder _ (port m)) as [d| |e|] eqn:Hdec; try discriminate.
  intros [= <-]. cbn [sent_payload].
  apply AM100_node_red_result_weather in Hdec as (Ht & _ & _ & Hi).
  destruct (has_key "temperature" d && has_key "humidity" d) eqn:Hkeys.
  - apply andb_true_iff in Hkeys as [Hkt _]. apply has_key_true in Hkt as [v0 Hv0].
    destruct (Ht v0 Hv0) as (s & Hs & ->).
    rewrite lookup_insert_eq. rewrite !lookup_insert_ne by done.
    rewrite lookup_Val, Hv0. unfold number_at at 1. rewrite Hv0.
    unfold CalculateHeatIndexCelsius. cbn [js_div toF].
    intros Hv. exists s. split; [|reflexivity].
    destruct (Z_le_dec 755 s) as [H1|H1]; [destruct (Z_le_dec s 1264) as [H2|H2]|]; [lia|..].
    all: rewrite heat_index_rejects in Hv by lia; discriminate.
  - rewrite lookup_Val, Hi. discriminate.
Qed.

Lemma node_heat_index_witness :
  let m := mkMsg None [x03; x67; x20; x03; x04; x68; x64] None in
  exists out s,
    AM100_node (fun x => x) PrimFloat.sqrt m = Sends out /\ 755 <= s <= 1264 /\
    sent_payload out !! "temperature" = Some (Val (VNum (js_div (Int s) (Int 10)))).
Proof.
  intros m.
  pose (out := match AM100_node (fun x => x) PrimFloat.sqrt m with
               | Sends o => o
               | _ => mkSent None None ∅ (mkLocal "" "" "" "")
               end).
  assert (H : AM100_node (fun x => x) PrimFloat.sqrt m = Sends out)
    by (vm_compute; reflexivity).
  assert (Hv : sent_payload out !! "tHeatIndexC" =
               Some (Val (VNum (Flt (PrimFloat.div (PrimFloat.mul
                 (PrimFloat.sub 80.802904900000101 32) 5) 9)))))
    by (vm_compute; reflexivity).
  destruct (node_heat_index_is_null_below_75_degrees _ _ m out _ H Hv) as (s & Hs & Ht).
  exists out, s. split; [exact H|]. split; [exact Hs | exact Ht].
Defined.

(** X17: for a humidity as the decoders produce it (a byte over 2),
    [dewpoint] computes with 100 % for every byte from 200 on and with 1 %
    for every byte up to 2. *)
Theorem dew_point_saturates_at_1_and_100_percent
    (Math_log : float -> float) (t : float) (b : byte) :
  let rh := PrimFloat.div (Z2F (byte_val b)) (Z2F 2) in
  (200 <= byte_val b -> dewpoint Math_log t rh = dewpoint Math_log t 100) /\
  (byte_val b <= 2 -> dewpoint Math_log t rh = dewpoint Math_log t 1).
Proof.
  cbv zeta. unfold dewpoint. cbv zeta.
  split; intros Hb;
    destruct b; try reflexivity; exfalso; revert Hb; vm_compute; congruence.
Qed.

Lemma dew_point_saturates_witness :
  dewpoint (fun x => x) 20 (PrimFloat.div (Z2F (byte_val xff)) (Z2F 2)) =
  dewpoint (fun x => x) 20 100.
Proof.
  exact (proj1 (dew_point_saturates_at_1_and_100_percent (fun x => x) 20 xff)
           ltac:(unfold byte_val; simpl; lia)).
Defined.

(** ** After the loop has stopped; the indices read *)

Lemma AM100_break_cursor f1 f2 f3 f4 bytes t s :
  AM100.body_with f1 f2 f3 f4 bytes t = Brk s -> cursor s = cursor t + 2.
Proof. unfold_body. repeat split_if; intros H; inversion H; subst; simpl; lia. Qed.

Lemma AM100_prefix_break f1 f2 f3 f4 pre rest t s :
  AM100.body_with f1 f2 f3 f4 pre t = Brk s -> cursor s <= len pre ->
  AM100.body_with f1 f2 f3 f4 (pre ++ rest) t = Brk s.
Proof.
  intros Hb Hle. pose proof (AM100_break_cursor _ _ _ _ _ _ _ Hb) as Hc.
  revert Hb. unfold_body.
  rewrite (elem_app_l pre rest (cursor t)), (elem_app_l pre rest (cursor t + 1)) by lia.
  repeat split_if; intros H; inversion H; subst; reflexivity.
Qed.

Lemma EM500_SMT_prefix_break pre rest t s :
  EM500_SMT.body pre t = Brk s ->
  decoded t !! "error" = None -> decoded s !! "error" = Some (VBool true) ->
  cursor s <= len pre ->
  EM500_SMT.body (pre ++ rest) t = Brk s.
Proof.
  intros Hb Hclean Hflag Hle.
  assert (Hc : cursor s = cursor t + 2).
  { revert Hb Hflag. unfold_body. repeat split_if; intros H; inversion H; subst; simpl;
      rewrite ?lookup_insert_ne by done; intros; try lia; congruence. }
  pose proof (len_nonneg rest). pose proof (len_app pre rest).
  revert Hb Hflag. unfold_body.
  destruct (Z.ltb_spec (len (pre ++ rest) - 2) (cursor t)); [lia|].
  destruct (Z.ltb_spec (len pre - 2) (cursor t)); [lia|].
  rewrite (elem_app_l pre rest (cursor t)), (elem_app_l pre rest (cursor t + 1)) by lia.
  repeat split_if; intros H' Hflag; inversion H'; subst; cbn [decoded] in Hflag;
    rewrite ?lookup_insert_ne in Hflag by done; try congruence; reflexivity.
Qed.

Section Stop.

Variable body : list byte -> M unit.
Hypothesis body_progress :
  forall bytes t t', body bytes t = Ok tt t' -> cursor t < cursor t'.
Hypothesis body_prefix_step :
  forall pre rest t t', body pre t = Ok tt t' -> 0 <= cursor t -> cursor t' <= len pre ->
                        body (pre ++ rest) t = Ok tt t'.

Lemma run_stops pre rest d t s :
  reaches (body pre) (len pre) (start d) t -> cursor t < len pre ->
  body (pre ++ rest) t = Brk s ->
  run body (pre ++ rest) (start d) = Done s.
Proof.
  intros Hr Hlt Hb.
  apply (run_break body body_progress _ _ t).
  - apply reaches_prefix;
      [apply body_progress | apply body_prefix_step | simpl; lia | exact Hr | lia].
  - rewrite len_app. pose proof (len_nonneg rest). lia.
  - exact Hb.
Qed.

End Stop.

(** X18: once a decoder has stopped at a header that lies inside the
    payload and is not in its table, bytes appended to the payload do not
    change the result.  For the soil decoder this is stated for the
    [error] flag (an unknown channel id). *)
Theorem bytes_after_an_unmatched_header_are_ignored (pre rest : list byte) (s : state) :
  cursor s <= len pre ->
  (AM100.exec pre = Done s -> flagged (decoded s) ->
   AM100.Decoder (pre ++ rest) None = Returned (decoded s)) /\
  (AM100_node_red.exec pre = Done s -> flagged (decoded s) ->
   AM100_node_red.Decoder (pre ++ rest) None = Returned (decoded s)) /\
  (EM500_SMT.exec pre = Done s -> decoded s !! "error" = Some (VBool true) ->
   EM500_SMT.Decoder (pre ++ rest) None = Returned (decoded s)).
Proof.
  intros Hle.
  assert (A : forall f1 f2 f3 f4,
    run (AM100.body_with f1 f2 f3 f4) pre AM100.init = Done s -> flagged (decoded s) ->
    finish (run (AM100.body_with f1 f2 f3 f4) (pre ++ rest) AM100.init) = Returned (decoded s)).
  { intros f1 f2 f3 f4 Hrun Hflag.
    destruct (loop_done_inv _ _ _ AM100.init _ _ (reaches_start _ _ _) Hrun)
      as [[Hr _] | (t & Hr & Hlt & Hb)].
    - apply AM100_reaches_clean, clean_not_flagged in Hr. contradiction.
    - apply (AM100_prefix_break _ _ _ _ pre rest) in Hb; [|exact Hle].
      replace (run (AM100.body_with f1 f2 f3 f4) (pre ++ rest) AM100.init) with (Done s);
        [reflexivity|]. symmetry.
      exact (run_stops _ (AM100_progress f1 f2 f3 f4) (AM100_prefix_step f1 f2 f3 f4)
               pre rest _ t s Hr Hlt Hb). }
  open_decoders. split; [apply A|]. split; [apply A|].
  unfold EM500_SMT.exec. intros Hrun Hflag.
  destruct (loop_done_inv _ _ _ EM500_SMT.init _ _ (reaches_start _ _ _) Hrun)
    as [[Hr _] | (t & Hr & Hlt & Hb)].
  - apply EM500_SMT_reaches_clean in Hr as [_ He]. congruence.
  - pose proof (EM500_SMT_reaches_clean _ _ Hr) as [_ He].
    apply (EM500_SMT_prefix_break pre rest) in Hb; [|assumption..].
    replace (run EM500_SMT.body (pre ++ rest) EM500_SMT.init) with (Done s);
      [reflexivity|]. symmetry.
    exact (run_stops _ EM500_SMT_progress EM500_SMT_prefix_step pre rest _ t s Hr Hlt Hb).
Qed.

Lemma bytes_after_an_unmatched_header_witness :
  AM100.Decoder ([x01; x75; x32; x55; x00] ++ [x03; x67; xe6; x00]) None =
  Returned (<["error" := VBool true]>
              (<["battery" := VNum (Int 50)]> (<["Error" := VBool false]> ∅))).
Proof.
  pose (s := mkState 5 (<["error" := VBool true]>
              (<["battery" := VNum (Int 50)]> (<["Error" := VBool false]> ∅)))
              [4; 3; 2; 1; 0]).
  exact (proj1 (bytes_after_an_unmatched_header_are_ignored
                  [x01; x75; x32; x55; x00] [x03; x67; xe6; x00] s
                  ltac:(unfold s, len; simpl; lia))
         ltac:(vm_compute; reflexivity)
         ltac:(right; vm_compute; reflexivity)).
Defined.

Lemma range_rev_bounds lo hi : Forall (fun k => lo <= k < hi) (range_rev lo hi).
Proof.
  unfold range_rev. apply Forall_reverse, Forall_seqZ. intros j Hj. lia.
Qed.

Lemma slice_reads_confined bytes lo hi c :
  0 <= lo -> hi <= c ->
  Forall (fun k => 0 <= k < c) (range_rev (slice_lo bytes lo) (slice_hi bytes hi)).
Proof.
  intros Hlo Hhi. eapply Forall_impl; [apply range_rev_bounds|].
  unfold slice_lo, slice_hi. pose proof (len_nonneg bytes). intros k Hk. simpl in Hk. lia.
Qed.

Ltac solve_confined :=
  let H := fresh in
  intros H; inversion H; subst; clear H; cbn [cursor reads];
  intros [Hc Hr];
  (split; [lia|]);
  repeat first [ apply Forall_cons; split; [lia|]
               | apply Forall_app; split; [apply slice_reads_confined; lia|] ];
  (eapply Forall_impl; [exact Hr|]); intros k Hk; simpl in Hk; lia.

Lemma AM100_keeps_reads_confined f1 f2 f3 f4 bytes t t' :
  AM100.body_with f1 f2 f3 f4 bytes t = Ok tt t' \/
  AM100.body_with f1 f2 f3 f4 bytes t = Brk t' ->
  reads_confined t -> reads_confined t'.
Proof.
  intros [H|H]; revert H; unfold reads_confined; unfold_body;
    repeat split_if; solve_confined.
Qed.

Lemma EM500_SMT_keeps_reads_confined bytes t t' :
  EM500_SMT.body bytes t = Ok tt t' \/ EM500_SMT.body bytes t = Brk t' ->
  reads_confined t -> reads_confined t'.
Proof.
  intros [H|H]; revert H; unfold reads_confined; unfold_body;
    repeat split_if; solve_confined.
Qed.

Lemma EM500_LGT_keeps_reads_confined bytes t t' :
  EM500_LGT.body bytes t = Ok tt t' \/ EM500_LGT.body bytes t = Brk t' ->
  reads_confined t -> reads_confined t'.
Proof.
  intros [H|H]; revert H; unfold reads_confined; unfold_body;
    repeat split_if; solve_confined.
Qed.

Lemma start_reads_confined d : reads_confined (start d).
Proof. split; [simpl; lia | constructor]. Qed.

Lemma cons_new {A} (x : A) l new r : l = new ++ r -> x :: l = (x :: new) ++ r.
Proof. intros ->. reflexivity. Qed.

Lemma app_new {A} (l0 l new r : list A) : l = new ++ r -> l0 ++ l = (l0 ++ new) ++ r.
Proof. intros ->. apply app_assoc. Qed.

Lemma slice_reads_between bytes lo hi c c' :
  c <= lo -> hi <= c' ->
  Forall (fun k => c <= k < c') (range_rev (slice_lo bytes lo) (slice_hi bytes hi)).
Proof.
  intros Hlo Hhi. eapply Forall_impl; [apply range_rev_bounds|].
  unfold slice_lo, slice_hi. intros k Hk. simpl in Hk. lia.
Qed.

Ltac solve_reads_within :=
  let H := fresh in
  intros H; inversion H; subst; clear H; unfold reads_within; cbn [cursor reads];
  (eexists; split;
   [ repeat first [ apply cons_new | apply app_new ]; exact (eq_refl : _ = [] ++ _)
   | repeat first [ apply Forall_nil_2
                  | apply Forall_cons; split; [lia|]
                  | apply Forall_app; split; [apply slice_reads_between; lia|] ] ]).

Lemma AM100_reads_within f1 f2 f3 f4 bytes t t' :
  AM100.body_with f1 f2 f3 f4 bytes t = Ok tt t' \/
  AM100.body_with f1 f2 f3 f4 bytes t = Brk t' ->
  reads_within t t'.
Proof. intros [H|H]; revert H; unfold_body; repeat split_if; solve_reads_within. Qed.

Lemma EM500_SMT_reads_within bytes t t' :
  EM500_SMT.body bytes t = Ok tt t' \/ EM500_SMT.body bytes t = Brk t' ->
  reads_within t t'.
Proof. intros [H|H]; revert H; unfold_body; repeat split_if; solve_reads_within. Qed.

Lemma EM500_LGT_reads_within bytes t t' :
  EM500_LGT.body bytes t = Ok tt t' \/ EM500_LGT.body bytes t = Brk t' ->
  reads_within t t'.
Proof. intros [H|H]; revert H; unfold_body; repeat split_if; solve_reads_within. Qed.

(** X19: in one iteration of any of the four decoders, whether it
    completes or ends in [break], [bytes] is read only at indices from the
    loop index before the iteration up to, and not including, the loop index
    after it: no decoder reads outside the record it consumes.  Hence every
    index read in a run is at least 0 and below the final loop index. *)
Theorem each_iteration_reads_only_inside_the_record_it_consumes :
  (forall bytes t t',
     (AM100.body bytes t = Ok tt t' \/ AM100.body bytes t = Brk t') \/
     (AM100_node_red.body bytes t = Ok tt t' \/ AM100_node_red.body bytes t = Brk t') \/
     (EM500_SMT.body bytes t = Ok tt t' \/ EM500_SMT.body bytes t = Brk t') \/
     (EM500_LGT.body bytes t = Ok tt t' \/ EM500_LGT.body bytes t = Brk t') ->
     reads_within t t') /\
  (forall bytes s,
     AM100.exec bytes = Done s \/ AM100_node_red.exec bytes = Done s \/
     EM500_SMT.exec bytes = Done s \/ EM500_LGT.exec bytes = Done s ->
     Forall (fun k => 0 <= k < cursor s) (reads s)).
Proof.
  split.
  - intros bytes t t' [H|[H|[H|H]]].
    + eapply AM100_reads_within, H.
    + eapply AM100_reads_within, H.
    + eapply EM500_SMT_reads_within, H.
    + eapply EM500_LGT_reads_within, H.
  - intros bytes s H. cut (reads_confined s); [intros [_ Hr]; exact Hr|].
    destruct H as [H|[H|[H|H]]]; revert H;
      apply (loop_invariant _ _ _ reads_confined); try apply start_reads_confined.
    + intros t t' H. eapply AM100_keeps_reads_confined. left; exact H.
    + intros t t' H. eapply AM100_keeps_reads_confined. right; exact H.
    + intros t t' H. eapply AM100_keeps_reads_confined. left; exact H.
    + intros t t' H. eapply AM100_keeps_reads_confined. right; exact H.
    + intros t t' H. eapply EM500_SMT_keeps_reads_confined. left; exact H.
    + intros t t' H. eapply EM500_SMT_keeps_reads_confined. right; exact H.
    + intros t t' H. eapply EM500_LGT_keeps_reads_confined. left; exact H.
    + intros t t' H. eapply EM500_LGT_keeps_reads_confined. right; exact H.
Qed.

(** An illumination record at index 3: two of its six data bytes are
    read. *)
Lemma each_iteration_reads_witness :
  let bytes := [x01; x75; x32; x06; x65; x10; x00; x00; x00; x00; x00] in
  let t := mkState 3 (<["battery" := VNum (Int 50)]> (<["Error" := VBool false]> ∅))
                   [2; 1; 0] in
  let t' := mkState 11 (<["illumination" := VNum (Int 16)]> (decoded t))
                    [6; 5; 4; 3; 2; 1; 0] in
  AM100.body bytes t = Ok tt t' /\ reads_within t t'.
Proof.
  intros bytes t t'.
  assert (H : AM100.body bytes t = Ok tt t') by (vm_compute; reflexivity).
  split; [exact H|].
  exact (proj1 each_iteration_reads_only_inside_the_record_it_consumes bytes t t'
           (or_introl (or_introl H))).
Defined.
